(** * Workflow execution route: admission, secret templating, engine call

    A shallow embedding of [apps/sim/app/api/workflows/[id]/execute/route.ts].

    - JavaScript values are a small inductive type ([JSValue]); objects are
      association lists in [Object.entries] order.
    - The process-wide [runningExecutions] set is a [gset string].
    - Every awaited collaborator (usage monitor, database, decryption,
      serializer, executor, persistence) is a field of [World]; it either
      returns or rejects with a message.
    - Code inside [executeWorkflow] runs in a writer/error monad [W] whose
      log is the chronological list of collaborator calls and logger lines.
    - The interleaving of several in-flight calls at their [await] points is
      a scheduler that resumes one call at a time (module [Sched]).

    Strings are sequences of bytes: the UTF-8 encoding of the JavaScript
    string. The braces, the dollar sign and the colon the route looks for
    are single bytes that occur in no longer sequence, so searching,
    slicing and replacing by bytes agree with the code; the white space
    that [trim] strips is recognised in its encoded form.

    Outside the model: inherited properties and the [__proto__] key of
    objects, the reordering of integer-like keys, numbers other than
    integers, and the number of index keys of a string value that holds
    characters beyond ASCII (it shows in one log line only). Logger lines
    keep their first argument only. *)

From stdpp Require Import gmap strings list.
From Stdlib Require Import ZArith Ascii String DecimalString Lia.

Local Open Scope Z_scope.

(** ** JavaScript values and errors *)

#[warnings="-register-all"]
Inductive JSValue : Type :=
| JUndefined
| JNull
| JBool (b : bool)
| JNum (n : Z)
| JStr (s : string)
| JArr (items : list JSValue)
| JObj (props : list (string * JSValue)).

(** Thrown values. [UsageLimitError] is the class declared in the route;
    everything else is a plain [Error] carrying a message. *)
Inductive JSError : Type :=
| PlainError (message : string)
| UsageLimitError (message : string) (statusCode : Z).

(** [new UsageLimitError(message)]: the constructor fixes the status. *)
Definition new_UsageLimitError (message : string) : JSError :=
  UsageLimitError message 402.

Definition message (e : JSError) : string :=
  match e with PlainError m => m | UsageLimitError m _ => m end.

(** What a collaborator does: resolve with a value or reject. A
    collaborator cannot build a [UsageLimitError], which is private to
    the route, so a rejection carries a message only. *)
Inductive Ext (A : Type) : Type :=
| Returns (a : A)
| Rejects (msg : string).
Arguments Returns {A} a.
Arguments Rejects {A} msg.

Inductive Result (A : Type) : Type :=
| Ok (a : A)
| Throw (e : JSError).
Arguments Ok {A} a.
Arguments Throw {A} e.

(** ** Observable events *)

Inductive Level : Type := LDebug | LInfo | LWarn | LError.

Inductive Event : Type :=
| Log (lvl : Level) (msg : string)
| RegistryAdd (key : string)
| RegistryDelete (key : string)
| UsageLookup (userId : string)
| LoadWorkflow (workflowId : string)
| SelectEnvironment (userId : string)
| Decrypt (ciphertext : string)
| EngineInvoke (serializedWorkflow : JSValue)
    (blockStates : list (string * list (string * JSValue)))
    (envVars : list (string * string)) (input workflowVariables : JSValue)
    (workflowId : string)
| UpdateRunCounts (workflowId : string)
| UpdateUserStats (userId : string)
| PersistLogs (workflowId executionId : string) (enriched : JSValue)
| PersistError (workflowId executionId : string) (error : JSError).

(** ** The writer/error monad of the guarded section *)

Definition W (A : Type) : Type := (list Event * Result A)%type.

Definition ret {A} (a : A) : W A := ([], Ok a).

Definition bind {A B} (m : W A) (f : A → W B) : W B :=
  match m with
  | (t, Ok a) => let '(t', r) := f a in (t ++ t', r)
  | (t, Throw e) => (t, Throw e)
  end.

Definition emit (e : Event) : W unit := ([e], Ok tt).

Definition throw {A} (e : JSError) : W A := ([], Throw e).

(** A call to a pure helper that may throw. *)
Definition call {A} (r : Ext A) : W A :=
  match r with
  | Returns a => ([], Ok a)
  | Rejects msg => ([], Throw (PlainError msg))
  end.

(** [await f(...)]: record the call, then resolve or reject. *)
Definition await {A} (call : Event) (r : Ext A) : W A :=
  match r with
  | Returns a => ([call], Ok a)
  | Rejects msg => ([call], Throw (PlainError msg))
  end.

(** [try { m } catch (error) { h error }] *)
Definition try_catch {A} (m : W A) (h : JSError → W A) : W A :=
  match m with
  | (t, Ok a) => (t, Ok a)
  | (t, Throw e) => let '(t', r) := h e in (t ++ t', r)
  end.

Declare Scope w_scope.
Delimit Scope w_scope with W.
Notation "'do' x <- m ; k" := (bind m (fun x => k))
  (at level 61, x name, m at level 60, k at level 200, right associativity) : w_scope.
Notation "'run' m ; k" := (bind m (fun _ => k))
  (at level 61, m at level 60, k at level 200, right associativity) : w_scope.
Local Open Scope w_scope.

(** ** Strings *)

Definition dq : string := String (ascii_of_nat 34) EmptyString.

Definition quoted (s : string) : string := dq +:+ s +:+ dq.

(** [hay.includes(needle)] *)
Fixpoint includes (needle hay : string) : bool :=
  match hay with
  | EmptyString => String.prefix needle hay
  | String _ rest => String.prefix needle hay || includes needle rest
  end.

(** [s.slice(2, -2)] *)
Definition slice_2_m2 (s : string) : string :=
  String.substring 2 (String.length s - 4) s.

(** Splits [s] around the first occurrence of [pat]. *)
Fixpoint split_first (pat s : string) : option (string * string) :=
  if String.prefix pat s
  then Some (EmptyString, String.substring (String.length pat) (String.length s - String.length pat) s)
  else match s with
       | EmptyString => None
       | String c rest =>
           match split_first pat rest with
           | Some (before, after) => Some (String c before, after)
           | None => None
           end
       end.

(** ECMAScript [GetSubstitution] for a string pattern (no captures, no
    named groups): [$$], [$&], [$`] and [$'] are expanded, every other
    character, including [$1] and [$<], is copied. *)
Fixpoint GetSubstitution (matched before after replacement : string) : string :=
  match replacement with
  | EmptyString => EmptyString
  | String c rest =>
      if Ascii.eqb c "$" then
        match rest with
        | EmptyString => String c EmptyString
        | String d rest' =>
            if Ascii.eqb d "$" then String c (GetSubstitution matched before after rest')
            else if Ascii.eqb d "&" then matched +:+ GetSubstitution matched before after rest'
            else if Ascii.eqb d "`" then before +:+ GetSubstitution matched before after rest'
            else if Ascii.eqb d "'" then after +:+ GetSubstitution matched before after rest'
            else String c (GetSubstitution matched before after rest)
        end
      else String c (GetSubstitution matched before after rest)
  end.

(** [s.replace(pat, replacement)] with a string pattern: first occurrence only. *)
Definition replace (s pat replacement : string) : string :=
  match split_first pat s with
  | None => s
  | Some (before, after) =>
      before +:+ GetSubstitution pat before after replacement +:+ after
  end.

(** The longest prefix of [s] without a closing brace, and what follows it. *)
Fixpoint span_name (s : string) : string * string :=
  match s with
  | EmptyString => (EmptyString, EmptyString)
  | String c rest =>
      if Ascii.eqb c "}" then (EmptyString, s)
      else let '(name, tail) := span_name rest in (String c name, tail)
  end.

(** One attempt of [/{{([^}]+)}}/] at the head of [s]: the name matched by
    the group. The greedy [[^}]+] stops at the first closing brace and
    giving characters back cannot help, since the next one must be [}]. *)
Definition match_here (s : string) : option string :=
  match s with
  | String a (String b rest) =>
      if Ascii.eqb a "{" && Ascii.eqb b "{" then
        match span_name rest with
        | (String n name, String e1 (String e2 _)) =>
            if Ascii.eqb e1 "}" && Ascii.eqb e2 "}" then Some (String n name)
            else None
        | _ => None
        end
      else None
  | _ => None
  end.

(** [value.match(/{{([^}]+)}}/g)]: all matches, leftmost first, not
    overlapping. [skip] counts the characters of the current match still
    to be passed over. *)
Fixpoint match_all (skip : nat) (s : string) : list string :=
  match s with
  | EmptyString => []
  | String _ rest =>
      match skip with
      | S k => match_all k rest
      | O =>
          match match_here s with
          | Some name =>
              ("{{" +:+ name +:+ "}}") :: match_all (String.length name + 3) rest
          | None => match_all 0 rest
          end
      end
  end.

Definition matchPlaceholders (value : string) : option (list string) :=
  match match_all 0 value with
  | [] => None
  | ms => Some ms
  end.


(** ** Objects *)

Fixpoint lookup_prop {A} (k : string) (props : list (string * A)) : option A :=
  match props with
  | [] => None
  | (k', v) :: rest => if String.eqb k k' then Some v else lookup_prop k rest
  end.

(** [obj[k] = v]: overwrite in place, or append a new property. *)
Fixpoint set_prop {A} (k : string) (v : A) (props : list (string * A)) : list (string * A) :=
  match props with
  | [] => [(k, v)]
  | (k', v') :: rest =>
      if String.eqb k k' then (k, v) :: rest else (k', v') :: set_prop k v rest
  end.

Definition truthy (v : JSValue) : bool :=
  match v with
  | JUndefined | JNull => false
  | JBool b => b
  | JNum n => negb (n =? 0)
  | JStr s => negb (String.eqb s EmptyString)
  | JArr _ | JObj _ => true
  end.

Definition typeError (what : string) : JSError :=
  PlainError ("TypeError: " +:+ what).

(** [v.k], for keys that strings and arrays do not have *)
Definition get_prop (v : JSValue) (k : string) : W JSValue :=
  match v with
  | JUndefined | JNull =>
      throw (typeError ("Cannot read properties of undefined (reading '" +:+ k +:+ "')"))
  | JObj props => ret (default JUndefined (lookup_prop k props))
  | _ => ret JUndefined
  end.

Definition nat_to_string (n : nat) : string :=
  NilEmpty.string_of_uint (Nat.to_uint n).

Fixpoint index_entries {A} (f : A → JSValue) (i : nat) (l : list A) : list (string * JSValue) :=
  match l with
  | [] => []
  | x :: rest => (nat_to_string i, f x) :: index_entries f (S i) rest
  end.

(** Own enumerable properties, as [{...v}] and [Object.entries(v)] see them. *)
Definition own_entries (v : JSValue) : list (string * JSValue) :=
  match v with
  | JObj props => props
  | JArr items => index_entries (fun x => x) 0 items
  | JStr s =>
      index_entries (fun c => JStr (String c EmptyString)) 0 (list_ascii_of_string s)
  | _ => []
  end.

(** [Object.keys(v).length] *)
Definition keys_length (v : JSValue) : W nat :=
  match v with
  | JUndefined | JNull =>
      throw (typeError "Cannot convert undefined or null to object")
  | _ => ret (List.length (own_entries v))
  end.

(** ** Data of the route *)

Record UsageStatus : Type := {
  isExceeded : bool;
  currentUsage : Z;
  limit : Z;
  usage_message : option string
}.

Record WorkflowState : Type := {
  blocks : JSValue;
  edges : JSValue;
  loops : JSValue;
  parallels : JSValue
}.

(** The workflow row handed over by access validation. [deployedState] is
    [None] when the column is null. *)
Record Workflow : Type := {
  workflow_id : string;
  workflow_userId : string;
  deployedState : option WorkflowState;
  workflow_variables : JSValue
}.

(** Per block id, the [value] of every sub-block. *)
Definition MergedStates : Type := list (string * list (string * JSValue)).

(** The collaborators imported by the route. *)
Record World : Type := {
  uuidv4 : string;
  checkServerSideUsageLimits : string → Ext UsageStatus;
  loadWorkflowFromNormalizedTables : string → Ext (option WorkflowState);
  mergeSubblockState : JSValue → Ext MergedStates;
  selectEnvironment : string → Ext (option JSValue);
  zodErrorMessage : JSValue → string;
  decryptSecret : string → Ext string;
  JSON_parse : string → Ext JSValue;
  serializeWorkflow : MergedStates → JSValue → JSValue → JSValue → Ext JSValue;
  execute : JSValue → MergedStates → list (string * string) →
            JSValue → JSValue → string → Ext (list (string * JSValue));
  updateWorkflowRunCounts : string → Ext unit;
  updateUserStats : string → Ext unit;
  buildTraceSpans : JSValue → Ext (JSValue * JSValue);
  persistExecutionLogs : string → string → JSValue → Ext unit;
  persistExecutionError : string → string → JSError → Ext unit
}.

Definition tag (requestId : string) : string := "[" +:+ requestId +:+ "] ".

(** ** Environment variables *)

Fixpoint record_of_strings (props : list (string * JSValue)) : option (list (string * string)) :=
  match props with
  | [] => Some []
  | (k, JStr s) :: rest =>
      match record_of_strings rest with
      | Some vs => Some ((k, s) :: vs)
      | None => None
      end
  | _ => None
  end.

(** [EnvVarsSchema.parse(v)] for [z.record(z.string())] *)
Definition EnvVarsSchema_parse (w : World) (v : JSValue) : W (list (string * string)) :=
  match v with
  | JObj props =>
      match record_of_strings props with
      | Some vs => ret vs
      | None => throw (PlainError (zodErrorMessage w v))
      end
  | _ => throw (PlainError (zodErrorMessage w v))
  end.

(** [userEnv?.variables ?? {}] *)
Definition variables_or_empty (userEnv : option JSValue) : JSValue :=
  match userEnv with
  | None | Some JUndefined | Some JNull => JObj []
  | Some v => v
  end.

(** ** Template substitution (lines 146-176) *)

Fixpoint replaceMatches (w : World) (requestId : string)
    (variables : list (string * string)) (matches : list string) (value : string)
  : W string :=
  match matches with
  | [] => ret value
  | m :: rest =>
      let varName := slice_2_m2 m in
      match lookup_prop varName variables with
      | Some (String c enc) =>
          let encryptedValue := String c enc in
          do value' <-
            try_catch
              (do decrypted <- await (Decrypt encryptedValue) (decryptSecret w encryptedValue);
               ret (replace value m decrypted))
              (fun error =>
                 run emit (Log LError (tag requestId +:+ "Error decrypting environment variable "
                                       +:+ quoted varName));
                 throw (PlainError ("Failed to decrypt environment variable "
                                    +:+ quoted varName +:+ ": " +:+ message error)));
          replaceMatches w requestId variables rest value'
      | _ =>
          throw (PlainError ("Environment variable " +:+ quoted varName +:+ " was not found"))
      end
  end.

Definition substituteValue (w : World) (requestId : string)
    (variables : list (string * string)) (value : JSValue) : W JSValue :=
  match value with
  | JStr s =>
      if includes "{{" s && includes "}}" s then
        match matchPlaceholders s with
        | Some matches =>
            do s' <- replaceMatches w requestId variables matches s;
            ret (JStr s')
        | None => ret value
        end
      else ret value
  | _ => ret value
  end.

Fixpoint resolveSubBlocks (w : World) (requestId : string)
    (variables : list (string * string)) (entries subAcc : list (string * JSValue))
  : W (list (string * JSValue)) :=
  match entries with
  | [] => ret subAcc
  | (key, v) :: rest =>
      do value <- substituteValue w requestId variables v;
      resolveSubBlocks w requestId variables rest (set_prop key value subAcc)
  end.

Fixpoint resolveBlocks (w : World) (requestId : string)
    (variables : list (string * string)) (entries acc : MergedStates)
  : W MergedStates :=
  match entries with
  | [] => ret acc
  | (id, subBlocks) :: rest =>
      do sub <- resolveSubBlocks w requestId variables subBlocks [];
      resolveBlocks w requestId variables rest (set_prop id sub acc)
  end.

(** ** Decrypting the whole environment (lines 186-196) *)

Fixpoint decryptAll (w : World) (requestId : string)
    (entries acc : list (string * string)) : W (list (string * string)) :=
  match entries with
  | [] => ret acc
  | (key, encryptedValue) :: rest =>
      do decrypted <-
        try_catch (await (Decrypt encryptedValue) (decryptSecret w encryptedValue))
          (fun error =>
             run emit (Log LError (tag requestId +:+ "Failed to decrypt environment variable "
                                   +:+ quoted key));
             throw (PlainError ("Failed to decrypt environment variable "
                                +:+ quoted key +:+ ": " +:+ message error)));
      decryptAll w requestId rest (set_prop key decrypted acc)
  end.

(** ** Response formats (lines 199-222) *)

Fixpoint processBlockStates (w : World) (requestId : string)
    (entries acc : MergedStates) : W MergedStates :=
  match entries with
  | [] => ret acc
  | (blockId, blockState) :: rest =>
      match lookup_prop "responseFormat" blockState with
      | Some (JStr (String c text)) =>
          let responseFormat := String c text in
          run emit (Log LDebug (tag requestId +:+ "Parsing responseFormat for block " +:+ blockId));
          match JSON_parse w responseFormat with
          | Returns parsedResponseFormat =>
              processBlockStates w requestId rest
                (set_prop blockId (set_prop "responseFormat" parsedResponseFormat blockState) acc)
          | Rejects _ =>
              run emit (Log LWarn (tag requestId +:+ "Failed to parse responseFormat for block "
                                   +:+ blockId));
              processBlockStates w requestId rest (set_prop blockId blockState acc)
          end
      | _ => processBlockStates w requestId rest (set_prop blockId blockState acc)
      end
  end.

(** ** Workflow variables (lines 225-244)

    The assignment to [workflowVariables] happens before the debug line
    that counts its keys, so a value on which [Object.keys] throws stays
    assigned. Nothing escapes this block. *)
Definition loadWorkflowVariables (w : World) (requestId : string) (workflow : Workflow)
  : W JSValue :=
  let workflowId := workflow_id workflow in
  let failed := Log LError (tag requestId +:+ "Failed to parse workflow variables: " +:+ workflowId) in
  let loaded (v : JSValue) : W JSValue :=
    match keys_length v with
    | (_, Ok n) =>
        run emit (Log LDebug (tag requestId +:+ "Loaded " +:+ nat_to_string n
                              +:+ " workflow variables for: " +:+ workflowId));
        ret v
    | (_, Throw _) => run emit failed; ret v
    end in
  if truthy (workflow_variables workflow) then
    match workflow_variables workflow with
    | JStr text =>
        match JSON_parse w text with
        | Returns parsed => loaded parsed
        | Rejects _ => run emit failed; ret (JObj [])
        end
    | other => loaded other
    end
  else
    run emit (Log LDebug (tag requestId +:+ "No workflow variables found for: " +:+ workflowId));
    ret (JObj []).

(** ** Engine result shape (line 267) *)

Definition has_key (k : string) (props : list (string * JSValue)) : bool :=
  bool_decide (is_Some (lookup_prop k props)).

Definition selectExecutionResult (result : list (string * JSValue)) : JSValue :=
  if has_key "stream" result && has_key "execution" result
  then default JUndefined (lookup_prop "execution" result)
  else JObj result.

(** ** Bookkeeping and enrichment (lines 275-299) *)

Definition updateCounters (w : World) (workflow : Workflow) (success : JSValue) : W unit :=
  if truthy success then
    run await (UpdateRunCounts (workflow_id workflow))
              (updateWorkflowRunCounts w (workflow_id workflow));
    await (UpdateUserStats (workflow_userId workflow))
          (updateUserStats w (workflow_userId workflow))
  else ret tt.

Definition enrich (executionResult traceSpans totalDuration : JSValue) : JSValue :=
  JObj (set_prop "totalDuration" totalDuration
          (set_prop "traceSpans" traceSpans (own_entries executionResult))).

(** ** The guarded section of [executeWorkflow] (lines 88-301) *)

Definition loadState (w : World) (requestId : string) (workflow : Workflow) : W WorkflowState :=
  let workflowId := workflow_id workflow in
  run emit (Log LDebug (tag requestId +:+ "Loading workflow " +:+ workflowId
                        +:+ " from normalized tables"));
  do normalizedData <- await (LoadWorkflow workflowId)
                             (loadWorkflowFromNormalizedTables w workflowId);
  match normalizedData with
  | Some data =>
      run emit (Log LInfo (tag requestId +:+ "Using normalized tables for workflow execution: "
                           +:+ workflowId));
      ret data
  | None =>
      run emit (Log LWarn (tag requestId
                  +:+ "No normalized data found, falling back to deployed state for workflow: "
                  +:+ workflowId));
      match deployedState workflow with
      | None =>
          throw (PlainError ("Workflow " +:+ workflowId
                             +:+ " has no deployed state and no normalized data available"))
      | Some state => ret state
      end
  end.

Definition loadVariables (w : World) (requestId : string) (workflow : Workflow)
  : W (list (string * string)) :=
  do userEnv <- await (SelectEnvironment (workflow_userId workflow))
                      (selectEnvironment w (workflow_userId workflow));
  run match userEnv with
      | None =>
          emit (Log LDebug (tag requestId +:+ "No environment record found for user "
                            +:+ workflow_userId workflow
                            +:+ ". Proceeding with empty variables."))
      | Some _ => ret tt
      end;
  EnvVarsSchema_parse w (variables_or_empty userEnv).

(** Everything from the engine call to the return (lines 263-301). *)
Definition runEngine (w : World) (requestId executionId : string) (workflow : Workflow)
    (serializedWorkflow : JSValue) (processedBlockStates : MergedStates)
    (decryptedEnvVars : list (string * string)) (input workflowVariables : JSValue)
  : W JSValue :=
  let workflowId := workflow_id workflow in
  do result <- await (EngineInvoke serializedWorkflow processedBlockStates
                        decryptedEnvVars input workflowVariables workflowId)
                     (execute w serializedWorkflow processedBlockStates decryptedEnvVars
                        input workflowVariables workflowId);
  let executionResult := selectExecutionResult result in
  do success <- get_prop executionResult "success";
  run emit (Log LInfo (tag requestId +:+ "Workflow execution completed: " +:+ workflowId));
  run updateCounters w workflow success;
  do spans <- call (buildTraceSpans w executionResult);
  let enrichedResult := enrich executionResult spans.1 spans.2 in
  run await (PersistLogs workflowId executionId enrichedResult)
            (persistExecutionLogs w workflowId executionId enrichedResult);
  ret executionResult.

(** What lines 91-222 hand to the rest of the section. *)
Record Configuration : Type := {
  cfg_state : WorkflowState;
  cfg_mergedStates : MergedStates;
  cfg_decryptedEnvVars : list (string * string);
  cfg_processedBlockStates : MergedStates
}.

Definition resolveConfiguration (w : World) (requestId : string) (workflow : Workflow)
  : W Configuration :=
  do state <- loadState w requestId workflow;
  do mergedStates <- call (mergeSubblockState w (blocks state));
  do variables <- loadVariables w requestId workflow;
  do currentBlockStates <- resolveBlocks w requestId variables mergedStates [];
  do decryptedEnvVars <- decryptAll w requestId variables [];
  do processedBlockStates <- processBlockStates w requestId currentBlockStates [];
  ret {| cfg_state := state; cfg_mergedStates := mergedStates;
         cfg_decryptedEnvVars := decryptedEnvVars;
         cfg_processedBlockStates := processedBlockStates |}.

Definition guarded (w : World) (requestId executionId : string) (workflow : Workflow)
    (input : JSValue) : W JSValue :=
  let workflowId := workflow_id workflow in
  run emit (Log LInfo (tag requestId +:+ "Starting workflow execution: " +:+ workflowId));
  do cfg <- resolveConfiguration w requestId workflow;
  do workflowVariables <- loadWorkflowVariables w requestId workflow;
  run emit (Log LDebug (tag requestId +:+ "Serializing workflow: " +:+ workflowId));
  do serializedWorkflow <-
    call (serializeWorkflow w (cfg_mergedStates cfg) (edges (cfg_state cfg))
            (loops (cfg_state cfg)) (parallels (cfg_state cfg)));
  runEngine w requestId executionId workflow serializedWorkflow
    (cfg_processedBlockStates cfg) (cfg_decryptedEnvVars cfg) input workflowVariables.

(** The [catch] clause (lines 302-306). *)
Definition onFailure (w : World) (requestId executionId workflowId : string)
    (error : JSError) : W JSValue :=
  run emit (Log LError (tag requestId +:+ "Workflow execution failed: " +:+ workflowId));
  run await (PersistError workflowId executionId error)
            (persistExecutionError w workflowId executionId error);
  throw error.

(** ** [executeWorkflow] (lines 48-310) *)

Definition executionKeyOf (workflowId requestId : string) : string :=
  workflowId +:+ ":" +:+ requestId.

Definition alreadyRunning : JSError := PlainError "Execution is already running".

Definition usageLimitMessage (usageCheck : UsageStatus) : string :=
  match usage_message usageCheck with
  | Some (String c m) => String c m
  | _ => "Usage limit exceeded. Please upgrade your plan to continue."
  end.

(** The [try] block with its [catch] clause. *)
Definition tryCatchSection (w : World) (requestId : string) (workflow : Workflow)
    (input : JSValue) : W JSValue :=
  try_catch (guarded w requestId (uuidv4 w) workflow input)
            (onFailure w requestId (uuidv4 w) (workflow_id workflow)).

(** What runs between the usage check and the [try] (lines 75-88). *)
Definition enterSection (requestId executionKey : string) : list Event :=
  [Log LInfo (tag requestId +:+ "Executing workflow with input:");
   Log LInfo (tag requestId +:+ "Using input directly for workflow:");
   RegistryAdd executionKey].

Definition executeWorkflow (w : World) (runningExecutions : gset string)
    (workflow : Workflow) (requestId : string) (input : JSValue)
  : list Event * Result JSValue * gset string :=
  let workflowId := workflow_id workflow in
  (* executionId is [uuidv4 w], read where it is used *)
  let executionKey := executionKeyOf workflowId requestId in
  if bool_decide (executionKey ∈ runningExecutions) then
    ([Log LWarn (tag requestId +:+ "Execution is already running: " +:+ executionKey)],
     Throw alreadyRunning, runningExecutions)
  else
    match checkServerSideUsageLimits w (workflow_userId workflow) with
    | Rejects msg =>
        ([UsageLookup (workflow_userId workflow)], Throw (PlainError msg), runningExecutions)
    | Returns usageCheck =>
        if isExceeded usageCheck then
          ([UsageLookup (workflow_userId workflow);
            Log LWarn (tag requestId +:+ "User " +:+ workflow_userId workflow
                       +:+ " has exceeded usage limits")],
           Throw (new_UsageLimitError (usageLimitMessage usageCheck)), runningExecutions)
        else
          let '(t, r) := tryCatchSection w requestId workflow input in
          (UsageLookup (workflow_userId workflow) :: enterSection requestId executionKey
           ++ t ++ [RegistryDelete executionKey],
           r,
           ({[executionKey]} ∪ runningExecutions) ∖ {[executionKey]})
    end.

(** ** The HTTP handlers (lines 312-407) *)

(** What [validateWorkflowAccess] resolves to: [{ error }] or [{ workflow }]. *)
Inductive Validation : Type :=
| AccessDenied (message : string) (status : Z)
| AccessGranted (workflow : Workflow).

(** The part of the HTTP layer the handlers call. *)
Record Http : Type := {
  randomUUID : string;
  validateWorkflowAccess : string → Ext Validation;
  request_text : Ext string;
  workflowHasResponseBlock : JSValue → bool
}.

(** The response helpers of [../../utils] and [@/lib/workflows/utils],
    recorded by the call that built the response. *)
Inductive Response : Type :=
| createErrorResponse (message : string) (status : Z) (code : option string)
| createSuccessResponse (data : JSValue)
| createHttpResponseFromBlock (result : JSValue).

Definition status_of (r : Response) : option Z :=
  match r with createErrorResponse _ s _ => Some s | _ => None end.

Definition code_of (r : Response) : option string :=
  match r with createErrorResponse _ _ c => c | _ => None end.

(** The [catch] clause shared by GET and POST. *)
Definition respondToError (requestId id : string) (error : JSError) : list Event * Response :=
  ([Log LError (tag requestId +:+ "Error executing workflow: " +:+ id)],
   match error with
   | UsageLimitError m statusCode =>
       createErrorResponse m statusCode (Some "USAGE_LIMIT_EXCEEDED")
   | PlainError m =>
       createErrorResponse
         (match m with EmptyString => "Failed to execute workflow" | _ => m end)
         500 (Some "EXECUTION_ERROR")
   end).

Definition respondToResult (h : Http) (result : JSValue) : Response :=
  if workflowHasResponseBlock h result
  then createHttpResponseFromBlock result
  else createSuccessResponse result.

Definition requestIdOf (h : Http) : string := String.substring 0 8 (randomUUID h).

(** Runs [executeWorkflow] inside the handler's [try]. *)
Definition executeAndRespond (w : World) (h : Http) (runningExecutions : gset string)
    (id requestId : string) (workflow : Workflow) (input : JSValue) (before : list Event)
  : list Event * Response * gset string :=
  let '(t, r, running') := executeWorkflow w runningExecutions workflow requestId input in
  match r with
  | Ok result => (before ++ t, respondToResult h result, running')
  | Throw error =>
      let '(t', resp) := respondToError requestId id error in
      (before ++ t ++ t', resp, running')
  end.

Definition GET (w : World) (h : Http) (runningExecutions : gset string) (id : string)
  : list Event * Response * gset string :=
  let requestId := requestIdOf h in
  let started := Log LDebug (tag requestId +:+ "GET execution request for workflow: " +:+ id) in
  match validateWorkflowAccess h id with
  | Rejects msg =>
      let '(t', resp) := respondToError requestId id (PlainError msg) in
      (started :: t', resp, runningExecutions)
  | Returns (AccessDenied m status) =>
      ([started; Log LWarn (tag requestId +:+ "Workflow access validation failed: " +:+ m)],
       createErrorResponse m status None, runningExecutions)
  | Returns (AccessGranted workflow) =>
      executeAndRespond w h runningExecutions id requestId workflow JUndefined [started]
  end.

(** The white space and line terminators that [trim] strips and that
    take one byte: U+0009 to U+000D and U+0020. *)
Definition is_space (c : ascii) : bool :=
  let n := nat_of_ascii c in
  (Nat.eqb n 32 || (Nat.leb 9 n && Nat.leb n 13))%bool.

(** U+00A0, the one that takes two bytes (C2 A0). *)
Definition is_space2 (c1 c2 : ascii) : bool :=
  (Nat.eqb (nat_of_ascii c1) 194 && Nat.eqb (nat_of_ascii c2) 160)%bool.

(** Those that take three bytes: U+1680 (E1 9A 80); U+2000 to U+200A,
    U+2028, U+2029 and U+202F (E2 80 80 to 8A, A8, A9, AF); U+205F
    (E2 81 9F); U+3000 (E3 80 80); U+FEFF (EF BB BF). *)
Definition is_space3 (c1 c2 c3 : ascii) : bool :=
  let a := nat_of_ascii c1 in
  let b := nat_of_ascii c2 in
  let c := nat_of_ascii c3 in
  ((Nat.eqb a 225 && Nat.eqb b 154 && Nat.eqb c 128)
   || (Nat.eqb a 226 && Nat.eqb b 128
       && ((Nat.leb 128 c && Nat.leb c 138)
           || Nat.eqb c 168 || Nat.eqb c 169 || Nat.eqb c 175))
   || (Nat.eqb a 226 && Nat.eqb b 129 && Nat.eqb c 159)
   || (Nat.eqb a 227 && Nat.eqb b 128 && Nat.eqb c 128)
   || (Nat.eqb a 239 && Nat.eqb b 187 && Nat.eqb c 191))%bool.

(** [bodyText.trim()] is the empty string: the text consists of white
    space and line terminators only. *)
Fixpoint blank (s : string) : bool :=
  match s with
  | EmptyString => true
  | String c1 r1 =>
      if is_space c1 then blank r1
      else
        match r1 with
        | EmptyString => false
        | String c2 r2 =>
            if is_space2 c1 c2 then blank r2
            else
              match r2 with
              | EmptyString => false
              | String c3 r3 => is_space3 c1 c2 c3 && blank r3
              end
        end
  end.

Definition POST (w : World) (h : Http) (runningExecutions : gset string) (id : string)
  : list Event * Response * gset string :=
  let requestId := requestIdOf h in
  let started := Log LDebug (tag requestId +:+ "POST execution request for workflow: " +:+ id) in
  let failed (t : list Event) (error : JSError) :=
    let '(t', resp) := respondToError requestId id error in
    (started :: t ++ t', resp, runningExecutions) in
  match validateWorkflowAccess h id with
  | Rejects msg => failed [] (PlainError msg)
  | Returns (AccessDenied m status) =>
      ([started; Log LWarn (tag requestId +:+ "Workflow access validation failed: " +:+ m)],
       createErrorResponse m status None, runningExecutions)
  | Returns (AccessGranted workflow) =>
      match request_text h with
      | Rejects msg => failed [] (PlainError msg)
      | Returns bodyText =>
          let raw := Log LInfo (tag requestId +:+ "Raw request body:") in
          let go (t : list Event) (body : JSValue) :=
            match keys_length body with
            | (_, Throw error) => failed (raw :: t) error
            | (_, Ok n) =>
                let input := if (0 <? n)%nat then body else JObj [] in
                executeAndRespond w h runningExecutions id requestId workflow input
                  (started :: raw :: t
                   ++ [Log LInfo (tag requestId +:+ "Input passed to workflow:")])
            end in
          if blank bodyText then
            go [Log LInfo (tag requestId +:+ "No request body provided")] (JObj [])
          else
            match JSON_parse w bodyText with
            | Returns body =>
                go [Log LInfo (tag requestId +:+ "Parsed request body:")] body
            | Rejects _ =>
                ([started; raw; Log LError (tag requestId +:+ "Failed to parse request body:")],
                 createErrorResponse "Invalid JSON in request body" 400 (Some "INVALID_JSON"),
                 runningExecutions)
            end
      end
  end.

(** ** Several calls in flight

    A call runs without interruption between two [await]s and is
    suspended at each of them, so other calls of the same process run in
    between. A task is resumed one segment at a time; the segments of the
    guarded section are read off the log that [guarded] and [onFailure]
    produce, cut after each awaited call. *)

Module Sched.

Definition awaited (e : Event) : bool :=
  match e with
  | Log _ _ | RegistryAdd _ | RegistryDelete _ => false
  | _ => true
  end.

(** The events up to and including the next awaited call, and what is
    left after it; [None] when the code runs to its end without awaiting. *)
Fixpoint next_segment (pending : list Event) : list Event * option (list Event) :=
  match pending with
  | [] => ([], None)
  | e :: rest =>
      if awaited e then ([e], Some rest)
      else let '(seg, remaining) := next_segment rest in (e :: seg, remaining)
  end.

Inductive Pc : Type :=
| Entry
| AwaitUsage
| InTry (pending : list Event) (outcome : Result JSValue)
| Finished (outcome : Result JSValue).

Record Task : Type := {
  workflow : Workflow;
  requestId : string;
  input : JSValue;
  pc : Pc
}.

Definition key (t : Task) : string :=
  executionKeyOf (workflow_id (workflow t)) (requestId t).

Definition at_pc (t : Task) (p : Pc) : Task :=
  {| workflow := workflow t; requestId := requestId t; input := input t; pc := p |}.

(** Leaves the [try]: either suspended at the next await or through
    [finally] to the end. *)
Definition advance (running : gset string) (t : Task) (pending : list Event)
    (outcome : Result JSValue) : list Event * gset string * Task :=
  match next_segment pending with
  | (seg, Some remaining) => (seg, running, at_pc t (InTry remaining outcome))
  | (seg, None) =>
      (seg ++ [RegistryDelete (key t)], running ∖ {[key t]}, at_pc t (Finished outcome))
  end.

(** Runs task [t] from where it is suspended to its next suspension. *)
Definition resume (w : World) (running : gset string) (t : Task)
  : list Event * gset string * Task :=
  let wf := workflow t in
  let rid := requestId t in
  match pc t with
  | Entry =>
      if bool_decide (key t ∈ running) then
        ([Log LWarn (tag rid +:+ "Execution is already running: " +:+ key t)],
         running, at_pc t (Finished (Throw alreadyRunning)))
      else ([UsageLookup (workflow_userId wf)], running, at_pc t AwaitUsage)
  | AwaitUsage =>
      match checkServerSideUsageLimits w (workflow_userId wf) with
      | Rejects msg => ([], running, at_pc t (Finished (Throw (PlainError msg))))
      | Returns usageCheck =>
          if isExceeded usageCheck then
            ([Log LWarn (tag rid +:+ "User " +:+ workflow_userId wf
                         +:+ " has exceeded usage limits")],
             running,
             at_pc t (Finished (Throw (new_UsageLimitError (usageLimitMessage usageCheck)))))
          else
            let '(body, outcome) := tryCatchSection w rid wf (input t) in
            let '(seg, running', t') := advance ({[key t]} ∪ running) t body outcome in
            (enterSection rid (key t) ++ seg, running', t')
      end
  | InTry pending outcome => advance running t pending outcome
  | Finished _ => ([], running, t)
  end.

(** The process: the shared registry, the calls, and what has happened,
    each event with the index of the call it belongs to. *)
Record Config : Type := {
  registry : gset string;
  tasks : list Task;
  history : list (nat * Event)
}.

Definition step (w : World) (c : Config) (i : nat) : Config :=
  match tasks c !! i with
  | None => c
  | Some t =>
      let '(seg, running', t') := resume w (registry c) t in
      {| registry := running';
         tasks := <[i := t']> (tasks c);
         history := history c ++ map (pair i) seg |}
  end.

Definition schedule (w : World) (c : Config) (order : list nat) : Config :=
  fold_left (step w) order c.

Definition call (wf : Workflow) (rid : string) (inp : JSValue) : Task :=
  {| workflow := wf; requestId := rid; input := inp; pc := Entry |}.

Definition in_flight (t : Task) : bool :=
  match pc t with
  | AwaitUsage | InTry _ _ => true
  | Entry | Finished _ => false
  end.

Definition inserted_by (i : nat) (k : string) (e : nat * Event) : bool :=
  match e with
  | (j, RegistryAdd k') => Nat.eqb i j && String.eqb k k'
  | _ => false
  end.

Definition engine_begun_by (i : nat) (e : nat * Event) : bool :=
  match e with
  | (j, EngineInvoke _ _ _ _ _ _) => Nat.eqb i j
  | _ => false
  end.

End Sched.

(** ** The substitution the specification describes

    Follows the specification's TemplateSubstitutor: one pass over the
    value from left to right, every non-overlapping [{{name}}] replaced
    by the plaintext of [name] as it is, the inserted text never scanned
    again; a name that is not in the mapping fails the resolution. *)

Inductive Resolution : Type :=
| Resolved (value : string)
| UnknownVariable (name : string).

Definition resolution_map (f : string → string) (r : Resolution) : Resolution :=
  match r with
  | Resolved v => Resolved (f v)
  | UnknownVariable n => UnknownVariable n
  end.

Fixpoint reference_scan (resolved : list (string * string)) (skip : nat) (s : string)
  : Resolution :=
  match s with
  | EmptyString => Resolved EmptyString
  | String c rest =>
      match skip with
      | S k => reference_scan resolved k rest
      | O =>
          match match_here s with
          | Some name =>
              match lookup_prop name resolved with
              | Some plaintext =>
                  resolution_map (String.append plaintext)
                    (reference_scan resolved (String.length name + 3) rest)
              | None => UnknownVariable name
              end
          | None => resolution_map (String c) (reference_scan resolved 0 rest)
          end
      end
  end.

Definition reference_substitute (resolved : list (string * string)) (value : string)
  : Resolution :=
  reference_scan resolved 0 value.

(** ** A small world to run the route in

    Ciphertexts of the form [enc:<text>] decrypt to [<text>], anything
    else is rejected; only [{}] parses as JSON. *)

Definition demo_decrypt (ciphertext : string) : Ext string :=
  if String.prefix "enc:" ciphertext
  then Returns (String.substring 4 (String.length ciphertext - 4) ciphertext)
  else Rejects "Invalid encrypted value format".

Definition demo_parse (text : string) : Ext JSValue :=
  if String.eqb text "{}" then Returns (JObj []) else Rejects "Unexpected token".

Definition demo_usage (exceeded : bool) : UsageStatus :=
  {| isExceeded := exceeded; currentUsage := 7; limit := 5; usage_message := None |}.

Definition demo_state : WorkflowState :=
  {| blocks := JObj []; edges := JArr []; loops := JObj []; parallels := JObj [] |}.

Definition demo_world (exceeded : bool) (merged : MergedStates) (env : option JSValue)
    (engine : Ext (list (string * JSValue))) (runCounts : Ext unit) : World :=
  {| uuidv4 := "execution-1";
     checkServerSideUsageLimits := fun _ => Returns (demo_usage exceeded);
     loadWorkflowFromNormalizedTables := fun _ => Returns (Some demo_state);
     mergeSubblockState := fun _ => Returns merged;
     selectEnvironment := fun _ => Returns env;
     zodErrorMessage := fun _ => "Expected string";
     decryptSecret := demo_decrypt;
     JSON_parse := demo_parse;
     serializeWorkflow := fun _ _ _ _ => Returns (JObj []);
     execute := fun _ _ _ _ _ _ => engine;
     updateWorkflowRunCounts := fun _ => runCounts;
     updateUserStats := fun _ => Returns tt;
     buildTraceSpans := fun _ => Returns (JArr [], JNum 0);
     persistExecutionLogs := fun _ _ _ => Returns tt;
     persistExecutionError := fun _ _ _ => Returns tt |}.

(** The same world with a persistence sink that rejects the success log. *)
Definition with_failing_log_sink (w : World) : World :=
  {| uuidv4 := uuidv4 w;
     checkServerSideUsageLimits := checkServerSideUsageLimits w;
     loadWorkflowFromNormalizedTables := loadWorkflowFromNormalizedTables w;
     mergeSubblockState := mergeSubblockState w;
     selectEnvironment := selectEnvironment w;
     zodErrorMessage := zodErrorMessage w;
     decryptSecret := decryptSecret w;
     JSON_parse := JSON_parse w;
     serializeWorkflow := serializeWorkflow w;
     execute := execute w;
     updateWorkflowRunCounts := updateWorkflowRunCounts w;
     updateUserStats := updateUserStats w;
     buildTraceSpans := buildTraceSpans w;
     persistExecutionLogs := fun _ _ _ => Rejects "log store unavailable";
     persistExecutionError := persistExecutionError w |}.

(** The same world with a persistence sink that rejects the failure report. *)
Definition with_failing_error_sink (w : World) : World :=
  {| uuidv4 := uuidv4 w;
     checkServerSideUsageLimits := checkServerSideUsageLimits w;
     loadWorkflowFromNormalizedTables := loadWorkflowFromNormalizedTables w;
     mergeSubblockState := mergeSubblockState w;
     selectEnvironment := selectEnvironment w;
     zodErrorMessage := zodErrorMessage w;
     decryptSecret := decryptSecret w;
     JSON_parse := JSON_parse w;
     serializeWorkflow := serializeWorkflow w;
     execute := execute w;
     updateWorkflowRunCounts := updateWorkflowRunCounts w;
     updateUserStats := updateUserStats w;
     buildTraceSpans := buildTraceSpans w;
     persistExecutionLogs := persistExecutionLogs w;
     persistExecutionError := fun _ _ _ => Rejects "error store unavailable" |}.

Definition demo_workflow (vars : JSValue) : Workflow :=
  {| workflow_id := "wf"; workflow_userId := "user"; deployedState := None;
     workflow_variables := vars |}.

Definition demo_success : list (string * JSValue) :=
  [("success", JBool true); ("output", JObj [])].

Definition demo_http (wf : Workflow) (body : string) : Http :=
  {| randomUUID := "0a1b2c3d-0000-4000-8000-000000000000";
     validateWorkflowAccess := fun _ => Returns (AccessGranted wf);
     request_text := Returns body;
     workflowHasResponseBlock := fun _ => false |}.

(** ** Reading a run *)

Definition trace_of {A B} (r : list Event * A * B) : list Event := r.1.1.
Definition outcome_of {A B} (r : list Event * A * B) : A := r.1.2.
Definition registry_after {A B} (r : list Event * A * B) : B := r.2.

Definition is_run_count (e : Event) : bool :=
  match e with UpdateRunCounts _ => true | _ => false end.

Definition is_api_count (e : Event) : bool :=
  match e with UpdateUserStats _ => true | _ => false end.

Definition is_engine (e : Event) : bool :=
  match e with EngineInvoke _ _ _ _ _ _ => true | _ => false end.

Definition is_persist_error (e : Event) : bool :=
  match e with PersistError _ _ _ => true | _ => false end.

(** Calls that only happen once a request is past admission. *)
Definition is_execution_work (e : Event) : bool :=
  match e with
  | LoadWorkflow _ | SelectEnvironment _ | Decrypt _ | EngineInvoke _ _ _ _ _ _
  | UpdateRunCounts _ | UpdateUserStats _ | PersistLogs _ _ _ | PersistError _ _ _
  | RegistryAdd _ | RegistryDelete _ => true
  | Log _ _ | UsageLookup _ => false
  end.

(** The engine call and the two counters. *)
Definition is_bookkeeping (e : Event) : bool :=
  is_engine e || is_run_count e || is_api_count e.

Definition count (p : Event → bool) (t : list Event) : nat :=
  List.length (List.filter p t).

(** The engine call [e] resolved with a result whose [success] is truthy. *)
Definition engine_succeeded (w : World) (e : Event) : bool :=
  match e with
  | EngineInvoke ser bs env inp wv wid =>
      match execute w ser bs env inp wv wid with
      | Returns result =>
          match get_prop (selectExecutionResult result) "success" with
          | (_, Ok s) => truthy s
          | (_, Throw _) => false
          end
      | Rejects _ => false
      end
  | _ => false
  end.

(** The plaintext of every stored variable, when all of them decrypt. *)
Fixpoint resolve_all (w : World) (variables : list (string * string))
  : option (list (string * string)) :=
  match variables with
  | [] => Some []
  | (k, enc) :: rest =>
      match decryptSecret w enc, resolve_all w rest with
      | Returns p, Some ps => Some ((k, p) :: ps)
      | _, _ => None
      end
  end.

(** [silent p m]: running [m] performs no event of class [p]. *)
Definition silent {A} (p : Event → bool) (m : W A) : Prop :=
  List.filter p m.1 = [].

(** What an engine call [e] of workflow [wf] entails for the counters. *)
Definition bookkeeping_of (w : World) (wf : Workflow) (e : Event) : list Event :=
  e :: if engine_succeeded w e then
         UpdateRunCounts (workflow_id wf)
           :: match updateWorkflowRunCounts w (workflow_id wf) with
              | Returns _ => [UpdateUserStats (workflow_userId wf)]
              | Rejects _ => []
              end
       else [].

Fixpoint no_dollar (s : string) : bool :=
  match s with
  | EmptyString => true
  | String c rest => negb (Ascii.eqb c "$") && no_dollar rest
  end.

(** ** Plaintexts on which the substitution is exact *)

Fixpoint no_close (s : string) : bool :=
  match s with
  | EmptyString => true
  | String c rest => negb (Ascii.eqb c "}") && no_close rest
  end.

Definition plain_char (c : ascii) : bool :=
  negb (Ascii.eqb c "{") && negb (Ascii.eqb c "}") && negb (Ascii.eqb c "$").

Fixpoint plain_text (s : string) : bool :=
  match s with
  | EmptyString => true
  | String c rest => plain_char c && plain_text rest
  end.

(** Not empty, and free of braces and dollar signs. *)
Definition clean (p : string) : bool :=
  negb (String.eqb p EmptyString) && plain_text p.

(** No placeholder starts inside [out] when [s] follows it. *)
Fixpoint safe (out s : string) : Prop :=
  match out with
  | EmptyString => True
  | String c out' => match_here (out +:+ s) = None ∧ safe out' s
  end.

Definition not_found (name : string) : JSError :=
  PlainError ("Environment variable " +:+ quoted name +:+ " was not found").

(** What the code should return when the reference resolution of the
    rest of the value is [r] and [out] has been produced so far. *)
Definition expected (out : string) (r : Resolution) : Result string :=
  match r with
  | Resolved v => Ok (out +:+ v)
  | UnknownVariable n => Throw (not_found n)
  end.

(** [starts_with pre m]: the log of [m] begins with [pre]. *)
Definition starts_with {A} (pre : list Event) (m : W A) : Prop :=
  ∃ rest, m.1 = pre ++ rest.

(** ** More ways of reading a run *)

Definition is_log (e : Event) : bool :=
  match e with Log _ _ => true | _ => false end.

Definition is_usage_limit (e : JSError) : bool :=
  match e with UsageLimitError _ _ => true | PlainError _ => false end.

(** [plain m]: whatever [m] throws is a plain [Error]. *)
Definition plain {A} (m : W A) : Prop :=
  ∀ e, m.2 = Throw e → is_usage_limit e = false.

(** Calls that need the workflow definition. *)
Definition needs_definition (e : Event) : bool :=
  match e with
  | SelectEnvironment _ | Decrypt _ | EngineInvoke _ _ _ _ _ _
  | UpdateRunCounts _ | UpdateUserStats _ | PersistLogs _ _ _ => true
  | _ => false
  end.

(** The decryption call the match [m] leads to. *)
Definition decryption_of (vars : list (string * string)) (m : string) : Event :=
  Decrypt (default EmptyString (lookup_prop (slice_2_m2 m) vars)).

(** The name of the match [m] has no ciphertext, or an empty one. *)
Definition not_stored (vars : list (string * string)) (m : string) : Prop :=
  lookup_prop (slice_2_m2 m) vars = None ∨ lookup_prop (slice_2_m2 m) vars = Some EmptyString.

(** Every match of [ms] has a stored, non-empty ciphertext that decrypts. *)
Definition all_decrypt (w : World) (vars : list (string * string)) (ms : list string) : Prop :=
  Forall (λ m, ∃ c enc p, lookup_prop (slice_2_m2 m) vars = Some (String c enc)
                          ∧ decryptSecret w (String c enc) = Returns p) ms.

(** The answers the handlers build by themselves, by status and code. *)
Definition own_answer (r : Response) : bool :=
  match r with
  | createErrorResponse m 402 (Some code) => String.eqb code "USAGE_LIMIT_EXCEEDED"
  | createErrorResponse m 500 (Some code) =>
      String.eqb code "EXECUTION_ERROR" && negb (String.eqb m EmptyString)
  | createErrorResponse m 400 (Some code) =>
      String.eqb code "INVALID_JSON" && String.eqb m "Invalid JSON in request body"
  | createErrorResponse _ _ _ => false
  | createSuccessResponse _ | createHttpResponseFromBlock _ => true
  end.

Fixpoint no_colon (s : string) : bool :=
  match s with
  | EmptyString => true
  | String c rest => negb (Ascii.eqb c ":") && no_colon rest
  end.

(** ** Calls inside their guarded section *)

Definition in_try (t : Sched.Task) : bool :=
  match Sched.pc t with Sched.InTry _ _ => true | _ => false end.

(** The keys of [registry c] that were not there at the start are held
    by a call inside its guarded section. *)
Definition accounted (R0 : gset string) (c : Sched.Config) : Prop :=
  ∀ k, k ∈ Sched.registry c →
    k ∈ R0 ∨ ∃ i t, Sched.tasks c !! i = Some t ∧ in_try t = true ∧ Sched.key t = k.

(** ** Block states, value by value *)

(** What lines 202-218 make of one block state. *)
Definition parseResponseFormat (w : World) (blockState : list (string * JSValue))
  : list (string * JSValue) :=
  match lookup_prop "responseFormat" blockState with
  | Some (JStr (String c text)) =>
      match JSON_parse w (String c text) with
      | Returns parsed => set_prop "responseFormat" parsed blockState
      | Rejects _ => blockState
      end
  | _ => blockState
  end.

(** A value the substitution has nothing to do with. *)
Definition no_placeholder (v : JSValue) : bool :=
  match v with
  | JStr s => match match_all 0 s with [] => true | _ => false end
  | _ => true
  end.

(** [kv'] is the sub-block [kv] after substitution. *)
Definition substituted (w : World) (rid : string) (vars : list (string * string))
    (kv kv' : string * JSValue) : Prop :=
  kv.1 = kv'.1 ∧ (substituteValue w rid vars kv.2).2 = Ok kv'.2.

Definition substituted_block (w : World) (rid : string) (vars : list (string * string))
    (b b' : string * list (string * JSValue)) : Prop :=
  b.1 = b'.1 ∧ Forall2 (substituted w rid vars) b.2 b'.2.

(** ** Variations of a world and of a workflow row *)

Definition with_JSON_parse (w : World) (parse : string → Ext JSValue) : World :=
  {| uuidv4 := uuidv4 w;
     checkServerSideUsageLimits := checkServerSideUsageLimits w;
     loadWorkflowFromNormalizedTables := loadWorkflowFromNormalizedTables w;
     mergeSubblockState := mergeSubblockState w;
     selectEnvironment := selectEnvironment w;
     zodErrorMessage := zodErrorMessage w;
     decryptSecret := decryptSecret w;
     JSON_parse := parse;
     serializeWorkflow := serializeWorkflow w;
     execute := execute w;
     updateWorkflowRunCounts := updateWorkflowRunCounts w;
     updateUserStats := updateUserStats w;
     buildTraceSpans := buildTraceSpans w;
     persistExecutionLogs := persistExecutionLogs w;
     persistExecutionError := persistExecutionError w |}.

Definition with_normalized_tables (w : World)
    (load : string → Ext (option WorkflowState)) : World :=
  {| uuidv4 := uuidv4 w;
     checkServerSideUsageLimits := checkServerSideUsageLimits w;
     loadWorkflowFromNormalizedTables := load;
     mergeSubblockState := mergeSubblockState w;
     selectEnvironment := selectEnvironment w;
     zodErrorMessage := zodErrorMessage w;
     decryptSecret := decryptSecret w;
     JSON_parse := JSON_parse w;
     serializeWorkflow := serializeWorkflow w;
     execute := execute w;
     updateWorkflowRunCounts := updateWorkflowRunCounts w;
     updateUserStats := updateUserStats w;
     buildTraceSpans := buildTraceSpans w;
     persistExecutionLogs := persistExecutionLogs w;
     persistExecutionError := persistExecutionError w |}.

Definition with_deployedState (wf : Workflow) (state : option WorkflowState) : Workflow :=
  {| workflow_id := workflow_id wf; workflow_userId := workflow_userId wf;
     deployedState := state; workflow_variables := workflow_variables wf |}.

(* ================================================================== *)
(** * Properties *)

(** ** The monad and its log *)

Arguments bind : simpl never.
Arguments try_catch : simpl never.
Arguments emit : simpl never.
Arguments await : simpl never.
Arguments call : simpl never.
Arguments ret : simpl never.
Arguments throw : simpl never.

Lemma bind_ok {A B} (m : W A) (f : A → W B) t a :
  m = (t, Ok a) → bind m f = (t ++ (f a).1, (f a).2).
Proof. intros ->. unfold bind. by destruct (f a). Qed.

Lemma bind_throw {A B} (m : W A) (f : A → W B) t e :
  m = (t, Throw e) → bind m f = (t, Throw e).
Proof. by intros ->. Qed.

Lemma bind_trace {A B} (m : W A) (f : A → W B) :
  (bind m f).1 = m.1 ∨ ∃ a, m.2 = Ok a ∧ (bind m f).1 = m.1 ++ (f a).1.
Proof.
  unfold bind. destruct m as [t [a|e]]; simpl.
  - right. exists a. split; [done|]. by destruct (f a).
  - by left.
Qed.

Lemma silent_ret {A} p (a : A) : silent p (ret a).
Proof. done. Qed.

Lemma silent_throw {A} p e : silent p (@throw A e).
Proof. done. Qed.

Lemma silent_call {A} p (r : Ext A) : silent p (call r).
Proof. by destruct r. Qed.

Lemma silent_emit p e : p e = false → silent p (emit e).
Proof. unfold silent, emit; simpl. by intros ->. Qed.

Lemma silent_await {A} p e (r : Ext A) : p e = false → silent p (await e r).
Proof. unfold silent, await. destruct r; simpl; by intros ->. Qed.

Lemma silent_bind {A B} p (m : W A) (f : A → W B) :
  silent p m → (∀ a, silent p (f a)) → silent p (bind m f).
Proof.
  unfold silent, bind. intros Hm Hf. destruct m as [t [a|e]]; simpl in *; [|done].
  specialize (Hf a). destruct (f a) as [t' r]; simpl in *.
  by rewrite List.filter_app, Hm, Hf.
Qed.

Lemma silent_try_catch {A} p (m : W A) (h : JSError → W A) :
  silent p m → (∀ e, silent p (h e)) → silent p (try_catch m h).
Proof.
  unfold silent, try_catch. intros Hm Hh. destruct m as [t [a|e]]; simpl in *; [done|].
  specialize (Hh e). destruct (h e) as [t' r]; simpl in *.
  by rewrite List.filter_app, Hm, Hh.
Qed.

(** ** What the stages before the engine do

    Lines 91-244 only log, load the workflow, read the environment row
    and decrypt. *)

Section Silence.

Variable p : Event → bool.
Hypothesis p_log : ∀ lvl msg, p (Log lvl msg) = false.
Hypothesis p_load : ∀ wid, p (LoadWorkflow wid) = false.
Hypothesis p_env : ∀ uid, p (SelectEnvironment uid) = false.
Hypothesis p_decrypt : ∀ enc, p (Decrypt enc) = false.

(** Splits a goal [silent p m] along the structure of [m]. *)
Ltac silence :=
  repeat first
    [ apply silent_ret | apply silent_throw | apply silent_call
    | apply silent_emit; first [apply p_log | apply p_load | apply p_env | apply p_decrypt]
    | apply silent_await; first [apply p_log | apply p_load | apply p_env | apply p_decrypt]
    | apply silent_bind; [|intros ?]
    | apply silent_try_catch; [|intros ?] ].

Lemma silent_replaceMatches w rid vars ms value :
  silent p (replaceMatches w rid vars ms value).
Proof.
  revert value. induction ms as [|m ms IH]; intros value; simpl; [silence|].
  destruct (lookup_prop _ vars) as [[|c enc]|]; silence. apply IH.
Qed.

Lemma silent_substituteValue w rid vars v : silent p (substituteValue w rid vars v).
Proof.
  destruct v; simpl; silence.
  destruct (_ && _); silence.
  destruct (matchPlaceholders s); silence. apply silent_replaceMatches.
Qed.

Lemma silent_resolveSubBlocks w rid vars entries acc :
  silent p (resolveSubBlocks w rid vars entries acc).
Proof.
  revert acc. induction entries as [|[k v] rest IH]; intros acc; simpl; silence.
  - apply silent_substituteValue.
  - apply IH.
Qed.

Lemma silent_resolveBlocks w rid vars entries acc :
  silent p (resolveBlocks w rid vars entries acc).
Proof.
  revert acc. induction entries as [|[k v] rest IH]; intros acc; simpl; silence.
  - apply silent_resolveSubBlocks.
  - apply IH.
Qed.

Lemma silent_decryptAll w rid entries acc : silent p (decryptAll w rid entries acc).
Proof.
  revert acc. induction entries as [|[k v] rest IH]; intros acc; simpl; silence.
  apply IH.
Qed.

Lemma silent_processBlockStates w rid entries acc :
  silent p (processBlockStates w rid entries acc).
Proof.
  revert acc. induction entries as [|[k v] rest IH]; intros acc; simpl; silence.
  destruct (lookup_prop _ v) as [[| | | |[|c text]| |]|]; try apply IH.
  silence. destruct (JSON_parse w _); silence; apply IH.
Qed.

Lemma silent_loadState w rid wf : silent p (loadState w rid wf).
Proof.
  unfold loadState. silence.
  match goal with a : option WorkflowState |- _ => destruct a end; silence.
  destruct (deployedState wf); silence.
Qed.

Lemma silent_loadVariables w rid wf : silent p (loadVariables w rid wf).
Proof.
  unfold loadVariables. silence.
  - match goal with a : option JSValue |- _ => destruct a end; silence.
  - unfold EnvVarsSchema_parse.
    destruct (variables_or_empty _); silence.
    destruct (record_of_strings _); silence.
Qed.

Lemma silent_resolveConfiguration w rid wf : silent p (resolveConfiguration w rid wf).
Proof.
  unfold resolveConfiguration.
  apply silent_bind; [apply silent_loadState|intros state].
  apply silent_bind; [apply silent_call|intros merged].
  apply silent_bind; [apply silent_loadVariables|intros vars].
  apply silent_bind; [apply silent_resolveBlocks|intros current].
  apply silent_bind; [apply silent_decryptAll|intros decrypted].
  apply silent_bind; [apply silent_processBlockStates|intros processed].
  apply silent_ret.
Qed.

Lemma silent_loadWorkflowVariables w rid wf : silent p (loadWorkflowVariables w rid wf).
Proof.
  unfold loadWorkflowVariables.
  destruct (truthy _); silence.
  destruct (workflow_variables wf); try (destruct (keys_length _) as [? [?|?]]; silence).
  destruct (JSON_parse w _); silence.
  destruct (keys_length _) as [? [?|?]]; silence.
Qed.

End Silence.

(** ** Admission and release *)

Lemma executeWorkflow_admitted w R wf rid input :
  executionKeyOf (workflow_id wf) rid ∉ R →
  ∀ u, checkServerSideUsageLimits w (workflow_userId wf) = Returns u →
  isExceeded u = false →
  executeWorkflow w R wf rid input =
    (UsageLookup (workflow_userId wf)
       :: enterSection rid (executionKeyOf (workflow_id wf) rid)
       ++ (tryCatchSection w rid wf input).1
       ++ [RegistryDelete (executionKeyOf (workflow_id wf) rid)],
     (tryCatchSection w rid wf input).2,
     ({[executionKeyOf (workflow_id wf) rid]} ∪ R)
       ∖ {[executionKeyOf (workflow_id wf) rid]}).
Proof.
  intros Hk u Hu Hex. unfold executeWorkflow.
  rewrite bool_decide_eq_false_2 by done. rewrite Hu, Hex.
  by destruct (tryCatchSection w rid wf input).
Qed.

Lemma executeWorkflow_duplicate w R wf rid input :
  executionKeyOf (workflow_id wf) rid ∈ R →
  executeWorkflow w R wf rid input =
    ([Log LWarn (tag rid +:+ "Execution is already running: "
                 +:+ executionKeyOf (workflow_id wf) rid)],
     Throw alreadyRunning, R).
Proof. intros Hk. unfold executeWorkflow. by rewrite bool_decide_eq_true_2. Qed.

Lemma executeWorkflow_exceeded w R wf rid input u :
  executionKeyOf (workflow_id wf) rid ∉ R →
  checkServerSideUsageLimits w (workflow_userId wf) = Returns u →
  isExceeded u = true →
  executeWorkflow w R wf rid input =
    ([UsageLookup (workflow_userId wf);
      Log LWarn (tag rid +:+ "User " +:+ workflow_userId wf +:+ " has exceeded usage limits")],
     Throw (new_UsageLimitError (usageLimitMessage u)), R).
Proof.
  intros Hk Hu Hex. unfold executeWorkflow.
  rewrite bool_decide_eq_false_2 by done. by rewrite Hu, Hex.
Qed.

(** A run whose log shows the insertion went through both checks. *)
Lemma inserted_inv w R wf rid input k :
  In (RegistryAdd k) (trace_of (executeWorkflow w R wf rid input)) →
  (executionKeyOf (workflow_id wf) rid ∉ R) ∧
  ∃ u, checkServerSideUsageLimits w (workflow_userId wf) = Returns u ∧
       isExceeded u = false.
Proof.
  unfold executeWorkflow, trace_of. case_bool_decide as Hk; simpl.
  - by intros [?|[]].
  - destruct (checkServerSideUsageLimits w _) as [u|msg] eqn:Hu; simpl.
    + destruct (isExceeded u) eqn:Hex; simpl.
      * by intros [?|[?|[]]].
      * intros _. split; [done|]. by exists u.
    + by intros [?|[]].
Qed.

(** C2. A call that inserted its key has removed it when it completes,
    whatever the outcome (the section returned, a collaborator rejected,
    the failure report itself rejected); the same request, retried at
    once, passes the duplicate check and, with the same answer from the
    usage monitor, inserts its key again. *)
Theorem C2_release_on_every_exit (w : World) (R : gset string) (wf : Workflow)
    (rid : string) (input : JSValue) :
  In (RegistryAdd (executionKeyOf (workflow_id wf) rid))
     (trace_of (executeWorkflow w R wf rid input)) →
  In (RegistryDelete (executionKeyOf (workflow_id wf) rid))
     (trace_of (executeWorkflow w R wf rid input)) ∧
  (executionKeyOf (workflow_id wf) rid ∉ registry_after (executeWorkflow w R wf rid input)) ∧
  In (RegistryAdd (executionKeyOf (workflow_id wf) rid))
     (trace_of (executeWorkflow w (registry_after (executeWorkflow w R wf rid input))
                  wf rid input)) ∧
  ∀ (w' : World) (input' : JSValue),
    In (UsageLookup (workflow_userId wf))
       (trace_of (executeWorkflow w' (registry_after (executeWorkflow w R wf rid input))
                    wf rid input')).
Proof.
  intros Hadd. destruct (inserted_inv _ _ _ _ _ _ Hadd) as (Hk & u & Hu & Hex).
  rewrite (executeWorkflow_admitted w R wf rid input Hk u Hu Hex).
  unfold trace_of, registry_after; simpl.
  set (k := executionKeyOf (workflow_id wf) rid).
  assert (Hout : k ∉ ({[k]} ∪ R) ∖ {[k]}).
  { intros [_ Hn]%elem_of_difference. by apply Hn, elem_of_singleton. }
  split; [|split; [done|split]].
  - right. do 3 right. apply in_or_app. right. by left.
  - rewrite (executeWorkflow_admitted w _ wf rid input Hout u Hu Hex). simpl.
    do 3 right. by left.
  - intros w' input'. unfold executeWorkflow. fold k.
    rewrite bool_decide_eq_false_2 by done.
    destruct (checkServerSideUsageLimits w' _) as [u'|msg]; [|by left].
    destruct (isExceeded u'); [by left|].
    destruct (tryCatchSection w' rid wf input'). by left.
Qed.

(** Finds the event in a computed log. *)
Ltac find_event := repeat first [left; reflexivity | right].

Lemma C2_release_on_every_exit_witness :
  In (RegistryAdd "wf:req")
     (trace_of (executeWorkflow (demo_world false [] None (Rejects "engine down") (Returns tt))
                  ∅ (demo_workflow JUndefined) "req" JUndefined)) ∧
  ("wf:req" ∉ registry_after
     (executeWorkflow (demo_world false [] None (Rejects "engine down") (Returns tt))
        ∅ (demo_workflow JUndefined) "req" JUndefined)).
Proof.
  assert (H : In (RegistryAdd (executionKeyOf (workflow_id (demo_workflow JUndefined)) "req"))
     (trace_of (executeWorkflow (demo_world false [] None (Rejects "engine down") (Returns tt))
                  ∅ (demo_workflow JUndefined) "req" JUndefined))).
  { vm_compute. find_event. }
  split; [exact H|].
  exact (proj1 (proj2 (C2_release_on_every_exit _ _ _ _ _ H))).
Defined.

(** ** The first suspension inside the guarded section *)

Lemma starts_bind {A B} pre (m : W A) (f : A → W B) :
  starts_with pre m → starts_with pre (bind m f).
Proof.
  intros [rest Hm]. unfold starts_with.
  destruct (bind_trace m f) as [H|(a & _ & H)]; rewrite H.
  - by exists rest.
  - exists (rest ++ (f a).1). by rewrite Hm, <- app_assoc.
Qed.

Lemma starts_try_catch {A} pre (m : W A) h :
  starts_with pre m → starts_with pre (try_catch m h).
Proof.
  intros [rest Hm]. unfold try_catch. destruct m as [t [a|e]]; simpl in *.
  - by exists rest.
  - destruct (h e) as [t' r]; simpl. exists (rest ++ t'). by rewrite Hm, <- app_assoc.
Qed.

Lemma starts_emit_bind {A} pre e (k : unit → W A) :
  starts_with pre (k tt) → starts_with (e :: pre) (bind (emit e) k).
Proof.
  intros [rest Hk]. unfold bind, emit. destruct (k tt) as [t r]; simpl in *.
  exists rest. by rewrite Hk.
Qed.

Lemma starts_await_bind {A B} e (r : Ext A) (k : A → W B) :
  starts_with [e] (bind (await e r) k).
Proof.
  unfold bind, await. destruct r as [a|msg]; simpl.
  - destruct (k a) as [t r]. by exists t.
  - by exists [].
Qed.

Lemma tryCatchSection_first_await w rid wf input :
  ∃ l1 l2 rest,
    (tryCatchSection w rid wf input).1
    = Log LInfo l1 :: Log LDebug l2 :: LoadWorkflow (workflow_id wf) :: rest.
Proof.
  assert (H : starts_with
    [Log LInfo (tag rid +:+ "Starting workflow execution: " +:+ workflow_id wf);
     Log LDebug (tag rid +:+ "Loading workflow " +:+ workflow_id wf
                 +:+ " from normalized tables");
     LoadWorkflow (workflow_id wf)] (tryCatchSection w rid wf input)).
  { apply starts_try_catch. unfold guarded. apply starts_emit_bind.
    apply starts_bind. unfold resolveConfiguration. apply starts_bind.
    unfold loadState. apply starts_emit_bind. apply starts_await_bind. }
  destruct H as [rest H]. simpl in H. do 3 eexists. exact H.
Qed.

(** ** Two calls with the same key *)

(** A call that starts while the key is registered is turned away and
    leaves the registry alone. *)
Lemma Sched_entry_rejects_registered w R t :
  Sched.pc t = Sched.Entry → Sched.key t ∈ R →
  ∃ seg, Sched.resume w R t = (seg, R, Sched.at_pc t (Sched.Finished (Throw alreadyRunning))).
Proof.
  intros Hpc Hk. unfold Sched.resume. rewrite Hpc, bool_decide_eq_true_2 by done. eauto.
Qed.

(** Whenever a call leaves the guarded section, its key is gone. *)
Lemma Sched_finish_releases w R t pending outcome seg R' t' r :
  Sched.pc t = Sched.InTry pending outcome →
  Sched.resume w R t = (seg, R', t') →
  Sched.pc t' = Sched.Finished r →
  (Sched.key t ∉ R') ∧ In (RegistryDelete (Sched.key t)) seg.
Proof.
  intros Hpc. unfold Sched.resume, Sched.advance. rewrite Hpc.
  destruct (Sched.next_segment pending) as [s [remaining|]]; intros [= <- <- <-]; [done|].
  intros _. split.
  - intros [_ Hn]%elem_of_difference. by apply Hn, elem_of_singleton.
  - apply in_or_app. right. by left.
Qed.

(** One segment of a call that finds its key free and suspends at the
    usage lookup. *)
Lemma Sched_step_entry w c i t :
  Sched.tasks c !! i = Some t → Sched.pc t = Sched.Entry →
  Sched.key t ∉ Sched.registry c →
  Sched.step w c i =
    {| Sched.registry := Sched.registry c;
       Sched.tasks := <[i := Sched.at_pc t Sched.AwaitUsage]> (Sched.tasks c);
       Sched.history :=
         Sched.history c ++ [(i, UsageLookup (workflow_userId (Sched.workflow t)))] |}.
Proof.
  intros Ht Hpc Hk. unfold Sched.step, Sched.resume.
  by rewrite Ht, Hpc, bool_decide_eq_false_2.
Qed.

(** The segment after the usage lookup: the key is inserted whatever the
    registry holds by now, and the call suspends at the workflow load. *)
Lemma Sched_step_usage_ok w c i t u :
  Sched.tasks c !! i = Some t → Sched.pc t = Sched.AwaitUsage →
  checkServerSideUsageLimits w (workflow_userId (Sched.workflow t)) = Returns u →
  isExceeded u = false →
  ∃ l1 l2 rest out,
    Sched.step w c i =
      {| Sched.registry := {[Sched.key t]} ∪ Sched.registry c;
         Sched.tasks := <[i := Sched.at_pc t (Sched.InTry rest out)]> (Sched.tasks c);
         Sched.history :=
           Sched.history c
           ++ map (pair i)
                (enterSection (Sched.requestId t) (Sched.key t)
                 ++ [Log LInfo l1; Log LDebug l2;
                     LoadWorkflow (workflow_id (Sched.workflow t))]) |}.
Proof.
  intros Ht Hpc Hu Hex.
  destruct (tryCatchSection_first_await w (Sched.requestId t) (Sched.workflow t)
              (Sched.input t)) as (l1 & l2 & rest & H).
  unfold Sched.step, Sched.resume. rewrite Ht, Hpc, Hu, Hex.
  destruct (tryCatchSection w _ _ _) as [body out]; simpl in H; subst body.
  exists l1, l2, rest, out. reflexivity.
Qed.

(** C1. The membership test (line 57) and the insertion (line 88) are
    separated by the suspension at the usage lookup (line 63): when two
    calls with the same workflow and request identifiers are started
    before either is resumed, both pass the test, both insert the key and
    both are inside the guarded section at the same time; neither is
    turned away. *)
Theorem C1_duplicate_calls_both_admitted (w : World) (R : gset string) (wf : Workflow)
    (rid : string) (input1 input2 : JSValue) (u : UsageStatus) :
  executionKeyOf (workflow_id wf) rid ∉ R →
  checkServerSideUsageLimits w (workflow_userId wf) = Returns u →
  isExceeded u = false →
  ∃ t1 t2 h,
    Sched.schedule w
      {| Sched.registry := R;
         Sched.tasks := [Sched.call wf rid input1; Sched.call wf rid input2];
         Sched.history := [] |}
      [0; 1; 0; 1]%nat
    = {| Sched.registry := {[executionKeyOf (workflow_id wf) rid]} ∪ R;
         Sched.tasks := [t1; t2];
         Sched.history := h |} ∧
    Sched.in_flight t1 = true ∧ Sched.in_flight t2 = true ∧
    existsb (Sched.inserted_by 0 (executionKeyOf (workflow_id wf) rid)) h = true ∧
    existsb (Sched.inserted_by 1 (executionKeyOf (workflow_id wf) rid)) h = true.
Proof.
  intros Hk Hu Hex. unfold Sched.schedule. cbn [fold_left].
  repeat match goal with
  | |- context [Sched.step w (Sched.Build_Config ?r ?ts ?h) ?i] =>
      first
        [ rewrite (Sched_step_entry w (Sched.Build_Config r ts h) i _ eq_refl eq_refl Hk)
        | let E := fresh "E" in
          destruct (Sched_step_usage_ok w (Sched.Build_Config r ts h) i _ u
                      eq_refl eq_refl Hu Hex) as (? & ? & ? & ? & E);
          rewrite E; clear E ];
      cbn [Sched.registry Sched.tasks Sched.history]
  end.
  do 3 eexists. split.
  - f_equal. unfold Sched.key, Sched.at_pc; simpl.
    by rewrite (assoc_L (∪)), (idemp_L (∪)).
  - unfold Sched.key, Sched.at_pc, Sched.call; simpl.
    rewrite !String.eqb_refl. by simpl.
Qed.

Lemma C1_duplicate_calls_both_admitted_witness :
  ∃ t1 t2 h,
    Sched.schedule (demo_world false [] None (Returns demo_success) (Returns tt))
      {| Sched.registry := ∅;
         Sched.tasks := [Sched.call (demo_workflow JUndefined) "req" JUndefined;
                         Sched.call (demo_workflow JUndefined) "req" JUndefined];
         Sched.history := [] |}
      [0; 1; 0; 1]%nat
    = {| Sched.registry := {["wf:req"]} ∪ ∅; Sched.tasks := [t1; t2]; Sched.history := h |} ∧
    Sched.in_flight t1 = true ∧ Sched.in_flight t2 = true ∧
    existsb (Sched.inserted_by 0 "wf:req") h = true ∧
    existsb (Sched.inserted_by 1 "wf:req") h = true.
Proof.
  apply (C1_duplicate_calls_both_admitted
           (demo_world false [] None (Returns demo_success) (Returns tt))
           ∅ (demo_workflow JUndefined) "req" JUndefined JUndefined (demo_usage false)).
  - vm_compute. intros H. inversion H.
  - reflexivity.
  - reflexivity.
Defined.

(** Run on: both duplicate calls invoke the engine, and the call that
    completes first removes the key while the other is still running. *)
Example duplicate_calls_reach_the_engine :
  let w := demo_world false [] None (Returns demo_success) (Returns tt) in
  let start :=
    {| Sched.registry := ∅;
       Sched.tasks := [Sched.call (demo_workflow JUndefined) "req" JUndefined;
                       Sched.call (demo_workflow JUndefined) "req" JUndefined];
       Sched.history := [] |} in
  let both := Sched.schedule w start [0; 1; 0; 1; 0; 1; 0; 1]%nat in
  let later := Sched.schedule w both [0; 0; 0; 0; 0]%nat in
  existsb (Sched.engine_begun_by 0) (Sched.history both) = true ∧
  existsb (Sched.engine_begun_by 1) (Sched.history both) = true ∧
  forallb Sched.in_flight (Sched.tasks both) = true ∧
  map Sched.in_flight (Sched.tasks later) = [false; true] ∧
  Sched.registry later = ∅.
Proof. vm_compute. repeat split. Qed.

(** ** Template substitution *)

(** Without a dollar sign the replacement text is inserted as it is. *)
Lemma GetSubstitution_no_dollar matched before after replacement :
  no_dollar replacement = true →
  GetSubstitution matched before after replacement = replacement.
Proof.
  induction replacement as [|c rest IH]; simpl; [done|].
  intros [Hc Hrest]%andb_prop. apply negb_true_iff in Hc. rewrite Hc.
  by rewrite IH.
Qed.

(** A doubled dollar sign at the head of the plaintext loses one sign. *)
Lemma GetSubstitution_double_dollar matched before after rest :
  GetSubstitution matched before after (String "$" (String "$" rest))
  = String "$" (GetSubstitution matched before after rest).
Proof. reflexivity. Qed.

(** The first placeholder whose variable is missing or empty stops the
    resolution with an error that names it. *)
Lemma replaceMatches_not_found w rid vars m ms value :
  lookup_prop (slice_2_m2 m) vars = None ∨ lookup_prop (slice_2_m2 m) vars = Some EmptyString →
  replaceMatches w rid vars (m :: ms) value
  = ([], Throw (PlainError ("Environment variable " +:+ quoted (slice_2_m2 m)
                            +:+ " was not found"))).
Proof. by intros [H|H]; simpl; rewrite H. Qed.


(** ** What the handlers answer when admission fails *)

Lemma executeAndRespond_duplicate w h R id rid wf input before :
  executionKeyOf (workflow_id wf) rid ∈ R →
  executeAndRespond w h R id rid wf input before =
    (before
     ++ [Log LWarn (tag rid +:+ "Execution is already running: "
                    +:+ executionKeyOf (workflow_id wf) rid);
         Log LError (tag rid +:+ "Error executing workflow: " +:+ id)],
     createErrorResponse "Execution is already running" 500 (Some "EXECUTION_ERROR"),
     R).
Proof.
  intros Hk. unfold executeAndRespond. by rewrite executeWorkflow_duplicate.
Qed.

Lemma executeAndRespond_exceeded w h R id rid wf input before u :
  executionKeyOf (workflow_id wf) rid ∉ R →
  checkServerSideUsageLimits w (workflow_userId wf) = Returns u →
  isExceeded u = true →
  executeAndRespond w h R id rid wf input before =
    (before
     ++ [UsageLookup (workflow_userId wf);
         Log LWarn (tag rid +:+ "User " +:+ workflow_userId wf
                    +:+ " has exceeded usage limits");
         Log LError (tag rid +:+ "Error executing workflow: " +:+ id)],
     createErrorResponse (usageLimitMessage u) 402 (Some "USAGE_LIMIT_EXCEEDED"),
     R).
Proof.
  intros Hk Hu Hex. unfold executeAndRespond.
  by rewrite (executeWorkflow_exceeded w R wf rid input u).
Qed.

(** No usage lookup among log lines. *)
Ltac no_lookup H :=
  exfalso; simpl in H;
  repeat (rewrite in_app_iff in H; simpl in H);
  intuition discriminate.

Lemma exceeded_response w h R id rid wf input before u :
  (∀ e, In e before → ∃ lvl msg, e = Log lvl msg) →
  checkServerSideUsageLimits w (workflow_userId wf) = Returns u →
  isExceeded u = true →
  In (UsageLookup (workflow_userId wf))
     (trace_of (executeAndRespond w h R id rid wf input before)) →
  outcome_of (executeAndRespond w h R id rid wf input before)
    = createErrorResponse (usageLimitMessage u) 402 (Some "USAGE_LIMIT_EXCEEDED") ∧
  List.filter is_execution_work (trace_of (executeAndRespond w h R id rid wf input before)) = [] ∧
  registry_after (executeAndRespond w h R id rid wf input before) = R.
Proof.
  intros Hlogs Hu Hex.
  assert (Hq : List.filter is_execution_work before = []).
  { clear -Hlogs. induction before as [|e rest IH]; [done|]. simpl.
    destruct (Hlogs e (or_introl eq_refl)) as (lvl & msg & ->). simpl.
    apply IH. intros e' He'. apply Hlogs. by right. }
  destruct (decide (executionKeyOf (workflow_id wf) rid ∈ R)) as [Hk|Hk].
  - rewrite executeAndRespond_duplicate by done. unfold trace_of; simpl.
    intros [Hin|Hin]%in_app_iff.
    + destruct (Hlogs _ Hin) as (? & ? & ?). discriminate.
    + no_lookup Hin.
  - rewrite (executeAndRespond_exceeded w h R id rid wf input before u) by done.
    intros _. unfold trace_of, outcome_of, registry_after; simpl.
    by rewrite List.filter_app, Hq.
Qed.

(** C4. A request whose usage lookup answers [isExceeded = true] is
    answered with status 402 and code [USAGE_LIMIT_EXCEEDED]; up to that
    answer nothing was loaded, decrypted, executed or persisted, and the
    registry is as it was. Holds for GET and for POST. *)
Theorem C4_usage_limit_short_circuits (w : World) (h : Http) (R : gset string)
    (id : string) (wf : Workflow) (u : UsageStatus) :
  validateWorkflowAccess h id = Returns (AccessGranted wf) →
  checkServerSideUsageLimits w (workflow_userId wf) = Returns u →
  isExceeded u = true →
  (In (UsageLookup (workflow_userId wf)) (trace_of (GET w h R id)) →
   outcome_of (GET w h R id)
     = createErrorResponse (usageLimitMessage u) 402 (Some "USAGE_LIMIT_EXCEEDED") ∧
   List.filter is_execution_work (trace_of (GET w h R id)) = [] ∧
   registry_after (GET w h R id) = R) ∧
  (In (UsageLookup (workflow_userId wf)) (trace_of (POST w h R id)) →
   outcome_of (POST w h R id)
     = createErrorResponse (usageLimitMessage u) 402 (Some "USAGE_LIMIT_EXCEEDED") ∧
   List.filter is_execution_work (trace_of (POST w h R id)) = [] ∧
   registry_after (POST w h R id) = R).
Proof.
  intros Hval Hu Hex. split.
  - unfold GET. rewrite Hval. apply exceeded_response; [|done..].
    intros e [<-|[]]. eauto.
  - unfold POST. rewrite Hval.
    destruct (request_text h) as [bodyText|msg]; [|intros H; no_lookup H].
    destruct (blank bodyText).
    + unfold keys_length, ret; simpl. apply exceeded_response; [|done..].
      intros e He. simpl in He. intuition (subst; eauto).
    + destruct (JSON_parse w bodyText) as [body|msg]; [|intros H; no_lookup H].
      destruct (keys_length body) as [t [n|e]]; [|intros H; no_lookup H].
      apply exceeded_response; [|done..].
      intros e He. simpl in He. intuition (subst; eauto).
Qed.

Lemma C4_usage_limit_short_circuits_witness :
  let w := demo_world true [] None (Returns demo_success) (Returns tt) in
  let wf := demo_workflow JUndefined in
  outcome_of (GET w (demo_http wf EmptyString) ∅ "wf")
    = createErrorResponse "Usage limit exceeded. Please upgrade your plan to continue."
        402 (Some "USAGE_LIMIT_EXCEEDED") ∧
  outcome_of (POST w (demo_http wf "{}") ∅ "wf")
    = createErrorResponse "Usage limit exceeded. Please upgrade your plan to continue."
        402 (Some "USAGE_LIMIT_EXCEEDED").
Proof.
  split.
  - refine (proj1 (proj1 (C4_usage_limit_short_circuits
             (demo_world true [] None (Returns demo_success) (Returns tt))
             (demo_http (demo_workflow JUndefined) EmptyString) ∅ "wf"
             (demo_workflow JUndefined) (demo_usage true) eq_refl eq_refl eq_refl) _)).
    vm_compute. find_event.
  - refine (proj1 (proj2 (C4_usage_limit_short_circuits
             (demo_world true [] None (Returns demo_success) (Returns tt))
             (demo_http (demo_workflow JUndefined) "{}") ∅ "wf"
             (demo_workflow JUndefined) (demo_usage true) eq_refl eq_refl eq_refl) _)).
    vm_compute. find_event.
Defined.

Lemma keys_length_ok (v : JSValue) :
  v ≠ JUndefined → v ≠ JNull → keys_length v = ([], Ok (List.length (own_entries v))).
Proof. by destruct v. Qed.

(** C5 as stated does not hold: a request whose key is registered is
    answered with status 500 and code [EXECUTION_ERROR], not with a
    conflict status, and the answer is the one an engine failure with the
    same message gets. *)
Lemma C5_duplicate_is_not_a_conflict :
  let wf := demo_workflow JUndefined in
  let h := demo_http wf EmptyString in
  let busy : gset string := {[executionKeyOf (workflow_id wf) (requestIdOf h)]} in
  let w := demo_world false [] None (Returns demo_success) (Returns tt) in
  let w_engine_down :=
    demo_world false [] None (Rejects "Execution is already running") (Returns tt) in
  executionKeyOf (workflow_id wf) (requestIdOf h) ∈ busy ∧
  status_of (outcome_of (GET w h busy "wf")) = Some 500 ∧
  status_of (outcome_of (GET w h busy "wf")) ≠ Some 409 ∧
  code_of (outcome_of (GET w h busy "wf")) = Some "EXECUTION_ERROR" ∧
  outcome_of (GET w h busy "wf") = outcome_of (GET w_engine_down h ∅ "wf").
Proof.
  split; [by apply elem_of_singleton|]. vm_compute. repeat split. discriminate.
Qed.

(** C5, amended. A request that reaches [executeWorkflow] while its key
    is registered is answered with the message [Execution is already
    running], status 500 and code [EXECUTION_ERROR]; no collaborator is
    called, nothing is reported to the persistence sink, and the
    registry keeps the key of the call that holds it. *)
Theorem C5_duplicate_request_rejected (w : World) (h : Http) (R : gset string)
    (id : string) (wf : Workflow) :
  validateWorkflowAccess h id = Returns (AccessGranted wf) →
  executionKeyOf (workflow_id wf) (requestIdOf h) ∈ R →
  (outcome_of (GET w h R id)
     = createErrorResponse "Execution is already running" 500 (Some "EXECUTION_ERROR") ∧
   List.filter Sched.awaited (trace_of (GET w h R id)) = [] ∧
   registry_after (GET w h R id) = R) ∧
  (∀ bodyText,
     request_text h = Returns bodyText →
     blank bodyText = true ∨
       (∃ body, JSON_parse w bodyText = Returns body ∧ body ≠ JUndefined ∧ body ≠ JNull) →
     outcome_of (POST w h R id)
       = createErrorResponse "Execution is already running" 500 (Some "EXECUTION_ERROR") ∧
     List.filter Sched.awaited (trace_of (POST w h R id)) = [] ∧
     registry_after (POST w h R id) = R).
Proof.
  intros Hval Hk. split.
  - unfold GET. rewrite Hval. by rewrite executeAndRespond_duplicate.
  - intros bodyText Htext Hbody. unfold POST. rewrite Hval, Htext.
    destruct Hbody as [->|(body & Hparse & Hu & Hn)].
    + unfold keys_length, ret; simpl. by rewrite executeAndRespond_duplicate.
    + destruct (blank bodyText).
      * unfold keys_length, ret; simpl. by rewrite executeAndRespond_duplicate.
      * rewrite Hparse, keys_length_ok by done.
        by rewrite executeAndRespond_duplicate.
Qed.

Lemma C5_duplicate_request_rejected_witness :
  let wf := demo_workflow JUndefined in
  let h := demo_http wf "{}" in
  let w := demo_world false [] None (Returns demo_success) (Returns tt) in
  outcome_of (GET w h {["wf:0a1b2c3d"]} "wf")
    = createErrorResponse "Execution is already running" 500 (Some "EXECUTION_ERROR") ∧
  outcome_of (POST w h {["wf:0a1b2c3d"]} "wf")
    = createErrorResponse "Execution is already running" 500 (Some "EXECUTION_ERROR").
Proof.
  pose proof (C5_duplicate_request_rejected
                (demo_world false [] None (Returns demo_success) (Returns tt))
                (demo_http (demo_workflow JUndefined) "{}") {["wf:0a1b2c3d"]} "wf"
                (demo_workflow JUndefined) eq_refl) as H.
  destruct H as [Hget Hpost].
  - by apply elem_of_singleton.
  - split; [exact (proj1 Hget)|].
    refine (proj1 (Hpost "{}" eq_refl _)).
    right. exists (JObj []). repeat split; discriminate.
Defined.

(** ** Counters *)

Lemma filter_filter_implies {A} (p q : A → bool) (l : list A) :
  (∀ x, q x = true → p x = true) → List.filter q (List.filter p l) = List.filter q l.
Proof.
  intros Hpq. induction l as [|x l IH]; [done|]. simpl.
  destruct (p x) eqn:Hp; simpl; rewrite IH; [done|].
  destruct (q x) eqn:Hq; [|done]. apply Hpq in Hq. congruence.
Qed.

Lemma existsb_filter_implies {A} (p q : A → bool) (l : list A) :
  (∀ x, q x = true → p x = true) → existsb q (List.filter p l) = existsb q l.
Proof.
  intros Hpq. induction l as [|x l IH]; [done|]. simpl.
  destruct (p x) eqn:Hp; simpl; rewrite IH; [done|].
  destruct (q x) eqn:Hq; [|done]. apply Hpq in Hq. congruence.
Qed.

Lemma engine_succeeded_is_engine w e : engine_succeeded w e = true → is_engine e = true.
Proof. by destruct e. Qed.

Lemma bookkeeping_try_catch {A} (m : W A) h :
  (∀ e, silent is_bookkeeping (h e)) →
  List.filter is_bookkeeping (try_catch m h).1 = List.filter is_bookkeeping m.1.
Proof.
  intros Hh. unfold try_catch. destruct m as [t [a|e]]; [done|].
  specialize (Hh e). unfold silent in Hh. destruct (h e) as [t' r]; simpl in *.
  by rewrite List.filter_app, Hh, app_nil_r.
Qed.

Lemma bookkeeping_bind_silent {A B} (m : W A) (f : A → W B) :
  silent is_bookkeeping m →
  List.filter is_bookkeeping (bind m f).1 = []
  ∨ ∃ a, List.filter is_bookkeeping (bind m f).1 = List.filter is_bookkeeping (f a).1.
Proof.
  unfold silent. intros Hm.
  destruct (bind_trace m f) as [H|(a & _ & H)]; rewrite H.
  - by left.
  - right. exists a. by rewrite List.filter_app, Hm.
Qed.

(** The engine stage: one engine call, then the counters as the result
    and the first update allow. *)
Lemma runEngine_bookkeeping w rid eid wf ser bs env input wv :
  List.filter is_bookkeeping (runEngine w rid eid wf ser bs env input wv).1
  = bookkeeping_of w wf (EngineInvoke ser bs env input wv (workflow_id wf)).
Proof.
  unfold runEngine, bookkeeping_of, engine_succeeded, updateCounters.
  unfold bind, await, emit, call, ret.
  destruct (execute w ser bs env input wv (workflow_id wf)) as [result|msg]; [|done].
  destruct (get_prop (selectExecutionResult result) "success") as [t0 [s|e]] eqn:Hs.
  - assert (t0 = []) as ->.
    { unfold get_prop, ret, throw in Hs.
      destruct (selectExecutionResult result); by inversion Hs. }
    destruct (truthy s).
    + destruct (updateWorkflowRunCounts w (workflow_id wf)) as [[]|?];
        [destruct (updateUserStats w (workflow_userId wf)) as [[]|?]|];
        simpl; try done;
        destruct (buildTraceSpans w _) as [[spans dur]|?]; simpl; try done;
        by destruct (persistExecutionLogs w _ _ _) as [[]|?].
    + simpl. destruct (buildTraceSpans w _) as [[spans dur]|?]; simpl; try done;
        by destruct (persistExecutionLogs w _ _ _) as [[]|?].
  - assert (t0 = []) as ->.
    { unfold get_prop, ret, throw in Hs.
      destruct (selectExecutionResult result); by inversion Hs. }
    done.
Qed.

Lemma guarded_bookkeeping w rid eid wf input :
  List.filter is_bookkeeping (guarded w rid eid wf input).1 = []
  ∨ ∃ e, is_engine e = true ∧
         List.filter is_bookkeeping (guarded w rid eid wf input).1 = bookkeeping_of w wf e.
Proof.
  unfold guarded.
  destruct (bookkeeping_bind_silent
              (emit (Log LInfo (tag rid +:+ "Starting workflow execution: " +:+ workflow_id wf)))
              (λ _, do cfg <- resolveConfiguration w rid wf;
                     do workflowVariables <- loadWorkflowVariables w rid wf;
                     run emit (Log LDebug (tag rid +:+ "Serializing workflow: "
                                           +:+ workflow_id wf));
                     do serializedWorkflow <-
                       call (serializeWorkflow w (cfg_mergedStates cfg) (edges (cfg_state cfg))
                               (loops (cfg_state cfg)) (parallels (cfg_state cfg)));
                     runEngine w rid eid wf serializedWorkflow
                       (cfg_processedBlockStates cfg) (cfg_decryptedEnvVars cfg) input
                       workflowVariables))
    as [H|[[] H]]; [by apply silent_emit|by left|rewrite H; clear H].
  match goal with |- context [bind ?m ?f] =>
    destruct (bookkeeping_bind_silent m f) as [H|[cfg H]];
      [by apply silent_resolveConfiguration|by left|rewrite H; clear H] end.
  match goal with |- context [bind ?m ?f] =>
    destruct (bookkeeping_bind_silent m f) as [H|[wv H]];
      [by apply silent_loadWorkflowVariables|by left|rewrite H; clear H] end.
  match goal with |- context [bind ?m ?f] =>
    destruct (bookkeeping_bind_silent m f) as [H|[[] H]];
      [by apply silent_emit|by left|rewrite H; clear H] end.
  match goal with |- context [bind ?m ?f] =>
    destruct (bookkeeping_bind_silent m f) as [H|[ser H]];
      [by apply silent_call|by left|rewrite H; clear H] end.
  right. eexists. split; [|apply runEngine_bookkeeping]. done.
Qed.

Lemma onFailure_bookkeeping w rid eid wid e : silent is_bookkeeping (onFailure w rid eid wid e).
Proof.
  unfold onFailure. apply silent_bind; [by apply silent_emit|intros _].
  apply silent_bind; [by apply silent_await|intros _]. apply silent_throw.
Qed.

Lemma executeWorkflow_bookkeeping w R wf rid input :
  List.filter is_bookkeeping (trace_of (executeWorkflow w R wf rid input)) = []
  ∨ ∃ e, is_engine e = true ∧
         List.filter is_bookkeeping (trace_of (executeWorkflow w R wf rid input))
         = bookkeeping_of w wf e.
Proof.
  unfold executeWorkflow, trace_of. case_bool_decide; [by left|].
  destruct (checkServerSideUsageLimits w _) as [u|?]; [|by left].
  destruct (isExceeded u); [by left|].
  pose proof (bookkeeping_try_catch (guarded w rid (uuidv4 w) wf input)
                (onFailure w rid (uuidv4 w) (workflow_id wf))
                (onFailure_bookkeeping w rid (uuidv4 w) (workflow_id wf))) as Htc.
  fold (tryCatchSection w rid wf input) in Htc.
  destruct (tryCatchSection w rid wf input) as [t r]; simpl in *.
  rewrite List.filter_app, Htc. simpl. rewrite app_nil_r.
  apply guarded_bookkeeping.
Qed.

(** C6 as stated does not hold. First run: the engine result has
    [success = true] and the run counter is updated, but that update
    rejects and the API-call counter is never touched. Second run: both
    counters are updated, then the success log is rejected and the
    execution fails, with both counters touched. *)
Lemma C6_counters_and_failures_diverge :
  let wf := demo_workflow JUndefined in
  let w := demo_world false [] None (Returns demo_success) (Rejects "database unavailable") in
  let t := trace_of (executeWorkflow w ∅ wf "req" JUndefined) in
  let w' := with_failing_log_sink
              (demo_world false [] None (Returns demo_success) (Returns tt)) in
  let t' := trace_of (executeWorkflow w' ∅ wf "req" JUndefined) in
  (existsb (engine_succeeded w) t = true ∧
   count is_run_count t = 1%nat ∧
   count is_api_count t = 0%nat ∧
   count is_api_count t ≠ 1%nat) ∧
  (outcome_of (executeWorkflow w' ∅ wf "req" JUndefined)
     = Throw (PlainError "log store unavailable") ∧
   count is_run_count t' = 1%nat ∧
   count is_api_count t' = 1%nat).
Proof. vm_compute. repeat split. discriminate. Qed.

(** C6, amended. When the engine call of an execution resolves with a
    truthy [success], the run-counter update of this workflow is called
    exactly once, and the API-call update of its owner exactly once if
    the run-counter update returns and not at all if it rejects; this
    holds whether or not the execution fails afterwards. In every other
    execution (turned away at admission, failed before or in the engine
    call, or [success] falsy) neither update is called. The only other
    store mutations an execution performs are the two persistence
    calls. *)
Theorem C6_counters_follow_engine_success (w : World) (R : gset string) (wf : Workflow)
    (rid : string) (input : JSValue) :
  (existsb (engine_succeeded w) (trace_of (executeWorkflow w R wf rid input)) = true →
   List.filter is_run_count (trace_of (executeWorkflow w R wf rid input))
     = [UpdateRunCounts (workflow_id wf)] ∧
   List.filter is_api_count (trace_of (executeWorkflow w R wf rid input))
     = match updateWorkflowRunCounts w (workflow_id wf) with
       | Returns _ => [UpdateUserStats (workflow_userId wf)]
       | Rejects _ => []
       end) ∧
  (existsb (engine_succeeded w) (trace_of (executeWorkflow w R wf rid input)) = false →
   List.filter is_run_count (trace_of (executeWorkflow w R wf rid input)) = [] ∧
   List.filter is_api_count (trace_of (executeWorkflow w R wf rid input)) = []).
Proof.
  set (t := trace_of (executeWorkflow w R wf rid input)).
  rewrite <- (existsb_filter_implies is_bookkeeping (engine_succeeded w) t).
  2:{ intros e He. apply engine_succeeded_is_engine in He.
      unfold is_bookkeeping. by rewrite He. }
  rewrite <- (filter_filter_implies is_bookkeeping is_run_count t).
  2:{ intros e He. unfold is_bookkeeping. rewrite He. by destruct (is_engine e). }
  rewrite <- (filter_filter_implies is_bookkeeping is_api_count t).
  2:{ intros e He. unfold is_bookkeeping. rewrite He.
      by destruct (is_engine e), (is_run_count e). }
  destruct (executeWorkflow_bookkeeping w R wf rid input) as [H|(e & He & H)];
    fold t in H; rewrite H; clear H.
  - split; [discriminate|done].
  - assert (is_run_count e = false ∧ is_api_count e = false) as [Hr Ha]
      by (by destruct e).
    unfold bookkeeping_of. cbn [existsb List.filter]. rewrite Hr, Ha.
    destruct (engine_succeeded w e); simpl.
    + split; [intros _|discriminate].
      by destruct (updateWorkflowRunCounts w (workflow_id wf)).
    + split; [discriminate|done].
Qed.

Lemma C6_counters_follow_engine_success_witness :
  let w := demo_world false [] None (Returns demo_success) (Returns tt) in
  let w_failed := demo_world false [] None (Returns [("success", JBool false)]) (Returns tt) in
  let wf := demo_workflow JUndefined in
  (List.filter is_run_count (trace_of (executeWorkflow w ∅ wf "req" JUndefined))
     = [UpdateRunCounts "wf"] ∧
   List.filter is_api_count (trace_of (executeWorkflow w ∅ wf "req" JUndefined))
     = [UpdateUserStats "user"]) ∧
  (List.filter is_run_count (trace_of (executeWorkflow w_failed ∅ wf "req" JUndefined)) = [] ∧
   List.filter is_api_count (trace_of (executeWorkflow w_failed ∅ wf "req" JUndefined)) = []).
Proof.
  split.
  - refine (proj1 (C6_counters_follow_engine_success
             (demo_world false [] None (Returns demo_success) (Returns tt))
             ∅ (demo_workflow JUndefined) "req" JUndefined) _).
    vm_compute. reflexivity.
  - refine (proj2 (C6_counters_follow_engine_success
             (demo_world false [] None (Returns [("success", JBool false)]) (Returns tt))
             ∅ (demo_workflow JUndefined) "req" JUndefined) _).
    vm_compute. reflexivity.
Defined.

(** ** Following an event through the section *)

Lemma In_bind_l {A B} (m : W A) (f : A → W B) e : In e m.1 → In e (bind m f).1.
Proof.
  intros He. destruct (bind_trace m f) as [H|(a & _ & H)]; rewrite H; [done|].
  apply in_or_app. by left.
Qed.

Lemma In_bind_ok {A B} (m : W A) (f : A → W B) t a e :
  m = (t, Ok a) → In e (f a).1 → In e (bind m f).1.
Proof.
  intros Hm He. rewrite (bind_ok m f t a Hm). simpl. apply in_or_app. by right.
Qed.

Lemma In_try_catch {A} (m : W A) h e : In e m.1 → In e (try_catch m h).1.
Proof.
  unfold try_catch. destruct m as [t [a|err]]; [done|].
  destruct (h err). simpl. intros He. apply in_or_app. by left.
Qed.

Lemma In_starts_with {A} pre (m : W A) e : starts_with pre m → In e pre → In e m.1.
Proof. intros [rest ->] He. apply in_or_app. by left. Qed.

Lemma In_admitted w R wf rid input e :
  In (RegistryAdd (executionKeyOf (workflow_id wf) rid))
     (trace_of (executeWorkflow w R wf rid input)) →
  In e (guarded w rid (uuidv4 w) wf input).1 →
  In e (trace_of (executeWorkflow w R wf rid input)).
Proof.
  intros Hadd He. destruct (inserted_inv _ _ _ _ _ _ Hadd) as (Hk & u & Hu & Hex).
  rewrite (executeWorkflow_admitted w R wf rid input Hk u Hu Hex).
  unfold trace_of; simpl. do 4 right. apply in_or_app. left.
  by apply In_try_catch.
Qed.

Lemma guarded_configuration_fails w rid eid wf input t0 e :
  resolveConfiguration w rid wf = (t0, Throw e) →
  guarded w rid eid wf input
  = (Log LInfo (tag rid +:+ "Starting workflow execution: " +:+ workflow_id wf) :: t0,
     Throw e).
Proof. intros H. unfold guarded, bind, emit. by rewrite H. Qed.

(** With the configuration resolved and the workflow serialized, the
    engine is called with whatever the normalization produced. *)
Lemma guarded_reaches_engine w rid eid wf input t0 cfg t1 wv ser :
  resolveConfiguration w rid wf = (t0, Ok cfg) →
  loadWorkflowVariables w rid wf = (t1, Ok wv) →
  serializeWorkflow w (cfg_mergedStates cfg) (edges (cfg_state cfg))
    (loops (cfg_state cfg)) (parallels (cfg_state cfg)) = Returns ser →
  In (EngineInvoke ser (cfg_processedBlockStates cfg) (cfg_decryptedEnvVars cfg)
        input wv (workflow_id wf))
     (guarded w rid eid wf input).1.
Proof.
  intros Hcfg Hwv Hser. unfold guarded.
  eapply In_bind_ok; [reflexivity|]. eapply In_bind_ok; [exact Hcfg|].
  eapply In_bind_ok; [exact Hwv|]. eapply In_bind_ok; [reflexivity|].
  eapply In_bind_ok; [by rewrite Hser|].
  eapply In_starts_with; [apply starts_await_bind|]. by left.
Qed.

(** C7. A workflow-variables string that does not parse yields the empty
    mapping: one line is logged (at error level whenever the parse was
    attempted, that is for every non-empty string) and nothing is raised.
    The request then goes on: once the configuration is resolved and the
    workflow serialized, the engine is called with the empty mapping. A
    failure while resolving the configuration, template variables
    included, ends the guarded section before any engine call. *)
Theorem C7_malformed_workflow_variables_tolerated (w : World) (R : gset string)
    (wf : Workflow) (rid : string) (input : JSValue) (text msg : string) :
  workflow_variables wf = JStr text →
  JSON_parse w text = Rejects msg →
  loadWorkflowVariables w rid wf
    = ([match text with
        | EmptyString =>
            Log LDebug (tag rid +:+ "No workflow variables found for: " +:+ workflow_id wf)
        | _ =>
            Log LError (tag rid +:+ "Failed to parse workflow variables: " +:+ workflow_id wf)
        end],
       Ok (JObj [])) ∧
  (∀ t0 cfg ser,
    In (RegistryAdd (executionKeyOf (workflow_id wf) rid))
       (trace_of (executeWorkflow w R wf rid input)) →
    resolveConfiguration w rid wf = (t0, Ok cfg) →
    serializeWorkflow w (cfg_mergedStates cfg) (edges (cfg_state cfg))
      (loops (cfg_state cfg)) (parallels (cfg_state cfg)) = Returns ser →
    In (EngineInvoke ser (cfg_processedBlockStates cfg) (cfg_decryptedEnvVars cfg)
          input (JObj []) (workflow_id wf))
       (trace_of (executeWorkflow w R wf rid input))) ∧
  (∀ t0 e,
     resolveConfiguration w rid wf = (t0, Throw e) →
     (guarded w rid (uuidv4 w) wf input).2 = Throw e ∧
     List.filter is_engine (guarded w rid (uuidv4 w) wf input).1 = []).
Proof.
  intros Hvars Hparse.
  assert (Hload : loadWorkflowVariables w rid wf
    = ([match text with
        | EmptyString =>
            Log LDebug (tag rid +:+ "No workflow variables found for: " +:+ workflow_id wf)
        | _ =>
            Log LError (tag rid +:+ "Failed to parse workflow variables: " +:+ workflow_id wf)
        end],
       Ok (JObj []))).
  { unfold loadWorkflowVariables. rewrite Hvars. destruct text as [|c text]; [done|].
    simpl. by rewrite Hparse. }
  split; [exact Hload|split].
  - intros t0 cfg ser Hadd Hcfg Hser. apply In_admitted; [done|].
    by eapply guarded_reaches_engine.
  - intros t0 e Hcfg.
    rewrite (guarded_configuration_fails w rid (uuidv4 w) wf input t0 e Hcfg). simpl.
    split; [done|].
    pose proof (silent_resolveConfiguration is_engine
                  ltac:(done) ltac:(done) ltac:(done) ltac:(done) w rid wf) as Hq.
    unfold silent in Hq. by rewrite Hcfg in Hq.
Qed.

Lemma C7_malformed_workflow_variables_tolerated_witness :
  let w := demo_world false [] None (Returns demo_success) (Returns tt) in
  let wf := demo_workflow (JStr "{not json") in
  loadWorkflowVariables w "req" wf
    = ([Log LError "[req] Failed to parse workflow variables: wf"], Ok (JObj [])) ∧
  In (EngineInvoke (JObj []) [] [] JNull (JObj []) "wf")
     (trace_of (executeWorkflow w ∅ wf "req" JNull)).
Proof.
  pose proof (C7_malformed_workflow_variables_tolerated
                (demo_world false [] None (Returns demo_success) (Returns tt)) ∅
                (demo_workflow (JStr "{not json")) "req" JNull "{not json" "Unexpected token"
                eq_refl eq_refl) as (Hload & Hgo & _).
  split; [exact Hload|].
  refine (Hgo _ {| cfg_state := demo_state; cfg_mergedStates := [];
                   cfg_decryptedEnvVars := []; cfg_processedBlockStates := [] |}
              (JObj []) _ _ eq_refl).
  - vm_compute. find_event.
  - vm_compute. reflexivity.
Defined.

(** ** Failures inside and outside the guarded section *)


(** What [executeWorkflow] makes of a failure of the guarded section. *)
Lemma guarded_failure_handled w R wf rid input t e :
  In (RegistryAdd (executionKeyOf (workflow_id wf) rid))
     (trace_of (executeWorkflow w R wf rid input)) →
  guarded w rid (uuidv4 w) wf input = (t, Throw e) →
  let failed := Log LError (tag rid +:+ "Workflow execution failed: " +:+ workflow_id wf) in
  let report := PersistError (workflow_id wf) (uuidv4 w) e in
  executeWorkflow w R wf rid input
  = (UsageLookup (workflow_userId wf)
       :: enterSection rid (executionKeyOf (workflow_id wf) rid)
       ++ (t ++ [failed; report])
       ++ [RegistryDelete (executionKeyOf (workflow_id wf) rid)],
     match persistExecutionError w (workflow_id wf) (uuidv4 w) e with
     | Returns _ => Throw e
     | Rejects msg => Throw (PlainError msg)
     end,
     ({[executionKeyOf (workflow_id wf) rid]} ∪ R)
       ∖ {[executionKeyOf (workflow_id wf) rid]}).
Proof.
  intros Hadd Hg. destruct (inserted_inv _ _ _ _ _ _ Hadd) as (Hk & u & Hu & Hex).
  rewrite (executeWorkflow_admitted w R wf rid input Hk u Hu Hex).
  unfold tryCatchSection. rewrite Hg.
  unfold try_catch, onFailure, bind, emit, await, throw.
  by destruct (persistExecutionError w _ _ e) as [[]|msg].
Qed.




(** ** Objects as association lists *)

Lemma lookup_set_prop_eq {A} k (v : A) props : lookup_prop k (set_prop k v props) = Some v.
Proof.
  induction props as [|[k' v'] rest IH]; simpl.
  - by rewrite String.eqb_refl.
  - destruct (String.eqb k k') eqn:Hk; simpl.
    + by rewrite String.eqb_refl.
    + by rewrite Hk.
Qed.

Lemma lookup_set_prop_ne {A} k k' (v : A) props :
  k ≠ k' → lookup_prop k (set_prop k' v props) = lookup_prop k props.
Proof.
  intros Hne. induction props as [|[k0 v0] rest IH]; simpl.
  - destruct (String.eqb k k') eqn:Hk; [|done]. by apply String.eqb_eq in Hk.
  - destruct (String.eqb k' k0) eqn:Hk0; simpl.
    + apply String.eqb_eq in Hk0 as ->.
      destruct (String.eqb k k0) eqn:Hk; [|done]. by apply String.eqb_eq in Hk.
    + by rewrite IH.
Qed.

Lemma set_prop_keys_present {A} k (v v0 : A) props :
  lookup_prop k props = Some v0 → map fst (set_prop k v props) = map fst props.
Proof.
  induction props as [|[k' v'] rest IH]; simpl; [done|].
  destruct (String.eqb k k') eqn:Hk; simpl.
  - intros _. by apply String.eqb_eq in Hk as ->.
  - intros H. by rewrite IH.
Qed.

Lemma set_prop_fresh {A} k (v : A) props :
  k ∉ map fst props → set_prop k v props = props ++ [(k, v)].
Proof.
  induction props as [|[k' v'] rest IH]; simpl; [done|].
  intros Hk. apply not_elem_of_cons in Hk as [Hne Hk].
  destruct (String.eqb k k') eqn:Heq.
  - by apply String.eqb_eq in Heq.
  - by rewrite IH.
Qed.

(** Writing distinct fresh keys one after the other appends them in order. *)
Lemma fold_set_prop_fresh {A B} (f : B → A) (entries : list (string * B)) :
  ∀ acc, NoDup (map fst entries) →
    (∀ k, k ∈ map fst entries → k ∉ map fst acc) →
    fold_left (λ a kv, set_prop kv.1 (f kv.2) a) entries acc
    = acc ++ map (λ kv, (kv.1, f kv.2)) entries.
Proof.
  induction entries as [|[k b] rest IH]; intros acc Hnd Hfresh; simpl.
  - by rewrite app_nil_r.
  - apply NoDup_cons in Hnd as [Hk Hnd].
    rewrite set_prop_fresh by (apply Hfresh; simpl; left).
    rewrite IH; [by rewrite <- app_assoc|done|].
    intros k' Hk'. rewrite map_app. simpl. intros [Hin|Hin]%elem_of_app.
    + revert Hin. apply Hfresh. simpl. by right.
    + apply list_elem_of_singleton in Hin as ->. done.
Qed.

(** ** The engine result *)

Lemma has_key_true k (props : list (string * JSValue)) v :
  lookup_prop k props = Some v → has_key k props = true.
Proof. intros H. unfold has_key. rewrite H. by apply bool_decide_eq_true_2. Qed.

Lemma has_key_false k (props : list (string * JSValue)) :
  lookup_prop k props = None → has_key k props = false.
Proof.
  intros H. unfold has_key. rewrite H. apply bool_decide_eq_false_2. by intros [? ?].
Qed.

Lemma get_prop_silent v k t r : get_prop v k = (t, r) → t = [].
Proof. unfold get_prop, ret, throw. destruct v; by intros [= <- _]. Qed.

Lemma updateCounters_no_persist w wf s a b c :
  ¬ In (PersistLogs a b c) (updateCounters w wf s).1.
Proof.
  unfold updateCounters, bind, await, ret. destruct (truthy s); [|by intros []].
  destruct (updateWorkflowRunCounts w _) as [[]|?];
    [destruct (updateUserStats w _) as [[]|?]|]; simpl; intuition discriminate.
Qed.

(** The engine stage once the engine has answered, path by path. *)
Lemma runEngine_returns w rid eid wf ser bs env input wv result :
  execute w ser bs env input wv (workflow_id wf) = Returns result →
  runEngine w rid eid wf ser bs env input wv
  = let executionResult := selectExecutionResult result in
    let invoked := EngineInvoke ser bs env input wv (workflow_id wf) in
    let completed :=
      Log LInfo (tag rid +:+ "Workflow execution completed: " +:+ workflow_id wf) in
    match get_prop executionResult "success" with
    | (_, Throw e) => ([invoked], Throw e)
    | (_, Ok s) =>
        match updateCounters w wf s with
        | (tc, Throw e) => (invoked :: completed :: tc, Throw e)
        | (tc, Ok _) =>
            match buildTraceSpans w executionResult with
            | Rejects msg => (invoked :: completed :: tc, Throw (PlainError msg))
            | Returns (spans, duration) =>
                let persisted :=
                  PersistLogs (workflow_id wf) eid (enrich executionResult spans duration) in
                match persistExecutionLogs w (workflow_id wf) eid
                        (enrich executionResult spans duration) with
                | Returns _ => (invoked :: completed :: tc ++ [persisted], Ok executionResult)
                | Rejects msg =>
                    (invoked :: completed :: tc ++ [persisted], Throw (PlainError msg))
                end
            end
        end
    end.
Proof.
  intros Hexec. unfold runEngine. rewrite Hexec. cbv zeta.
  destruct (get_prop (selectExecutionResult result) "success") as [t0 [s|e]] eqn:Hs;
    pose proof (get_prop_silent _ _ _ _ Hs) as ->;
    unfold bind at 1; unfold await at 1; unfold bind at 1; rewrite Hs; [|done].
  unfold bind at 1. unfold emit at 1. unfold bind at 1.
  destruct (updateCounters w wf s) as [tc [[]|e]]; [|by rewrite ?app_nil_r].
  unfold bind at 1. unfold call.
  destruct (buildTraceSpans w _) as [[spans duration]|msg]; [|by rewrite ?app_nil_r].
  unfold bind, await, ret. simpl.
  by destruct (persistExecutionLogs w _ _ _) as [[]|msg]; simpl; rewrite ?app_nil_r.
Qed.

(** The enriched result is the result with the two trace properties
    written into it. *)
Lemma enrich_properties (executionResult traceSpans totalDuration : JSValue) :
  ∃ props,
    enrich executionResult traceSpans totalDuration = JObj props ∧
    lookup_prop "traceSpans" props = Some traceSpans ∧
    lookup_prop "totalDuration" props = Some totalDuration ∧
    ∀ k, k ≠ "traceSpans" → k ≠ "totalDuration" →
         lookup_prop k props = lookup_prop k (own_entries executionResult).
Proof.
  eexists. split; [reflexivity|]. split; [|split].
  - rewrite lookup_set_prop_ne by done. apply lookup_set_prop_eq.
  - apply lookup_set_prop_eq.
  - intros k H1 H2. by rewrite !lookup_set_prop_ne.
Qed.

(** C9. A value with both a [stream] and an [execution] property is
    replaced by its [execution] property, any other value is used as it
    is; what is handed to the trace builder, enriched, persisted and
    returned is that selected result and nothing else. The object that
    is persisted, under the workflow and execution ids of the call, is
    the selected result with [traceSpans] and [totalDuration] set to what
    the trace builder gave for it: every other property of the selected
    result is in it with the value it had. *)
Theorem C9_only_the_result_portion (w : World) (rid eid : string) (wf : Workflow)
    (ser : JSValue) (bs : MergedStates) (env : list (string * string))
    (input wv : JSValue) (result : list (string * JSValue)) :
  (∀ stream execution,
     lookup_prop "stream" result = Some stream →
     lookup_prop "execution" result = Some execution →
     selectExecutionResult result = execution) ∧
  (lookup_prop "stream" result = None ∨ lookup_prop "execution" result = None →
   selectExecutionResult result = JObj result) ∧
  (execute w ser bs env input wv (workflow_id wf) = Returns result →
   (∀ v, (runEngine w rid eid wf ser bs env input wv).2 = Ok v →
         v = selectExecutionResult result) ∧
   (∀ wid' eid' enriched,
      In (PersistLogs wid' eid' enriched) (runEngine w rid eid wf ser bs env input wv).1 →
      wid' = workflow_id wf ∧ eid' = eid ∧
      ∃ spans duration props,
        buildTraceSpans w (selectExecutionResult result) = Returns (spans, duration) ∧
        enriched = enrich (selectExecutionResult result) spans duration ∧
        enriched = JObj props ∧
        lookup_prop "traceSpans" props = Some spans ∧
        lookup_prop "totalDuration" props = Some duration ∧
        ∀ k, k ≠ "traceSpans" → k ≠ "totalDuration" →
             lookup_prop k props = lookup_prop k (own_entries (selectExecutionResult result))) ∧
   (∀ s tc spans duration,
      get_prop (selectExecutionResult result) "success" = ([], Ok s) →
      updateCounters w wf s = (tc, Ok tt) →
      buildTraceSpans w (selectExecutionResult result) = Returns (spans, duration) →
      persistExecutionLogs w (workflow_id wf) eid
        (enrich (selectExecutionResult result) spans duration) = Returns tt →
      runEngine w rid eid wf ser bs env input wv
      = (EngineInvoke ser bs env input wv (workflow_id wf)
           :: Log LInfo (tag rid +:+ "Workflow execution completed: " +:+ workflow_id wf)
           :: tc
           ++ [PersistLogs (workflow_id wf) eid
                 (enrich (selectExecutionResult result) spans duration)],
         Ok (selectExecutionResult result)))).
Proof.
  split; [|split].
  - intros stream execution Hs He. unfold selectExecutionResult.
    by rewrite (has_key_true _ _ _ Hs), (has_key_true _ _ _ He), He.
  - intros [H|H]; unfold selectExecutionResult; rewrite (has_key_false _ _ H); [done|].
    by rewrite andb_false_r.
  - intros Hexec. rewrite (runEngine_returns _ _ _ _ _ _ _ _ _ _ Hexec). cbv zeta.
    destruct (get_prop (selectExecutionResult result) "success") as [t0 [s|e]] eqn:Hs.
    2:{ split; [done|split; [|intros; simplify_eq]]. intros a b c [?|[]]. done. }
    pose proof (updateCounters_no_persist w wf s) as Hquiet.
    destruct (updateCounters w wf s) as [tc [[]|e]] eqn:Hc; simpl in Hquiet.
    2:{ split; [done|split].
        - intros a b c [?|[?|Hin]]; try done. by apply Hquiet in Hin.
        - intros; simplify_eq; congruence. }
    destruct (buildTraceSpans w _) as [[spans duration]|msg] eqn:Hb.
    2:{ split; [done|split].
        - intros a b c [?|[?|Hin]]; try done. by apply Hquiet in Hin.
        - intros; simplify_eq; congruence. }
    destruct (persistExecutionLogs w _ _ _) as [[]|msg] eqn:Hp.
    + split; [by intros v [= <-]|split].
      * intros a b c [?|[?|Hin]]; try done.
        apply in_app_iff in Hin as [Hin|[Hin|[]]]; [by apply Hquiet in Hin|].
        inversion Hin; subst. split; [done|split; [done|]].
        destruct (enrich_properties (selectExecutionResult result) spans duration)
          as (props & Hp1 & Hp2 & Hp3 & Hp4).
        by exists spans, duration, props.
      * intros; simplify_eq; congruence.
    + split; [done|split].
      * intros a b c [?|[?|Hin]]; try done.
        apply in_app_iff in Hin as [Hin|[Hin|[]]]; [by apply Hquiet in Hin|].
        inversion Hin; subst. split; [done|split; [done|]].
        destruct (enrich_properties (selectExecutionResult result) spans duration)
          as (props & Hp1 & Hp2 & Hp3 & Hp4).
        by exists spans, duration, props.
      * intros; simplify_eq; congruence.
Qed.

Lemma C9_only_the_result_portion_witness :
  let w := demo_world false [] None
             (Returns [("stream", JStr "readable"); ("execution", JObj demo_success)])
             (Returns tt) in
  (runEngine w "req" "execution-1" (demo_workflow JUndefined) (JObj []) [] [] JNull (JObj [])).2
  = Ok (JObj demo_success) ∧
  In (PersistLogs "wf" "execution-1"
        (JObj [("success", JBool true); ("output", JObj []);
               ("traceSpans", JArr []); ("totalDuration", JNum 0)]))
     (runEngine w "req" "execution-1" (demo_workflow JUndefined) (JObj []) [] [] JNull
        (JObj [])).1.
Proof.
  split; [|vm_compute; find_event].
  pose proof (C9_only_the_result_portion
                (demo_world false [] None
                   (Returns [("stream", JStr "readable"); ("execution", JObj demo_success)])
                   (Returns tt))
                "req" "execution-1" (demo_workflow JUndefined) (JObj []) [] [] JNull (JObj [])
                [("stream", JStr "readable"); ("execution", JObj demo_success)])
    as (Hsel & _ & Hrun).
  destruct (Hrun eq_refl) as (_ & _ & Hall). cbv zeta.
  rewrite (Hall (JBool true) [UpdateRunCounts "wf"; UpdateUserStats "user"]
             (JArr []) (JNum 0) eq_refl eq_refl eq_refl eq_refl).
  reflexivity.
Defined.

(** ** Decrypting the stored environment *)

Lemma decryptAll_all_ok w rid vars plain acc :
  resolve_all w vars = Some plain →
  decryptAll w rid vars acc
  = (map (λ kv, Decrypt kv.2) vars,
     Ok (fold_left (λ a kv, set_prop kv.1 kv.2 a) plain acc)).
Proof.
  revert plain acc. induction vars as [|[k enc] vars IH]; intros plain acc; simpl.
  - by intros [= <-].
  - destruct (decryptSecret w enc) as [p|msg] eqn:Hd; [|done].
    destruct (resolve_all w vars) as [ps|] eqn:Hps; [|done]. intros [= <-].
    unfold bind, try_catch, await. by rewrite (IH ps _ eq_refl).
Qed.

Lemma decryptAll_first_failure w rid pre k enc post ps msg acc :
  resolve_all w pre = Some ps →
  decryptSecret w enc = Rejects msg →
  decryptAll w rid (pre ++ (k, enc) :: post) acc
  = (map (λ kv, Decrypt kv.2) pre
     ++ [Decrypt enc;
         Log LError (tag rid +:+ "Failed to decrypt environment variable " +:+ quoted k)],
     Throw (PlainError ("Failed to decrypt environment variable " +:+ quoted k
                        +:+ ": " +:+ msg))).
Proof.
  intros Hpre Hd. revert ps acc Hpre.
  induction pre as [|[k' enc'] pre IH]; intros ps acc; simpl.
  - intros _. unfold bind, try_catch, await, emit, throw. by rewrite Hd.
  - destruct (decryptSecret w enc') as [p|?] eqn:Hd'; [|done].
    destruct (resolve_all w pre) as [ps'|] eqn:Hps; [|done]. intros _.
    unfold bind, try_catch, await. by rewrite (IH ps' _ eq_refl).
Qed.

(** The configuration stage once the stages before the decryption loop
    have gone through. *)
Lemma resolveConfiguration_stages w rid wf ts state merged tv vars tc current :
  loadState w rid wf = (ts, Ok state) →
  mergeSubblockState w (blocks state) = Returns merged →
  loadVariables w rid wf = (tv, Ok vars) →
  resolveBlocks w rid vars merged [] = (tc, Ok current) →
  (resolveConfiguration w rid wf).1
    = ts ++ tv ++ tc ++ (decryptAll w rid vars []).1
      ++ match (decryptAll w rid vars []).2 with
         | Ok _ => (processBlockStates w rid current []).1
         | Throw _ => []
         end ∧
  ∀ e, (decryptAll w rid vars []).2 = Throw e → (resolveConfiguration w rid wf).2 = Throw e.
Proof.
  intros Hs Hm Hv Hc. unfold resolveConfiguration, bind, call, ret.
  rewrite Hs, Hm, Hv, Hc.
  destruct (decryptAll w rid vars []) as [td [dec|e]]; simpl.
  - destruct (processBlockStates w rid current []) as [tp [processed|e]]; simpl;
      split; try done; by rewrite ?app_nil_r.
  - split; [by rewrite ?app_nil_r|]. by intros ? [= <-].
Qed.

(** C10 as stated does not hold: a stored variable that no placeholder
    refers to fails to decrypt, the error naming it is handed to the
    failure report, the report is rejected, and the request ends with the
    rejection of the report, which does not name the variable. *)
Lemma C10_failed_report_hides_the_variable :
  let w := with_failing_error_sink
             (demo_world false [("b1", [("prompt", JStr "Hello {{A}}")])]
                (Some (JObj [("A", JStr "enc:x"); ("UNUSED", JStr "garbled")]))
                (Returns demo_success) (Returns tt)) in
  let named := PlainError ("Failed to decrypt environment variable " +:+ quoted "UNUSED"
                           +:+ ": Invalid encrypted value format") in
  let result := executeWorkflow w ∅ (demo_workflow JUndefined) "req" JUndefined in
  (guarded w "req" "execution-1" (demo_workflow JUndefined) JUndefined).2 = Throw named ∧
  In (PersistError "wf" "execution-1" named) (trace_of result) ∧
  outcome_of result = Throw (PlainError "error store unavailable") ∧
  outcome_of result ≠ Throw named.
Proof.
  vm_compute. split; [reflexivity|]. split; [find_event|]. split; [reflexivity|].
  discriminate.
Qed.

(** C10, amended. Once the workflow is loaded, the environment row read
    and the block fields substituted, every stored variable is
    decrypted, in the order of the row, whatever the block fields refer
    to. The first stored variable that fails to decrypt aborts the
    guarded section: it throws [Failed to decrypt environment variable]
    with the name of that variable and the reason, no engine call is
    made, and that error is handed to the failure report. The request
    ends with that error when the report returns, and with the rejection
    of the report when the report is rejected. *)
Theorem C10_every_stored_variable_is_decrypted (w : World) (R : gset string)
    (wf : Workflow) (rid : string) (input : JSValue)
    (ts tv tc : list Event) (state : WorkflowState) (merged current : MergedStates)
    (vars : list (string * string)) :
  loadState w rid wf = (ts, Ok state) →
  mergeSubblockState w (blocks state) = Returns merged →
  loadVariables w rid wf = (tv, Ok vars) →
  resolveBlocks w rid vars merged [] = (tc, Ok current) →
  (∀ plain,
     resolve_all w vars = Some plain →
     decryptAll w rid vars []
     = (map (λ kv, Decrypt kv.2) vars,
        Ok (fold_left (λ a kv, set_prop kv.1 kv.2 a) plain [])) ∧
     ∀ k enc, In (k, enc) vars → In (Decrypt enc) (guarded w rid (uuidv4 w) wf input).1) ∧
  (∀ pre k enc post ps msg,
     vars = pre ++ (k, enc) :: post →
     resolve_all w pre = Some ps →
     decryptSecret w enc = Rejects msg →
     (guarded w rid (uuidv4 w) wf input).2
       = Throw (PlainError ("Failed to decrypt environment variable " +:+ quoted k
                            +:+ ": " +:+ msg)) ∧
     In (Decrypt enc) (guarded w rid (uuidv4 w) wf input).1 ∧
     List.filter is_engine (guarded w rid (uuidv4 w) wf input).1 = [] ∧
     (In (RegistryAdd (executionKeyOf (workflow_id wf) rid))
         (trace_of (executeWorkflow w R wf rid input)) →
      In (PersistError (workflow_id wf) (uuidv4 w)
            (PlainError ("Failed to decrypt environment variable " +:+ quoted k
                         +:+ ": " +:+ msg)))
         (trace_of (executeWorkflow w R wf rid input)) ∧
      outcome_of (executeWorkflow w R wf rid input)
      = match persistExecutionError w (workflow_id wf) (uuidv4 w)
                (PlainError ("Failed to decrypt environment variable " +:+ quoted k
                             +:+ ": " +:+ msg)) with
        | Returns _ =>
            Throw (PlainError ("Failed to decrypt environment variable " +:+ quoted k
                               +:+ ": " +:+ msg))
        | Rejects reason => Throw (PlainError reason)
        end)).
Proof.
  intros Hs Hm Hv Hc.
  destruct (resolveConfiguration_stages w rid wf _ _ _ _ _ _ _ Hs Hm Hv Hc) as [Ht Hthrow].
  split.
  - intros plain Hall. pose proof (decryptAll_all_ok w rid vars plain [] Hall) as Hd.
    split; [exact Hd|]. intros k enc Hin.
    unfold guarded. eapply In_bind_ok; [reflexivity|]. apply In_bind_l.
    rewrite Ht, Hd. simpl. rewrite !in_app_iff. do 3 right. left.
    apply in_map_iff. by exists (k, enc).
  - intros pre k enc post ps msg -> Hpre Hd.
    pose proof (decryptAll_first_failure w rid pre k enc post ps msg [] Hpre Hd) as Hfail.
    set (error := PlainError ("Failed to decrypt environment variable " +:+ quoted k
                              +:+ ": " +:+ msg)) in *.
    assert (Hcfg : resolveConfiguration w rid wf
                   = ((resolveConfiguration w rid wf).1, Throw error)).
    { rewrite <- (Hthrow error) by (by rewrite Hfail).
      by destruct (resolveConfiguration w rid wf). }
    pose proof (guarded_configuration_fails w rid (uuidv4 w) wf input _ _ Hcfg) as Hg.
    rewrite Hg. simpl. split; [done|split; [|split]].
    + right. rewrite Ht, Hfail. simpl. rewrite !in_app_iff. do 3 right. left.
      right. by left.
    + by apply silent_resolveConfiguration.
    + intros Hadd.
      rewrite (guarded_failure_handled w R wf rid input _ error Hadd Hg).
      unfold trace_of, outcome_of; simpl. split.
      * do 5 right. rewrite !in_app_iff. left. right. right. by left.
      * done.
Qed.

Lemma C10_every_stored_variable_is_decrypted_witness :
  let w := demo_world false [("b1", [("prompt", JStr "Hello {{A}}")])]
             (Some (JObj [("A", JStr "enc:x"); ("UNUSED", JStr "garbled")]))
             (Returns demo_success) (Returns tt) in
  outcome_of (executeWorkflow w ∅ (demo_workflow JUndefined) "req" JUndefined)
  = Throw (PlainError ("Failed to decrypt environment variable " +:+ quoted "UNUSED"
                       +:+ ": Invalid encrypted value format")).
Proof.
  pose proof (C10_every_stored_variable_is_decrypted
    (demo_world false [("b1", [("prompt", JStr "Hello {{A}}")])]
       (Some (JObj [("A", JStr "enc:x"); ("UNUSED", JStr "garbled")]))
       (Returns demo_success) (Returns tt))
    ∅ (demo_workflow JUndefined) "req" JUndefined
    [Log LDebug "[req] Loading workflow wf from normalized tables"; LoadWorkflow "wf";
     Log LInfo "[req] Using normalized tables for workflow execution: wf"]
    [SelectEnvironment "user"] [Decrypt "enc:x"]
    demo_state [("b1", [("prompt", JStr "Hello {{A}}")])]
    [("b1", [("prompt", JStr "Hello x")])]
    [("A", "enc:x"); ("UNUSED", "garbled")]
    eq_refl eq_refl eq_refl eq_refl) as [_ Hfail].
  destruct (Hfail [("A", "enc:x")] "UNUSED" "garbled" [] [("A", "x")]
              "Invalid encrypted value format" eq_refl eq_refl eq_refl)
    as (_ & _ & _ & Hrun).
  destruct Hrun as [_ Hout].
  - vm_compute. find_event.
  - exact Hout.
Defined.

(** ** A call that runs alone

    Resumed again and again with no other call in between, a task goes
    through exactly the log, the outcome and the registry of
    [executeWorkflow]. *)

Lemma next_segment_some pending seg rest :
  Sched.next_segment pending = (seg, Some rest) →
  pending = seg ++ rest ∧ (List.length rest < List.length pending)%nat.
Proof.
  revert seg. induction pending as [|e pending IH]; intros seg; simpl; [done|].
  destruct (Sched.awaited e).
  - intros [= <- <-]. simpl. split; [done|lia].
  - destruct (Sched.next_segment pending) as [seg' [rest'|]]; intros [= <- <-].
    destruct (IH seg' eq_refl) as [-> Hlen]. simpl. split; [done|lia].
Qed.

Lemma next_segment_none pending seg :
  Sched.next_segment pending = (seg, None) → pending = seg.
Proof.
  revert seg. induction pending as [|e pending IH]; intros seg; simpl.
  - by intros [= <-].
  - destruct (Sched.awaited e); [done|].
    destruct (Sched.next_segment pending) as [seg' [rest'|]]; intros [= <-].
    by rewrite (IH seg' eq_refl).
Qed.

Lemma schedule_cons w c i order :
  Sched.schedule w c (i :: order) = Sched.schedule w (Sched.step w c i) order.
Proof. reflexivity. Qed.

Lemma Sched_step_in_try w R t h pending out :
  Sched.pc t = Sched.InTry pending out →
  Sched.step w {| Sched.registry := R; Sched.tasks := [t]; Sched.history := h |} 0
  = match Sched.next_segment pending with
    | (seg, Some rest) =>
        {| Sched.registry := R;
           Sched.tasks := [Sched.at_pc t (Sched.InTry rest out)];
           Sched.history := h ++ map (pair 0%nat) seg |}
    | (seg, None) =>
        {| Sched.registry := R ∖ {[Sched.key t]};
           Sched.tasks := [Sched.at_pc t (Sched.Finished out)];
           Sched.history := h ++ map (pair 0%nat) (seg ++ [RegistryDelete (Sched.key t)]) |}
    end.
Proof.
  intros Hpc. unfold Sched.step, Sched.resume, Sched.advance; simpl. rewrite Hpc.
  by destruct (Sched.next_segment pending) as [seg [rest|]].
Qed.

Lemma Sched_drain w n :
  ∀ pending, (List.length pending ≤ n)%nat →
  ∀ R t out h,
    Sched.pc t = Sched.InTry pending out →
    ∃ m,
      Sched.schedule w
        {| Sched.registry := R; Sched.tasks := [t]; Sched.history := h |}
        (repeat 0%nat m)
      = {| Sched.registry := R ∖ {[Sched.key t]};
           Sched.tasks := [Sched.at_pc t (Sched.Finished out)];
           Sched.history :=
             h ++ map (pair 0%nat) (pending ++ [RegistryDelete (Sched.key t)]) |}.
Proof.
  induction n as [|n IH]; intros pending Hlen R t out h Hpc;
    pose proof (Sched_step_in_try w R t h pending out Hpc) as Hstep;
    destruct (Sched.next_segment pending) as [seg [rest|]] eqn:Hseg.
  - apply next_segment_some in Hseg as [_ ?]. lia.
  - pose proof (next_segment_none _ _ Hseg); subst seg. exists 1%nat.
    cbn [repeat]. by rewrite schedule_cons, Hstep.
  - pose proof (next_segment_some _ _ _ Hseg) as [-> Hrest].
    destruct (IH rest ltac:(lia) R (Sched.at_pc t (Sched.InTry rest out)) out
                (h ++ map (pair 0%nat) seg) eq_refl) as [m Hm].
    exists (S m). cbn [repeat]. rewrite schedule_cons, Hstep, Hm.
    unfold Sched.key, Sched.at_pc; simpl. f_equal.
    by rewrite !map_app, <- !app_assoc.
  - pose proof (next_segment_none _ _ Hseg); subst seg. exists 1%nat.
    cbn [repeat]. by rewrite schedule_cons, Hstep.
Qed.

Theorem Sched_alone_is_executeWorkflow (w : World) (R : gset string) (wf : Workflow)
    (rid : string) (input : JSValue) :
  ∃ m,
    Sched.schedule w
      {| Sched.registry := R; Sched.tasks := [Sched.call wf rid input];
         Sched.history := [] |}
      (repeat 0%nat m)
    = {| Sched.registry := registry_after (executeWorkflow w R wf rid input);
         Sched.tasks :=
           [Sched.at_pc (Sched.call wf rid input)
              (Sched.Finished (outcome_of (executeWorkflow w R wf rid input)))];
         Sched.history := map (pair 0%nat) (trace_of (executeWorkflow w R wf rid input)) |}.
Proof.
  unfold executeWorkflow, trace_of, outcome_of, registry_after.
  set (k := executionKeyOf (workflow_id wf) rid).
  set (c0 := {| Sched.registry := R; Sched.tasks := [Sched.call wf rid input];
                Sched.history := [] |}).
  case_bool_decide as Hk.
  { exists 1%nat. cbn [repeat]. rewrite schedule_cons. unfold Sched.step, Sched.resume; simpl.
    fold k. by rewrite bool_decide_eq_true_2. }
  assert (Hentry : Sched.step w c0 0
    = {| Sched.registry := R;
         Sched.tasks := [Sched.at_pc (Sched.call wf rid input) Sched.AwaitUsage];
         Sched.history := [(0%nat, UsageLookup (workflow_userId wf))] |}).
  { by rewrite (Sched_step_entry w c0 0 (Sched.call wf rid input) eq_refl eq_refl Hk). }
  destruct (checkServerSideUsageLimits w (workflow_userId wf)) as [u|msg] eqn:Hu.
  2:{ exists 2%nat. cbn [repeat]. rewrite !schedule_cons, Hentry.
      unfold Sched.step, Sched.resume; simpl. by rewrite Hu. }
  destruct (isExceeded u) eqn:Hex.
  { exists 2%nat. cbn [repeat]. rewrite !schedule_cons, Hentry.
    unfold Sched.step, Sched.resume; simpl. by rewrite Hu, Hex. }
  destruct (tryCatchSection w rid wf input) as [body out] eqn:Hbody. simpl.
  assert (Hadmit : ∀ h,
    Sched.step w
      {| Sched.registry := R;
         Sched.tasks := [Sched.at_pc (Sched.call wf rid input) Sched.AwaitUsage];
         Sched.history := h |} 0
    = Sched.step w
        {| Sched.registry := {[k]} ∪ R;
           Sched.tasks := [Sched.at_pc (Sched.call wf rid input) (Sched.InTry body out)];
           Sched.history := h ++ map (pair 0%nat) (enterSection rid k) |} 0).
  { intros h. unfold Sched.step, Sched.resume; simpl. rewrite Hu, Hex, Hbody.
    unfold Sched.advance. fold k.
    destruct (Sched.next_segment body) as [seg [rest|]]; simpl;
      by rewrite <- !app_assoc. }
  destruct (Sched_drain w (List.length body) body (le_n _) ({[k]} ∪ R)
              (Sched.at_pc (Sched.call wf rid input) (Sched.InTry body out)) out
              ([(0%nat, UsageLookup (workflow_userId wf))]
                 ++ map (pair 0%nat) (enterSection rid k)) eq_refl) as [m Hm].
  destruct m as [|m].
  { exfalso. cbn [repeat] in Hm. unfold Sched.schedule in Hm. simpl in Hm.
    by inversion Hm. }
  exists (S (S m)). cbn [repeat] in *. rewrite schedule_cons, Hentry.
  rewrite schedule_cons, Hadmit. rewrite schedule_cons in Hm. rewrite Hm.
  unfold Sched.key; simpl. fold k.
  f_equal; rewrite ?map_app; simpl; by rewrite <- ?app_assoc.
Qed.

(** ** Template substitution on clean plaintexts

    The two deviations of the code from the reference substitution come
    from the plaintext: dollar patterns, and text that forms a
    placeholder together with what surrounds it. When every stored
    ciphertext is non-empty and every plaintext is non-empty and free of
    braces and dollar signs, the code computes the reference result. *)

Section Strings.

#[local] Arguments String.append !s1 s2 : simpl nomatch.

Lemma append_assoc (a b c : string) : (a +:+ b) +:+ c = a +:+ b +:+ c.
Proof. induction a as [|x a IH]; simpl; [done|]. by rewrite IH. Qed.

Lemma append_nil_r (a : string) : a +:+ EmptyString = a.
Proof. induction a as [|x a IH]; simpl; [done|]. by rewrite IH. Qed.

Lemma length_append (a b : string) :
  String.length (a +:+ b) = (String.length a + String.length b)%nat.
Proof. induction a as [|x a IH]; simpl; [done|]. by rewrite IH. Qed.

Lemma prefix_append (a t : string) : String.prefix a (a +:+ t) = true.
Proof.
  induction a as [|x a IH]; simpl; [by destruct t|].
  by destruct (ascii_dec x x).
Qed.

Lemma prefix_split (a t : string) : String.prefix a t = true → ∃ r, t = a +:+ r.
Proof.
  revert t. induction a as [|x a IH]; intros t; simpl.
  - intros _. by exists t.
  - destruct t as [|y t]; [done|]. simpl.
    destruct (ascii_dec x y) as [->|]; [|done].
    intros [r ->]%IH. by exists r.
Qed.

Lemma substring_all (t : string) : String.substring 0 (String.length t) t = t.
Proof. induction t as [|x t IH]; simpl; [done|]. by rewrite IH. Qed.

Lemma substring_prefix (a b : string) : String.substring 0 (String.length a) (a +:+ b) = a.
Proof.
  induction a as [|x a IH]; simpl; [by destruct b|]. by rewrite IH.
Qed.

Lemma substring_drop (a t : string) (m : nat) :
  String.substring (String.length a) m (a +:+ t) = String.substring 0 m t.
Proof. induction a as [|x a IH]; simpl; [done|]. by rewrite IH. Qed.

Lemma includes_prefix (x t : string) : String.prefix x t = true → includes x t = true.
Proof. destruct t; simpl; [done|]. by intros ->. Qed.

Lemma includes_append (x a r : string) : includes x (a +:+ x +:+ r) = true.
Proof.
  induction a as [|c a IH]; simpl.
  - apply includes_prefix, prefix_append.
  - rewrite IH. by rewrite orb_true_r.
Qed.

(** The name of a placeholder. *)
Lemma span_name_spec (t a b : string) :
  span_name t = (a, b) →
  t = a +:+ b ∧ no_close a = true ∧ (b = EmptyString ∨ ∃ b', b = String "}" b').
Proof.
  revert a. induction t as [|c t IH]; intros a; simpl.
  - intros [= <- <-]. auto.
  - destruct (Ascii.eqb c "}") eqn:Hc.
    + intros [= <- <-]. apply Ascii.eqb_eq in Hc as ->. simpl. eauto.
    + destruct (span_name t) as [a' b']. intros [= <- <-].
      destruct (IH a' eq_refl) as (-> & Ha & Hb). simpl. by rewrite Hc, Ha.
Qed.

Lemma span_name_no_close (a t : string) :
  no_close a = true →
  span_name (a +:+ t) = (a +:+ (span_name t).1, (span_name t).2).
Proof.
  induction a as [|c a IH]; simpl.
  - intros _. by destruct (span_name t).
  - intros [Hc Ha]%andb_prop. apply negb_true_iff in Hc. rewrite Hc, (IH Ha). done.
Qed.

Lemma span_name_at_close (a t : string) :
  no_close a = true → span_name (a +:+ String "}" t) = (a, String "}" t).
Proof.
  intros Ha. rewrite (span_name_no_close _ _ Ha). simpl. by rewrite append_nil_r.
Qed.

Lemma close_cases (o : string) :
  no_close o = true ∨ ∃ a b, o = a +:+ String "}" b ∧ no_close a = true.
Proof.
  induction o as [|c o IH]; simpl; [by left|].
  destruct (Ascii.eqb c "}") eqn:Hc.
  - apply Ascii.eqb_eq in Hc as ->. right. by exists EmptyString, o.
  - destruct IH as [->|(a & b & -> & Ha)]; [by left|].
    right. exists (String c a), b. simpl. by rewrite Hc, Ha.
Qed.

Lemma no_close_append (a b : string) :
  no_close (a +:+ b) = no_close a && no_close b.
Proof. induction a as [|c a IH]; simpl; [done|]. by rewrite IH, andb_assoc. Qed.

(** One attempt of the pattern. *)
Lemma match_here_intro (name r : string) :
  name ≠ EmptyString → no_close name = true →
  match_here ("{{" +:+ name +:+ "}}" +:+ r) = Some name.
Proof.
  intros Hne Hnc. simpl.
  rewrite (span_name_at_close name _ Hnc). by destruct name.
Qed.

Lemma match_here_elim (s name : string) :
  match_here s = Some name →
  name ≠ EmptyString ∧ no_close name = true ∧ ∃ r, s = "{{" +:+ name +:+ "}}" +:+ r.
Proof.
  unfold match_here. destruct s as [|a [|b rest]]; try done.
  destruct (Ascii.eqb a "{") eqn:Ha; [|done]. destruct (Ascii.eqb b "{") eqn:Hb; [|done].
  simpl. destruct (span_name rest) as [[|n nm] tl] eqn:Hspan; [done|].
  destruct tl as [|e1 [|e2 tl]]; try done.
  destruct (Ascii.eqb e1 "}") eqn:H1; [|done]. destruct (Ascii.eqb e2 "}") eqn:H2; [|done].
  simpl. intros [= <-].
  apply Ascii.eqb_eq in Ha as ->. apply Ascii.eqb_eq in Hb as ->.
  apply Ascii.eqb_eq in H1 as ->. apply Ascii.eqb_eq in H2 as ->.
  destruct (span_name_spec _ _ _ Hspan) as (-> & Hnc & _).
  split; [done|]. split; [done|]. exists tl. simpl. done.
Qed.

(** Scanning past a match. *)
Lemma match_all_skip (a t : string) :
  match_all (String.length a) (a +:+ t) = match_all 0 t.
Proof. induction a as [|c a IH]; simpl; [done|]. exact IH. Qed.

Lemma reference_scan_skip plain (a t : string) :
  reference_scan plain (String.length a) (a +:+ t) = reference_scan plain 0 t.
Proof. induction a as [|c a IH]; simpl; [done|]. exact IH. Qed.

Lemma match_all_at_match (name r : string) :
  name ≠ EmptyString → no_close name = true →
  match_all 0 ("{{" +:+ name +:+ "}}" +:+ r)
  = ("{{" +:+ name +:+ "}}") :: match_all 0 r.
Proof.
  intros Hne Hnc.
  change (match_all 0 ("{{" +:+ name +:+ "}}" +:+ r))
    with (match match_here ("{{" +:+ name +:+ "}}" +:+ r) with
          | Some n => ("{{" +:+ n +:+ "}}")
                        :: match_all (String.length n + 3) ("{" +:+ name +:+ "}}" +:+ r)
          | None => match_all 0 ("{" +:+ name +:+ "}}" +:+ r)
          end).
  rewrite (match_here_intro name r Hne Hnc). f_equal.
  rewrite <- (match_all_skip ("{" +:+ name +:+ "}}") r).
  rewrite <- append_assoc. f_equal.
  - simpl. rewrite length_append. simpl. lia.
  - by rewrite !append_assoc.
Qed.

Lemma reference_scan_at_match plain (name r : string) :
  name ≠ EmptyString → no_close name = true →
  reference_scan plain 0 ("{{" +:+ name +:+ "}}" +:+ r)
  = match lookup_prop name plain with
    | Some plaintext =>
        resolution_map (String.append plaintext) (reference_scan plain 0 r)
    | None => UnknownVariable name
    end.
Proof.
  intros Hne Hnc.
  change (reference_scan plain 0 ("{{" +:+ name +:+ "}}" +:+ r))
    with (match match_here ("{{" +:+ name +:+ "}}" +:+ r) with
          | Some n =>
              match lookup_prop n plain with
              | Some plaintext =>
                  resolution_map (String.append plaintext)
                    (reference_scan plain (String.length n + 3)
                       ("{" +:+ name +:+ "}}" +:+ r))
              | None => UnknownVariable n
              end
          | None =>
              resolution_map (String "{")
                (reference_scan plain 0 ("{" +:+ name +:+ "}}" +:+ r))
          end).
  rewrite (match_here_intro name r Hne Hnc).
  destruct (lookup_prop name plain); [|done]. f_equal.
  rewrite <- (reference_scan_skip plain ("{" +:+ name +:+ "}}") r).
  rewrite <- append_assoc. f_equal.
  - simpl. rewrite length_append. simpl. lia.
  - by rewrite !append_assoc.
Qed.

Lemma slice_of_match (name : string) : slice_2_m2 ("{{" +:+ name +:+ "}}") = name.
Proof.
  unfold slice_2_m2. simpl. rewrite length_append. simpl.
  replace (String.length name + 2 - 2)%nat with (String.length name) by lia.
  apply substring_prefix.
Qed.

(** The first occurrence of the matched text. *)
Lemma split_first_past (m out t : string) :
  (∀ o1 o2 c, out = o1 +:+ String c o2 → String.prefix m (String c o2 +:+ t) = false) →
  String.prefix m t = true →
  split_first m (out +:+ t)
  = Some (out, String.substring (String.length m) (String.length t - String.length m) t).
Proof.
  intros Hout Ht. induction out as [|c out IH]; simpl.
  - destruct t; simpl in *; by rewrite Ht.
  - pose proof (Hout EmptyString out c eq_refl) as Hhere. simpl in Hhere.
    rewrite Hhere. rewrite IH; [done|].
    intros o1 o2 c' ->. apply (Hout (String c o1) o2 c'). done.
Qed.

Lemma plain_text_no_dollar p : plain_text p = true → no_dollar p = true.
Proof.
  induction p as [|c p IH]; simpl; [done|].
  unfold plain_char. intros [[[_ _]%andb_prop Hd]%andb_prop Hp]%andb_prop.
  by rewrite Hd, IH.
Qed.

(** Text in which no placeholder starts. *)
Lemma safe_app (a b s : string) : safe (a +:+ b) s ↔ safe a (b +:+ s) ∧ safe b s.
Proof.
  induction a as [|c a IH]; simpl; [tauto|].
  rewrite IH, append_assoc. tauto.
Qed.

Lemma safe_suffix (out s o1 o2 : string) c :
  safe out s → out = o1 +:+ String c o2 → match_here (String c o2 +:+ s) = None.
Proof.
  intros Hs ->. apply safe_app in Hs as [_ Hs]. simpl in Hs. tauto.
Qed.

Lemma safe_plain (p s : string) : plain_text p = true → safe p s.
Proof.
  induction p as [|c p IH]; simpl; [done|].
  intros [Hc Hp]%andb_prop. split; [|by apply IH].
  unfold plain_char in Hc. apply andb_prop in Hc as [[Hc _]%andb_prop _].
  apply negb_true_iff in Hc. unfold match_here.
  destruct (p +:+ s); [done|]. by rewrite Hc.
Qed.

(** Replacing the match after [o] by clean text does not create a
    placeholder that starts in [o]. *)
Lemma match_here_after_replacement (o name p r : string) c :
  name ≠ EmptyString → no_close name = true → clean p = true →
  match_here (String c o +:+ ("{{" +:+ name +:+ "}}") +:+ r) = None →
  match_here (String c o +:+ p +:+ r) = None.
Proof.
  intros Hne Hnc Hclean Hold.
  replace (("{{" +:+ name +:+ "}}") +:+ r) with ("{{" +:+ name +:+ "}}" +:+ r) in Hold
    by (by rewrite !append_assoc).
  unfold clean in Hclean. apply andb_prop in Hclean as [Hp0 Hp].
  destruct p as [|c0 p]; [done|]. simpl in Hp.
  apply andb_prop in Hp as [Hc0 _]. unfold plain_char in Hc0.
  apply andb_prop in Hc0 as [[Hopen Hclose]%andb_prop _].
  apply negb_true_iff in Hopen. apply negb_true_iff in Hclose.
  destruct o as [|c2 o].
  - simpl. by rewrite Hopen, andb_false_r.
  - simpl in *. destruct (Ascii.eqb c "{" && Ascii.eqb c2 "{"); [|done].
    destruct (close_cases o) as [Ho|(a & b & -> & Ha)].
    + exfalso. rewrite (span_name_no_close _ _ Ho) in Hold. simpl in Hold.
      rewrite (span_name_at_close name _ Hnc) in Hold. simpl in Hold.
      destruct name; [done|]. by destruct o.
    + rewrite append_assoc in Hold |- *. simpl in Hold |- *.
      rewrite (span_name_at_close a _ Ha) in Hold.
      rewrite (span_name_at_close a _ Ha).
      destruct a as [|n a]; [done|].
      destruct b as [|cb b]; simpl in *; [|done].
      by rewrite Hclose.
Qed.

Lemma safe_after_replacement (out name p r : string) :
  name ≠ EmptyString → no_close name = true → clean p = true →
  safe out (("{{" +:+ name +:+ "}}") +:+ r) →
  safe (out +:+ p) r.
Proof.
  intros Hne Hnc Hclean Hs. apply safe_app. split.
  - induction out as [|c out IH]; simpl in *; [done|].
    destruct Hs as [Hhere Hs]. split; [|by apply IH].
    by apply (match_here_after_replacement out name p r c).
  - apply safe_plain. unfold clean in Hclean. by apply andb_prop in Hclean as [_ ?].
Qed.

(** Variables and their plaintexts. *)
Lemma resolve_all_lookup w vars plain k :
  resolve_all w vars = Some plain →
  match lookup_prop k vars with
  | None => lookup_prop k plain = None
  | Some enc => ∃ p, decryptSecret w enc = Returns p ∧ lookup_prop k plain = Some p
  end.
Proof.
  revert plain. induction vars as [|[k' enc] vars IH]; intros plain; simpl.
  - by intros [= <-].
  - destruct (decryptSecret w enc) as [p|] eqn:Hd; [|done].
    destruct (resolve_all w vars) as [ps|]; [|done]. intros [= <-]. simpl.
    destruct (String.eqb k k'); [by exists p|]. by apply IH.
Qed.

End Strings.

Section Agreement.

#[local] Arguments String.append !s1 s2 : simpl nomatch.

Variable w : World.
Variable rid : string.
Variables vars plain : list (string * string).
Hypothesis Hplain : resolve_all w vars = Some plain.
Hypothesis Hstored : ∀ k, lookup_prop k vars ≠ Some EmptyString.
Hypothesis Hclean : ∀ k p, lookup_prop k plain = Some p → clean p = true.

Lemma replace_at_match out name p r :
  name ≠ EmptyString → no_close name = true → clean p = true →
  safe out (("{{" +:+ name +:+ "}}") +:+ r) →
  replace (out +:+ ("{{" +:+ name +:+ "}}") +:+ r) ("{{" +:+ name +:+ "}}") p
  = (out +:+ p) +:+ r.
Proof.
  intros Hne Hnc Hp Hsafe. unfold replace.
  rewrite split_first_past.
  - rewrite substring_drop.
    replace (String.length (("{{" +:+ name +:+ "}}") +:+ r)
             - String.length ("{{" +:+ name +:+ "}}"))%nat
      with (String.length r) by (rewrite length_append; lia).
    rewrite substring_all, GetSubstitution_no_dollar, append_assoc; [done|].
    apply plain_text_no_dollar. unfold clean in Hp. by apply andb_prop in Hp as [_ ?].
  - intros o1 o2 c Hout.
    destruct (String.prefix _ _) eqn:Hpre; [|done]. exfalso.
    apply prefix_split in Hpre as [r' Hr'].
    pose proof (safe_suffix _ _ _ _ _ Hsafe Hout) as Hnone.
    rewrite Hr', append_assoc, append_assoc in Hnone.
    by rewrite (match_here_intro name r' Hne Hnc) in Hnone.
  - apply prefix_append.
Qed.

Lemma replaceMatches_agrees n :
  ∀ s, (String.length s ≤ n)%nat →
  ∀ out, safe out s →
    (replaceMatches w rid vars (match_all 0 s) (out +:+ s)).2
    = expected out (reference_scan plain 0 s).
Proof.
  induction n as [|n IH]; intros s Hlen out Hsafe.
  { destruct s; simpl in Hlen; [|lia]. simpl. by rewrite append_nil_r. }
  destruct s as [|c rest]; [simpl; by rewrite append_nil_r|].
  destruct (match_here (String c rest)) as [name|] eqn:Hhere.
  - destruct (match_here_elim _ _ Hhere) as (Hne & Hnc & r & Hs).
    rewrite Hs in *. clear Hs Hhere.
    rewrite (match_all_at_match name r Hne Hnc).
    rewrite (reference_scan_at_match plain name r Hne Hnc).
    cbn [replaceMatches]. rewrite slice_of_match.
    pose proof (resolve_all_lookup w vars plain name Hplain) as Hlook.
    destruct (lookup_prop name vars) as [enc|] eqn:Hvar.
    + destruct Hlook as (p & Hdec & Hp). rewrite Hp.
      destruct enc as [|c0 enc]; [by destruct (Hstored name)|].
      unfold bind at 1, try_catch, bind at 1, await, ret. rewrite Hdec.
      replace (out +:+ "{{" +:+ name +:+ "}}" +:+ r)
        with (out +:+ ("{{" +:+ name +:+ "}}") +:+ r) by (by rewrite !append_assoc).
      rewrite replace_at_match; [|done|done|by eapply Hclean|].
      2:{ by rewrite !append_assoc. }
      assert (Hr : (String.length r ≤ n)%nat).
      { simpl in Hlen. rewrite !length_append in Hlen. simpl in Hlen. lia. }
      pose proof (IH r Hr (out +:+ p)
                    (safe_after_replacement out name p r Hne Hnc (Hclean _ _ Hp)
                       ltac:(by rewrite !append_assoc))) as Hrec.
      destruct (replaceMatches w rid vars (match_all 0 r) ((out +:+ p) +:+ r)) as [t res].
      simpl in *. rewrite Hrec.
      destruct (reference_scan plain 0 r); simpl; [|done]. by rewrite append_assoc.
    + by rewrite Hlook.
  - change (match_all 0 (String c rest)) with
      (match match_here (String c rest) with
       | Some name => ("{{" +:+ name +:+ "}}") :: match_all (String.length name + 3) rest
       | None => match_all 0 rest
       end).
    change (reference_scan plain 0 (String c rest)) with
      (match match_here (String c rest) with
       | Some name =>
           match lookup_prop name plain with
           | Some plaintext =>
               resolution_map (String.append plaintext)
                 (reference_scan plain (String.length name + 3) rest)
           | None => UnknownVariable name
           end
       | None => resolution_map (String c) (reference_scan plain 0 rest)
       end).
    rewrite Hhere.
    assert (Hr : (String.length rest ≤ n)%nat) by (simpl in Hlen; lia).
    assert (Hsafe' : safe (out +:+ String c EmptyString) rest).
    { apply safe_app. split; [done|]. simpl. by split. }
    pose proof (IH rest Hr _ Hsafe') as Hrec.
    rewrite append_assoc in Hrec. simpl in Hrec. rewrite Hrec.
    destruct (reference_scan plain 0 rest); simpl; [|done].
    by rewrite append_assoc.
Qed.

Lemma match_all_none_reference s :
  match_all 0 s = [] → reference_scan plain 0 s = Resolved s.
Proof.
  induction s as [|c rest IH]; [done|].
  change (match_all 0 (String c rest)) with
    (match match_here (String c rest) with
     | Some name => ("{{" +:+ name +:+ "}}") :: match_all (String.length name + 3) rest
     | None => match_all 0 rest
     end).
  change (reference_scan plain 0 (String c rest)) with
    (match match_here (String c rest) with
     | Some name =>
         match lookup_prop name plain with
         | Some plaintext =>
             resolution_map (String.append plaintext)
               (reference_scan plain (String.length name + 3) rest)
         | None => UnknownVariable name
         end
     | None => resolution_map (String c) (reference_scan plain 0 rest)
     end).
  destruct (match_here (String c rest)); [done|]. intros H. by rewrite (IH H).
Qed.

Lemma match_all_occurrence k s :
  match_all k s ≠ [] → ∃ a name r, s = a +:+ "{{" +:+ name +:+ "}}" +:+ r.
Proof.
  revert k. induction s as [|c rest IH]; intros k; [done|].
  destruct k as [|k].
  - change (match_all 0 (String c rest)) with
      (match match_here (String c rest) with
       | Some name => ("{{" +:+ name +:+ "}}") :: match_all (String.length name + 3) rest
       | None => match_all 0 rest
       end).
    destruct (match_here (String c rest)) as [name|] eqn:Hhere.
    + intros _. destruct (match_here_elim _ _ Hhere) as (_ & _ & r & ->).
      by exists EmptyString, name, r.
    + intros (a & name & r & ->)%IH. by exists (String c a), name, r.
  - simpl. intros (a & name & r & ->)%IH. by exists (String c a), name, r.
Qed.

Lemma match_all_guard s :
  match_all 0 s ≠ [] → includes "{{" s && includes "}}" s = true.
Proof.
  intros (a & name & r & ->)%match_all_occurrence. apply andb_true_intro. split.
  - apply includes_append.
  - replace (a +:+ "{{" +:+ name +:+ "}}" +:+ r)
      with ((a +:+ "{{" +:+ name) +:+ "}}" +:+ r) by (by rewrite !append_assoc).
    apply includes_append.
Qed.

(** Where the plaintexts are clean the code and the reference
    substitution agree on every value: same text, or the same missing
    variable named. *)
Theorem substituteValue_agrees_on_clean_plaintexts s :
  (substituteValue w rid vars (JStr s)).2
  = match reference_substitute plain s with
    | Resolved r => Ok (JStr r)
    | UnknownVariable n => Throw (not_found n)
    end.
Proof.
  unfold substituteValue, matchPlaceholders, reference_substitute.
  destruct (match_all 0 s) as [|m ms] eqn:Hms.
  - rewrite (match_all_none_reference s Hms). by destruct (_ && _).
  - rewrite match_all_guard by (by rewrite Hms).
    pose proof (replaceMatches_agrees (String.length s) s (le_n _) EmptyString I) as H.
    rewrite Hms in H. change (EmptyString +:+ s) with s in H.
    unfold bind, ret.
    destruct (replaceMatches w rid vars (m :: ms) s) as [t [v|e]];
      destruct (reference_scan plain 0 s); simpl in *; congruence.
Qed.

End Agreement.

(** C3. Where every stored ciphertext is non-empty and every plaintext
    is non-empty and free of braces and dollar signs, the code yields
    exactly the reference result of the left-to-right, non-recursive
    substitution, or fails naming the first missing variable. It does
    not do so for every variable mapping: [String.prototype.replace]
    expands dollar patterns of the plaintext ([pa$$word] is inserted as
    [pa$word]) and replaces the first occurrence in the value as
    rewritten so far, so a plaintext that spells a later placeholder, or
    completes one with the text around it, is substituted while the real
    placeholder stays. *)
Theorem C3_substitution_against_reference :
  (∀ (w : World) (rid : string) (vars plain : list (string * string)) (s : string),
     resolve_all w vars = Some plain →
     (∀ k, lookup_prop k vars ≠ Some EmptyString) →
     (∀ k p, lookup_prop k plain = Some p → clean p = true) →
     (substituteValue w rid vars (JStr s)).2
     = match reference_substitute plain s with
       | Resolved r => Ok (JStr r)
       | UnknownVariable n => Throw (not_found n)
       end) ∧
  (let w := demo_world false [] None (Returns demo_success) (Returns tt) in
   (substituteValue w "req" [("A", "enc:pa$$word")] (JStr "{{A}}")
    = ([Decrypt "enc:pa$$word"], Ok (JStr "pa$word")) ∧
    reference_substitute [("A", "pa$$word")] "{{A}}" = Resolved "pa$$word") ∧
   (substituteValue w "req" [("A", "enc:{{B}}"); ("B", "enc:y")] (JStr "{{A}} {{B}}")
    = ([Decrypt "enc:{{B}}"; Decrypt "enc:y"], Ok (JStr "y {{B}}")) ∧
    reference_substitute [("A", "{{B}}"); ("B", "y")] "{{A}} {{B}}" = Resolved "{{B}} y") ∧
   (substituteValue w "req" [("X", "enc:}"); ("a", "enc:v")] (JStr "{{a}{{X}} {{a}}")
    = ([Decrypt "enc:}"; Decrypt "enc:v"], Ok (JStr "v {{a}}")) ∧
    reference_substitute [("X", "}"); ("a", "v")] "{{a}{{X}} {{a}}" = Resolved "{{a}} v") ∧
   (substituteValue w "req" [("X", "enc:"); ("a", "enc:v")] (JStr "{{a}{{X}}} {{a}}")
    = ([Decrypt "enc:"; Decrypt "enc:v"], Ok (JStr "v {{a}}")) ∧
    reference_substitute [("X", EmptyString); ("a", "v")] "{{a}{{X}}} {{a}}"
    = Resolved "{{a}} v")).
Proof.
  split.
  - intros w rid vars plain s Hplain Hstored Hclean.
    by apply substituteValue_agrees_on_clean_plaintexts.
  - vm_compute. repeat split.
Qed.

Lemma C3_substitution_against_reference_witness :
  let w := demo_world false [] None (Returns demo_success) (Returns tt) in
  (substituteValue w "req" [("A", "enc:x"); ("B", "enc:y")] (JStr "{{A}} and {{B}}")).2
  = Ok (JStr "x and y") ∧
  (substituteValue w "req" [("A", "enc:x")] (JStr "{{A}} and {{B}}")).2
  = Throw (PlainError ("Environment variable " +:+ quoted "B" +:+ " was not found")).
Proof.
  split.
  - rewrite (proj1 C3_substitution_against_reference _ "req" _ [("A", "x"); ("B", "y")]).
    + reflexivity.
    + reflexivity.
    + intros k. simpl. by repeat case_match.
    + intros k p. simpl. repeat case_match; by intros [= <-].
  - rewrite (proj1 C3_substitution_against_reference _ "req" _ [("A", "x")]).
    + reflexivity.
    + reflexivity.
    + intros k. simpl. by repeat case_match.
    + intros k p. simpl. repeat case_match; by intros [= <-].
Defined.

(* ================================================================== *)
(** * Further properties of the route *)

(** ** The registry is left as it was found *)

Lemma difference_union_fresh (k : string) (R : gset string) :
  k ∉ R → ({[k]} ∪ R) ∖ {[k]} = R.
Proof. intros Hk. apply set_eq. intros x. rewrite elem_of_difference, elem_of_union, !elem_of_singleton.
  split; [by intros [[->|?] ?]|]. intros Hx. split; [by right|]. by intros ->. Qed.

Lemma executeWorkflow_keeps_registry (w : World) (R : gset string) (wf : Workflow)
    (rid : string) (input : JSValue) :
  registry_after (executeWorkflow w R wf rid input) = R.
Proof.
  unfold executeWorkflow, registry_after. case_bool_decide as Hk; [done|].
  destruct (checkServerSideUsageLimits w _) as [u|?]; [|done].
  destruct (isExceeded u); [done|].
  destruct (tryCatchSection w rid wf input). simpl. by apply difference_union_fresh.
Qed.

Lemma executeAndRespond_registry w h R id rid wf input before :
  registry_after (executeAndRespond w h R id rid wf input before)
  = registry_after (executeWorkflow w R wf rid input).
Proof.
  unfold executeAndRespond.
  destruct (executeWorkflow w R wf rid input) as [[t [r|e]] R']; [done|].
  by destruct (respondToError rid id e).
Qed.

Lemma executeAndRespond_outcome w h R id rid wf input before :
  outcome_of (executeAndRespond w h R id rid wf input before)
  = match outcome_of (executeWorkflow w R wf rid input) with
    | Ok result => respondToResult h result
    | Throw error => (respondToError rid id error).2
    end.
Proof.
  unfold executeAndRespond.
  destruct (executeWorkflow w R wf rid input) as [[t [r|e]] R']; [done|].
  reflexivity.
Qed.

Lemma executeAndRespond_trace w h R id rid wf input before :
  trace_of (executeAndRespond w h R id rid wf input before)
  = before ++ trace_of (executeWorkflow w R wf rid input)
    ++ match outcome_of (executeWorkflow w R wf rid input) with
       | Ok _ => []
       | Throw error => (respondToError rid id error).1
       end.
Proof.
  unfold executeAndRespond.
  destruct (executeWorkflow w R wf rid input) as [[t [r|e]] R']; unfold trace_of, outcome_of; simpl.
  - by rewrite app_nil_r.
  - done.
Qed.

(** X1. Whatever happens, the handlers leave the registry as they found it. *)
Theorem handlers_leave_registry_unchanged (w : World) (h : Http) (R : gset string)
    (id : string) :
  registry_after (GET w h R id) = R ∧ registry_after (POST w h R id) = R ∧
  ∀ wf rid input, registry_after (executeWorkflow w R wf rid input) = R.
Proof.
  split; [|split]; [| |intros; apply executeWorkflow_keeps_registry].
  - unfold GET. destruct (validateWorkflowAccess h id) as [[m s|wf]|msg]; try done.
    by rewrite executeAndRespond_registry, executeWorkflow_keeps_registry.
  - unfold POST. destruct (validateWorkflowAccess h id) as [[m s|wf]|msg]; try done.
    destruct (request_text h) as [bodyText|msg]; [|done].
    destruct (blank bodyText).
    + simpl. by rewrite executeAndRespond_registry, executeWorkflow_keeps_registry.
    + destruct (JSON_parse w bodyText) as [body|msg]; [|done].
      destruct (keys_length body) as [t [n|e]]; [|done].
      by rewrite executeAndRespond_registry, executeWorkflow_keeps_registry.
Qed.

(** ** Errors thrown inside the guarded section are plain *)

Lemma plain_ret {A} (a : A) : plain (ret a).
Proof. by intros e. Qed.

Lemma plain_throw {A} msg : plain (@throw A (PlainError msg)).
Proof. by intros e [= <-]. Qed.

Lemma plain_call {A} (r : Ext A) : plain (call r).
Proof. destruct r; intros e; [done|]. by intros [= <-]. Qed.

Lemma plain_await {A} ev (r : Ext A) : plain (await ev r).
Proof. destruct r; intros e; [done|]. by intros [= <-]. Qed.

Lemma plain_emit ev : plain (emit ev).
Proof. by intros e. Qed.

Lemma plain_bind {A B} (m : W A) (f : A → W B) :
  plain m → (∀ a, plain (f a)) → plain (bind m f).
Proof.
  intros Hm Hf e. destruct m as [t [a|e']]; unfold bind.
  - specialize (Hf a). destruct (f a) as [t' r]. simpl. exact (Hf e).
  - simpl. intros [= <-]. exact (Hm e' eq_refl).
Qed.

Lemma plain_try_catch {A} (m : W A) (h : JSError → W A) :
  plain m → (∀ e, is_usage_limit e = false → plain (h e)) → plain (try_catch m h).
Proof.
  intros Hm Hh e. destruct m as [t [a|e']]; unfold try_catch; [done|].
  specialize (Hh e' (Hm e' eq_refl)). destruct (h e') as [t' r]. simpl. exact (Hh e).
Qed.

Lemma plain_get_prop v k : plain (get_prop v k).
Proof. destruct v; simpl; try apply plain_ret; apply plain_throw. Qed.

Lemma plain_replaceMatches w rid vars ms value : plain (replaceMatches w rid vars ms value).
Proof.
  revert value. induction ms as [|m ms IH]; intros value; simpl; [apply plain_ret|].
  destruct (lookup_prop _ vars) as [[|c enc]|]; try apply plain_throw.
  apply plain_bind; [|intros; apply IH].
  apply plain_try_catch.
  - apply plain_bind; [apply plain_await|intros; apply plain_ret].
  - intros e _. apply plain_bind; [apply plain_emit|intros; apply plain_throw].
Qed.

Lemma plain_substituteValue w rid vars v : plain (substituteValue w rid vars v).
Proof.
  destruct v; simpl; try apply plain_ret.
  destruct (_ && _); [|apply plain_ret].
  destruct (matchPlaceholders s); [|apply plain_ret].
  apply plain_bind; [apply plain_replaceMatches|intros; apply plain_ret].
Qed.

Lemma plain_resolveSubBlocks w rid vars entries acc :
  plain (resolveSubBlocks w rid vars entries acc).
Proof.
  revert acc. induction entries as [|[k v] rest IH]; intros acc; simpl; [apply plain_ret|].
  apply plain_bind; [apply plain_substituteValue|intros; apply IH].
Qed.

Lemma plain_resolveBlocks w rid vars entries acc :
  plain (resolveBlocks w rid vars entries acc).
Proof.
  revert acc. induction entries as [|[k v] rest IH]; intros acc; simpl; [apply plain_ret|].
  apply plain_bind; [apply plain_resolveSubBlocks|intros; apply IH].
Qed.

Lemma plain_decryptAll w rid entries acc : plain (decryptAll w rid entries acc).
Proof.
  revert acc. induction entries as [|[k v] rest IH]; intros acc; simpl; [apply plain_ret|].
  apply plain_bind; [|intros; apply IH].
  apply plain_try_catch; [apply plain_await|].
  intros e _. apply plain_bind; [apply plain_emit|intros; apply plain_throw].
Qed.

Lemma processBlockStates_returns w rid entries acc :
  ∃ out, (processBlockStates w rid entries acc).2 = Ok out.
Proof.
  revert acc. induction entries as [|[k st] rest IH]; intros acc; simpl; [by eexists|].
  destruct (lookup_prop _ st) as [[| | | |[|c text]| |]|]; try apply IH.
  unfold bind, emit.
  destruct (JSON_parse w _).
  - destruct (IH (set_prop k (set_prop "responseFormat" a st) acc)) as [out Hout].
    destruct (processBlockStates _ _ _ _). simpl in *. eauto.
  - destruct (IH (set_prop k st acc)) as [out Hout].
    destruct (processBlockStates _ _ _ _). simpl in *. eauto.
Qed.

Lemma plain_processBlockStates w rid entries acc : plain (processBlockStates w rid entries acc).
Proof.
  intros e He. destruct (processBlockStates_returns w rid entries acc) as [out Hout]. congruence.
Qed.

Lemma plain_loadState w rid wf : plain (loadState w rid wf).
Proof.
  unfold loadState. apply plain_bind; [apply plain_emit|intros _].
  apply plain_bind; [apply plain_await|intros [data|]].
  - apply plain_bind; [apply plain_emit|intros; apply plain_ret].
  - apply plain_bind; [apply plain_emit|intros _].
    destruct (deployedState wf); [apply plain_ret|apply plain_throw].
Qed.

Lemma plain_loadVariables w rid wf : plain (loadVariables w rid wf).
Proof.
  unfold loadVariables. apply plain_bind; [apply plain_await|intros env].
  apply plain_bind; [destruct env; [apply plain_ret|apply plain_emit]|intros _].
  unfold EnvVarsSchema_parse.
  destruct (variables_or_empty env); try apply plain_throw.
  destruct (record_of_strings props); [apply plain_ret|apply plain_throw].
Qed.

Lemma plain_resolveConfiguration w rid wf : plain (resolveConfiguration w rid wf).
Proof.
  unfold resolveConfiguration.
  apply plain_bind; [apply plain_loadState|intros state].
  apply plain_bind; [apply plain_call|intros merged].
  apply plain_bind; [apply plain_loadVariables|intros vars].
  apply plain_bind; [apply plain_resolveBlocks|intros current].
  apply plain_bind; [apply plain_decryptAll|intros env].
  apply plain_bind; [apply plain_processBlockStates|intros; apply plain_ret].
Qed.

Lemma loadWorkflowVariables_returns w rid wf :
  ∃ l v, loadWorkflowVariables w rid wf = ([l], Ok v).
Proof.
  unfold loadWorkflowVariables.
  assert (Hl : ∀ v, ∃ l v',
    match keys_length v with
    | (_, Ok n) =>
        run emit (Log LDebug (tag rid +:+ "Loaded " +:+ nat_to_string n
                              +:+ " workflow variables for: " +:+ workflow_id wf));
        ret v
    | (_, Throw _) =>
        run emit (Log LError (tag rid +:+ "Failed to parse workflow variables: "
                              +:+ workflow_id wf)); ret v
    end = ([l], Ok v')).
  { intros v. destruct (keys_length v) as [t [n|e]]; by eexists _, _. }
  destruct (truthy _); [|by eexists _, _].
  destruct (workflow_variables wf); try apply Hl.
  destruct (JSON_parse w s); [apply Hl|by eexists _, _].
Qed.

Lemma plain_loadWorkflowVariables w rid wf : plain (loadWorkflowVariables w rid wf).
Proof.
  intros e. destruct (loadWorkflowVariables_returns w rid wf) as (l & v & ->). done.
Qed.

Lemma plain_updateCounters w wf s : plain (updateCounters w wf s).
Proof.
  unfold updateCounters. destruct (truthy s); [|apply plain_ret].
  apply plain_bind; [apply plain_await|intros; apply plain_await].
Qed.

Lemma plain_runEngine w rid eid wf ser bs env input wv :
  plain (runEngine w rid eid wf ser bs env input wv).
Proof.
  unfold runEngine.
  apply plain_bind; [apply plain_await|intros result].
  apply plain_bind; [apply plain_get_prop|intros s].
  apply plain_bind; [apply plain_emit|intros _].
  apply plain_bind; [apply plain_updateCounters|intros _].
  apply plain_bind; [apply plain_call|intros spans].
  apply plain_bind; [apply plain_await|intros; apply plain_ret].
Qed.

Lemma plain_guarded w rid eid wf input : plain (guarded w rid eid wf input).
Proof.
  unfold guarded.
  apply plain_bind; [apply plain_emit|intros _].
  apply plain_bind; [apply plain_resolveConfiguration|intros cfg].
  apply plain_bind; [apply plain_loadWorkflowVariables|intros wv].
  apply plain_bind; [apply plain_emit|intros _].
  apply plain_bind; [apply plain_call|intros ser].
  apply plain_runEngine.
Qed.

Lemma plain_tryCatchSection w rid wf input : plain (tryCatchSection w rid wf input).
Proof.
  unfold tryCatchSection. apply plain_try_catch; [apply plain_guarded|].
  intros e He. unfold onFailure.
  apply plain_bind; [apply plain_emit|intros _].
  apply plain_bind; [apply plain_await|intros _].
  intros e' [= <-]. done.
Qed.

Lemma bind_ok_inv {A B} (m : W A) (f : A → W B) b :
  (bind m f).2 = Ok b → ∃ t a, m = (t, Ok a) ∧ (f a).2 = Ok b.
Proof.
  destruct m as [t [a|e]]; unfold bind; [|done].
  intros H. exists t, a. split; [done|]. by destruct (f a).
Qed.

Lemma In_bind_inv {A B} (m : W A) (f : A → W B) e :
  In e (bind m f).1 → In e m.1 ∨ ∃ t a, m = (t, Ok a) ∧ In e (f a).1.
Proof.
  destruct m as [t [a|e']]; unfold bind; [|by left].
  destruct (f a) as [t' r] eqn:Hf. simpl. intros [H|H]%in_app_iff; [by left|].
  right. exists t, a. by rewrite Hf.
Qed.

Lemma silent_not_In {A} p (m : W A) e : silent p m → p e = true → ¬ In e m.1.
Proof.
  unfold silent. intros Hs Hp Hin.
  assert (In e (List.filter p m.1)) by (apply filter_In; done).
  rewrite Hs in *. done.
Qed.

Lemma code_of_respondToResult h v : code_of (respondToResult h v) = None.
Proof. unfold respondToResult. by destruct (workflowHasResponseBlock h v). Qed.

Lemma executeWorkflow_plain_or_exceeded w R wf rid input m s :
  outcome_of (executeWorkflow w R wf rid input) = Throw (UsageLimitError m s) →
  (executionKeyOf (workflow_id wf) rid ∉ R) ∧
  ∃ u, checkServerSideUsageLimits w (workflow_userId wf) = Returns u ∧
       isExceeded u = true ∧ m = usageLimitMessage u ∧ s = 402.
Proof.
  unfold executeWorkflow, outcome_of. case_bool_decide as Hk; [done|].
  destruct (checkServerSideUsageLimits w _) as [u|msg]; [|done].
  destruct (isExceeded u) eqn:Hex.
  - simpl. intros [= <- <-]. split; [done|]. by exists u.
  - pose proof (plain_tryCatchSection w rid wf input) as Hp.
    destruct (tryCatchSection w rid wf input) as [t r]. simpl. intros ->.
    by specialize (Hp _ eq_refl).
Qed.

Lemma executeAndRespond_usage_limit w h R id rid wf input before :
  code_of (outcome_of (executeAndRespond w h R id rid wf input before))
    = Some "USAGE_LIMIT_EXCEEDED" →
  (executionKeyOf (workflow_id wf) rid ∉ R) ∧
  ∃ u, checkServerSideUsageLimits w (workflow_userId wf) = Returns u ∧
       isExceeded u = true ∧
       outcome_of (executeAndRespond w h R id rid wf input before)
       = createErrorResponse (usageLimitMessage u) 402 (Some "USAGE_LIMIT_EXCEEDED").
Proof.
  rewrite executeAndRespond_outcome.
  destruct (outcome_of (executeWorkflow w R wf rid input)) as [v|[msg|m s]] eqn:Hout.
  - by rewrite code_of_respondToResult.
  - done.
  - intros _. apply executeWorkflow_plain_or_exceeded in Hout as (Hk & u & Hu & Hex & -> & ->).
    split; [done|]. by exists u.
Qed.

(** X2. The answer [USAGE_LIMIT_EXCEEDED] is given only to a request that
    was granted access, was not a duplicate, and whose usage lookup said
    the limit is exceeded; it then carries status 402. No failure of a
    collaborator is ever reported under that code. *)
Theorem usage_limit_answer_only_when_exceeded (w : World) (h : Http) (R : gset string)
    (id : string) :
  code_of (outcome_of (GET w h R id)) = Some "USAGE_LIMIT_EXCEEDED" ∨
  code_of (outcome_of (POST w h R id)) = Some "USAGE_LIMIT_EXCEEDED" →
  ∃ wf u,
    validateWorkflowAccess h id = Returns (AccessGranted wf) ∧
    (executionKeyOf (workflow_id wf) (requestIdOf h) ∉ R) ∧
    checkServerSideUsageLimits w (workflow_userId wf) = Returns u ∧
    isExceeded u = true ∧
    (code_of (outcome_of (GET w h R id)) = Some "USAGE_LIMIT_EXCEEDED" →
     outcome_of (GET w h R id)
     = createErrorResponse (usageLimitMessage u) 402 (Some "USAGE_LIMIT_EXCEEDED")) ∧
    (code_of (outcome_of (POST w h R id)) = Some "USAGE_LIMIT_EXCEEDED" →
     outcome_of (POST w h R id)
     = createErrorResponse (usageLimitMessage u) 402 (Some "USAGE_LIMIT_EXCEEDED")).
Proof.
  assert (HG : ∀ wf, validateWorkflowAccess h id = Returns (AccessGranted wf) →
    code_of (outcome_of (GET w h R id)) = Some "USAGE_LIMIT_EXCEEDED" →
    (executionKeyOf (workflow_id wf) (requestIdOf h) ∉ R) ∧
    ∃ u, checkServerSideUsageLimits w (workflow_userId wf) = Returns u ∧
         isExceeded u = true ∧
         outcome_of (GET w h R id)
         = createErrorResponse (usageLimitMessage u) 402 (Some "USAGE_LIMIT_EXCEEDED")).
  { intros wf Hv. unfold GET. rewrite Hv. apply executeAndRespond_usage_limit. }
  assert (HP : ∀ wf, validateWorkflowAccess h id = Returns (AccessGranted wf) →
    code_of (outcome_of (POST w h R id)) = Some "USAGE_LIMIT_EXCEEDED" →
    (executionKeyOf (workflow_id wf) (requestIdOf h) ∉ R) ∧
    ∃ u, checkServerSideUsageLimits w (workflow_userId wf) = Returns u ∧
         isExceeded u = true ∧
         outcome_of (POST w h R id)
         = createErrorResponse (usageLimitMessage u) 402 (Some "USAGE_LIMIT_EXCEEDED")).
  { intros wf Hv. unfold POST. rewrite Hv.
    destruct (request_text h) as [bodyText|msg]; [|done].
    destruct (blank bodyText).
    - simpl. apply executeAndRespond_usage_limit.
    - destruct (JSON_parse w bodyText) as [body|msg]; [|done].
      destruct (keys_length body) as [t [n|[msg|m s]]] eqn:Hkeys; [|done|].
      + apply executeAndRespond_usage_limit.
      + exfalso. destruct body; simpl in Hkeys; discriminate. }
  destruct (validateWorkflowAccess h id) as [[m s|wf]|msg] eqn:Hv.
  - unfold GET, POST. rewrite Hv. by intros [?|?].
  - intros Hcode. 
    assert (∃ u, (executionKeyOf (workflow_id wf) (requestIdOf h) ∉ R) ∧
                 checkServerSideUsageLimits w (workflow_userId wf) = Returns u ∧
                 isExceeded u = true) as (u & Hk & Hu & Hex).
    { destruct Hcode as [Hc|Hc].
      - destruct (HG wf eq_refl Hc) as (? & u & ? & ? & ?). by exists u.
      - destruct (HP wf eq_refl Hc) as (? & u & ? & ? & ?). by exists u. }
    exists wf, u. repeat split; try done.
    + intros Hc. destruct (HG wf eq_refl Hc) as (_ & u' & Hu' & _ & ->). congruence.
    + intros Hc. destruct (HP wf eq_refl Hc) as (_ & u' & Hu' & _ & ->). congruence.
  - unfold GET, POST. rewrite Hv. by intros [?|?].
Qed.

Lemma usage_limit_answer_only_when_exceeded_witness :
  ∃ wf u,
    validateWorkflowAccess (demo_http (demo_workflow JUndefined) "{}") "wf"
      = Returns (AccessGranted wf) ∧
    checkServerSideUsageLimits (demo_world true [] None (Returns demo_success) (Returns tt))
      (workflow_userId wf) = Returns u ∧
    isExceeded u = true.
Proof.
  destruct (usage_limit_answer_only_when_exceeded
              (demo_world true [] None (Returns demo_success) (Returns tt))
              (demo_http (demo_workflow JUndefined) "{}") ∅ "wf")
    as (wf & u & Hv & _ & Hu & Hex & _).
  - left. vm_compute. reflexivity.
  - by exists wf, u.
Defined.

(** ** Every admitted run is reported *)

Lemma runEngine_ok_persists w rid eid wf ser bs env input wv v :
  (runEngine w rid eid wf ser bs env input wv).2 = Ok v →
  ∃ spans duration,
    buildTraceSpans w v = Returns (spans, duration) ∧
    In (PersistLogs (workflow_id wf) eid (enrich v spans duration))
       (runEngine w rid eid wf ser bs env input wv).1.
Proof.
  intros H.
  assert (He : ∃ result, execute w ser bs env input wv (workflow_id wf) = Returns result).
  { revert H. unfold runEngine, await, bind. by destruct (execute w _ _ _ _ _ _); eauto. }
  destruct He as [result He].
  rewrite (runEngine_returns w rid eid wf ser bs env input wv result He) in *.
  cbv zeta in *.
  destruct (get_prop (selectExecutionResult result) "success") as [tg [s|e]]; [|done].
  destruct (updateCounters w wf s) as [tc [[]|e]]; [|done].
  destruct (buildTraceSpans w (selectExecutionResult result)) as [[spans duration]|msg] eqn:Hb;
    [|done].
  destruct (persistExecutionLogs w _ _ _); [|done].
  simpl in H. injection H as <-. exists spans, duration. split; [done|]. simpl.
  do 2 right. apply in_or_app. right. by left.
Qed.

Lemma guarded_ok_persists w rid eid wf input v :
  (guarded w rid eid wf input).2 = Ok v →
  ∃ spans duration,
    buildTraceSpans w v = Returns (spans, duration) ∧
    In (PersistLogs (workflow_id wf) eid (enrich v spans duration))
       (guarded w rid eid wf input).1.
Proof.
  unfold guarded. intros H.
  apply bind_ok_inv in H as (t1 & [] & E1 & H).
  apply bind_ok_inv in H as (t2 & cfg & E2 & H).
  apply bind_ok_inv in H as (t3 & wv & E3 & H).
  apply bind_ok_inv in H as (t4 & [] & E4 & H).
  apply bind_ok_inv in H as (t5 & ser & E5 & H).
  destruct (runEngine_ok_persists _ _ _ _ _ _ _ _ _ _ H) as (spans & duration & Hb & Hin).
  exists spans, duration. split; [done|].
  eapply In_bind_ok; [exact E1|]. eapply In_bind_ok; [exact E2|].
  eapply In_bind_ok; [exact E3|]. eapply In_bind_ok; [exact E4|].
  eapply In_bind_ok; [exact E5|]. exact Hin.
Qed.

Lemma silent_runEngine p w rid eid wf ser bs env input wv :
  (∀ lvl msg, p (Log lvl msg) = false) →
  (∀ a b c d e f, p (EngineInvoke a b c d e f) = false) →
  (∀ a, p (UpdateRunCounts a) = false) →
  (∀ a, p (UpdateUserStats a) = false) →
  (∀ a b c, p (PersistLogs a b c) = false) →
  silent p (runEngine w rid eid wf ser bs env input wv).
Proof.
  intros p_log p_engine p_run p_stats p_persist. unfold runEngine.
  apply silent_bind; [by apply silent_await|intros result].
  apply silent_bind.
  { unfold silent. destruct (get_prop _ _) as [t r] eqn:Hg.
    by rewrite (get_prop_silent _ _ _ _ Hg). }
  intros s. apply silent_bind; [by apply silent_emit|intros _].
  apply silent_bind.
  { unfold updateCounters. destruct (truthy s); [|apply silent_ret].
    apply silent_bind; [by apply silent_await|intros; by apply silent_await]. }
  intros _. apply silent_bind; [apply silent_call|intros spans].
  apply silent_bind; [by apply silent_await|intros; apply silent_ret].
Qed.

Lemma guarded_no_persist_error w rid eid wf input :
  silent is_persist_error (guarded w rid eid wf input).
Proof.
  unfold guarded.
  apply silent_bind; [by apply silent_emit|intros _].
  apply silent_bind; [by apply silent_resolveConfiguration|intros cfg].
  apply silent_bind; [by apply silent_loadWorkflowVariables|intros wv].
  apply silent_bind; [by apply silent_emit|intros _].
  apply silent_bind; [apply silent_call|intros ser].
  by apply silent_runEngine.
Qed.

(** X3. Every run that got past admission is reported to the execution
    log under its execution id. A run that returns a value has persisted
    that value enriched and has reported no error: the persisted object
    is the returned value with [traceSpans] and [totalDuration] set to
    what the trace builder gave for it, every other property of the
    returned value being in it unchanged. A run that throws has reported
    the error of the guarded section, and what the caller sees is that
    error, unless the report itself was rejected, in which case the
    caller sees the rejection of the report instead. *)
Theorem every_admitted_run_is_reported (w : World) (R : gset string) (wf : Workflow)
    (rid : string) (input : JSValue) :
  In (RegistryAdd (executionKeyOf (workflow_id wf) rid))
     (trace_of (executeWorkflow w R wf rid input)) →
  (∀ v, outcome_of (executeWorkflow w R wf rid input) = Ok v →
     (∃ spans duration props,
        buildTraceSpans w v = Returns (spans, duration) ∧
        In (PersistLogs (workflow_id wf) (uuidv4 w) (enrich v spans duration))
           (trace_of (executeWorkflow w R wf rid input)) ∧
        enrich v spans duration = JObj props ∧
        lookup_prop "traceSpans" props = Some spans ∧
        lookup_prop "totalDuration" props = Some duration ∧
        ∀ k, k ≠ "traceSpans" → k ≠ "totalDuration" →
             lookup_prop k props = lookup_prop k (own_entries v)) ∧
     List.filter is_persist_error (trace_of (executeWorkflow w R wf rid input)) = []) ∧
  (∀ e, outcome_of (executeWorkflow w R wf rid input) = Throw e →
     ∃ e0, (guarded w rid (uuidv4 w) wf input).2 = Throw e0 ∧
           In (PersistError (workflow_id wf) (uuidv4 w) e0)
              (trace_of (executeWorkflow w R wf rid input)) ∧
           (e = e0 ∨
            persistExecutionError w (workflow_id wf) (uuidv4 w) e0 = Rejects (message e))).
Proof.
  intros Hadd. destruct (guarded w rid (uuidv4 w) wf input) as [t [v0|e0]] eqn:Hg.
  - destruct (inserted_inv _ _ _ _ _ _ Hadd) as (Hk & u & Hu & Hex).
    rewrite (executeWorkflow_admitted w R wf rid input Hk u Hu Hex).
    unfold tryCatchSection. rewrite Hg. unfold try_catch, trace_of, outcome_of. simpl.
    split; [|done]. intros v [= <-].
    pose proof (guarded_ok_persists w rid (uuidv4 w) wf input v0) as Hp.
    pose proof (guarded_no_persist_error w rid (uuidv4 w) wf input) as Hs.
    rewrite Hg in Hp, Hs. destruct (Hp eq_refl) as (spans & duration & Hb & Hin). split.
    + destruct (enrich_properties v0 spans duration) as (props & Hp1 & Hp2 & Hp3 & Hp4).
      exists spans, duration, props. split; [done|]. split; [|done].
      do 4 right. apply in_or_app. by left.
    + rewrite List.filter_app. unfold silent in Hs. simpl in Hs. rewrite Hs. reflexivity.
  - rewrite (guarded_failure_handled w R wf rid input t e0 Hadd Hg).
    unfold trace_of, outcome_of. simpl. split.
    { intros v. by destruct (persistExecutionError w _ _ e0). }
    intros e He. exists e0. split; [done|]. split.
    + do 4 right. apply in_or_app. left. apply in_or_app. right. right. by left.
    + destruct (persistExecutionError w _ _ e0) as [[]|msg] eqn:Hp; injection He as <-.
      * by left.
      * by right.
Qed.

Lemma every_admitted_run_is_reported_witness :
  In (PersistLogs "wf" "execution-1"
        (JObj [("success", JBool true); ("output", JObj []);
               ("traceSpans", JArr []); ("totalDuration", JNum 0)]))
     (trace_of (executeWorkflow (demo_world false [] None (Returns demo_success) (Returns tt))
                  ∅ (demo_workflow JUndefined) "req" JUndefined)).
Proof.
  assert (H : In (RegistryAdd (executionKeyOf (workflow_id (demo_workflow JUndefined)) "req"))
     (trace_of (executeWorkflow (demo_world false [] None (Returns demo_success) (Returns tt))
                  ∅ (demo_workflow JUndefined) "req" JUndefined))).
  { vm_compute. find_event. }
  destruct (proj1 (proj1 (every_admitted_run_is_reported _ _ _ _ _ H) (JObj demo_success)
                     eq_refl))
    as (spans & duration & props & Hb & Hin & _).
  injection Hb as <- <-. exact Hin.
Defined.

(** ** What the engine is given *)

Lemma runEngine_engine_event w rid eid wf ser bs env input wv e :
  In e (runEngine w rid eid wf ser bs env input wv).1 → is_engine e = true →
  e = EngineInvoke ser bs env input wv (workflow_id wf).
Proof.
  intros Hin He.
  assert (Hf : In e (List.filter is_bookkeeping (runEngine w rid eid wf ser bs env input wv).1)).
  { apply filter_In. split; [done|]. unfold is_bookkeeping. by rewrite He. }
  rewrite runEngine_bookkeeping in Hf. unfold bookkeeping_of in Hf.
  destruct Hf as [<-|Hf]; [done|]. exfalso.
  destruct (engine_succeeded w _); [|done].
  destruct Hf as [<-|Hf]; [done|].
  destruct (updateWorkflowRunCounts w _); [|done].
  by destruct Hf as [<-|[]].
Qed.

Lemma guarded_engine_event w rid eid wf input e :
  In e (guarded w rid eid wf input).1 → is_engine e = true →
  ∃ ser bs env wv, e = EngineInvoke ser bs env input wv (workflow_id wf).
Proof.
  unfold guarded. intros Hin He.
  apply In_bind_inv in Hin as [Hin|(t1 & [] & _ & Hin)].
  { destruct Hin as [<-|[]]. done. }
  apply In_bind_inv in Hin as [Hin|(t2 & cfg & _ & Hin)].
  { exfalso. by eapply (silent_not_In is_engine), Hin; [apply silent_resolveConfiguration|]. }
  apply In_bind_inv in Hin as [Hin|(t3 & wv & _ & Hin)].
  { exfalso. by eapply (silent_not_In is_engine), Hin; [apply silent_loadWorkflowVariables|]. }
  apply In_bind_inv in Hin as [Hin|(t4 & [] & _ & Hin)].
  { destruct Hin as [<-|[]]. done. }
  apply In_bind_inv in Hin as [Hin|(t5 & ser & _ & Hin)].
  { exfalso. by eapply (silent_not_In is_engine), Hin; [apply silent_call|]. }
  eexists _, _, _, _. by eapply runEngine_engine_event.
Qed.

Lemma executeWorkflow_engine_event w R wf rid input e :
  In e (trace_of (executeWorkflow w R wf rid input)) → is_engine e = true →
  ∃ ser bs env wv, e = EngineInvoke ser bs env input wv (workflow_id wf).
Proof.
  intros Hin He.
  unfold executeWorkflow, trace_of in Hin. case_bool_decide as Hk.
  { by destruct Hin as [<-|[]]. }
  destruct (checkServerSideUsageLimits w _) as [u|msg].
  2:{ by destruct Hin as [<-|[]]. }
  destruct (isExceeded u).
  { by destruct Hin as [<-|[<-|[]]]. }
  unfold tryCatchSection in Hin.
  destruct (guarded w rid (uuidv4 w) wf input) as [t [v|e0]] eqn:Hg; unfold try_catch in Hin.
  - simpl in Hin. destruct Hin as [<-|[<-|[<-|[<-|Hin]]]]; try done.
    apply in_app_iff in Hin as [Hin|[<-|[]]]; [|done].
    apply (guarded_engine_event w rid (uuidv4 w) wf input). by rewrite Hg. done.
  - destruct (onFailure w rid (uuidv4 w) (workflow_id wf) e0) as [t' r] eqn:Hf. simpl in Hin.
    destruct Hin as [<-|[<-|[<-|[<-|Hin]]]]; try done.
    apply in_app_iff in Hin as [Hin|[<-|[]]]; [|done].
    apply in_app_iff in Hin as [Hin|Hin].
    + apply (guarded_engine_event w rid (uuidv4 w) wf input). by rewrite Hg. done.
    + exfalso. pose proof (onFailure_bookkeeping w rid (uuidv4 w) (workflow_id wf) e0) as Hs.
      rewrite Hf in Hs. apply (silent_not_In is_bookkeeping (t', r) e Hs); [|exact Hin].
      unfold is_bookkeeping. by rewrite He.
Qed.

Lemma executeAndRespond_engine_event w h R id rid wf input before e :
  (∀ x, In x before → is_engine x = false) →
  In e (trace_of (executeAndRespond w h R id rid wf input before)) → is_engine e = true →
  ∃ ser bs env wv, e = EngineInvoke ser bs env input wv (workflow_id wf).
Proof.
  intros Hb. rewrite executeAndRespond_trace.
  intros [Hin|[Hin|Hin]%in_app_iff]%in_app_iff He.
  - rewrite (Hb _ Hin) in He. done.
  - by eapply executeWorkflow_engine_event.
  - destruct (outcome_of _); [done|]. by destruct Hin as [<-|[]].
Qed.

Ltac logs_only :=
  let x := fresh in let Hx := fresh in
  intros x Hx; simpl in Hx; rewrite ?in_app_iff in Hx; simpl in Hx;
  repeat match goal with H : _ ∨ _ |- _ => destruct H end; subst; done.

(** X4. The engine is only ever invoked for the workflow that access
    validation handed over, and its input is fixed by the request. GET
    invokes it with no input. POST invokes it with the empty object when
    the body is blank; otherwise the body has parsed, and the input is
    the parsed body itself when that has at least one own property and
    the empty object when it has none (empty object, empty array,
    number, boolean, empty string). *)
Theorem engine_receives_request_input (w : World) (h : Http) (R : gset string)
    (id : string) (ser : JSValue) (bs : MergedStates) (env : list (string * string))
    (inp wv : JSValue) (wid : string) :
  (In (EngineInvoke ser bs env inp wv wid) (trace_of (GET w h R id)) →
   inp = JUndefined ∧
   ∃ wf, validateWorkflowAccess h id = Returns (AccessGranted wf) ∧ wid = workflow_id wf) ∧
  (In (EngineInvoke ser bs env inp wv wid) (trace_of (POST w h R id)) →
   (∃ wf, validateWorkflowAccess h id = Returns (AccessGranted wf) ∧ wid = workflow_id wf) ∧
   ∃ bodyText, request_text h = Returns bodyText ∧
     if blank bodyText then inp = JObj []
     else ∃ body, JSON_parse w bodyText = Returns body ∧
                  inp = match own_entries body with
                        | [] => JObj []
                        | _ :: _ => body
                        end).
Proof.
  split.
  - unfold GET. destruct (validateWorkflowAccess h id) as [[m s|wf]|msg].
    + intros H; no_lookup H.
    + intros Hin. eapply executeAndRespond_engine_event in Hin as (? & ? & ? & ? & [=]);
        [|logs_only|done]. subst. split; [done|]. by exists wf.
    + intros H; no_lookup H.
  - unfold POST. destruct (validateWorkflowAccess h id) as [[m s|wf]|msg].
    + intros H; no_lookup H.
    + destruct (request_text h) as [bodyText|msg]; [|intros H; no_lookup H].
      destruct (blank bodyText) eqn:Hblank.
      * simpl. intros Hin.
        eapply executeAndRespond_engine_event in Hin as (? & ? & ? & ? & [=]);
          [|logs_only|done]. subst. split; [by exists wf|]. exists bodyText.
        by rewrite Hblank.
      * destruct (JSON_parse w bodyText) as [body|msg] eqn:Hparse; [|intros H; no_lookup H].
        destruct (keys_length body) as [t [n|e]] eqn:Hkeys.
        2:{ intros H; no_lookup H. }
        intros Hin.
        eapply executeAndRespond_engine_event in Hin as (? & ? & ? & ? & [=]);
          [|logs_only|done]. subst. split; [by exists wf|]. exists bodyText.
        rewrite Hblank. split; [done|]. exists body. split; [done|].
        assert (Hn : n = List.length (own_entries body)).
        { destruct body; simpl in Hkeys; try discriminate; by injection Hkeys as <- <-. }
        subst n. by destruct (own_entries body).
    + intros H; no_lookup H.
Qed.

Lemma engine_receives_request_input_witness :
  let w := with_JSON_parse (demo_world false [] None (Returns demo_success) (Returns tt))
             (fun _ => Returns (JObj [("a", JNum 1)])) in
  let h := demo_http (demo_workflow JUndefined) "{a:1}" in
  In (EngineInvoke (JObj []) [] [] (JObj [("a", JNum 1)]) (JObj []) "wf")
     (trace_of (POST w h ∅ "wf")) ∧
  ∃ body, JSON_parse w "{a:1}" = Returns body ∧
          JObj [("a", JNum 1)] = match own_entries body with
                                 | [] => JObj []
                                 | _ :: _ => body
                                 end.
Proof.
  cbv zeta.
  assert (Hin : In (EngineInvoke (JObj []) [] [] (JObj [("a", JNum 1)]) (JObj []) "wf")
     (trace_of (POST (with_JSON_parse
                        (demo_world false [] None (Returns demo_success) (Returns tt))
                        (fun _ => Returns (JObj [("a", JNum 1)])))
                  (demo_http (demo_workflow JUndefined) "{a:1}") ∅ "wf"))).
  { vm_compute. find_event. }
  split; [exact Hin|].
  destruct (proj2 (engine_receives_request_input _ _ _ _ _ _ _ _ _ _) Hin)
    as (_ & bodyText & Hb & Hbody).
  injection Hb as <-. exact Hbody.
Defined.

(** ** Requests that never reach [executeWorkflow] *)

Lemma code_of_respondToError rid id e :
  code_of (respondToError rid id e).2 = Some "USAGE_LIMIT_EXCEEDED" ∨
  code_of (respondToError rid id e).2 = Some "EXECUTION_ERROR".
Proof. destruct e; [by right|by left]. Qed.

Lemma executeAndRespond_code w h R id rid wf input before :
  code_of (outcome_of (executeAndRespond w h R id rid wf input before)) ≠ Some "INVALID_JSON".
Proof.
  rewrite executeAndRespond_outcome. destruct (outcome_of _) as [v|e].
  - by rewrite code_of_respondToResult.
  - by destruct (code_of_respondToError rid id e) as [->| ->].
Qed.

(** X5. POST answers [INVALID_JSON] exactly when access was granted and
    the body is not blank (it holds something other than the white space
    and line terminators that [trim] strips) and is rejected by the JSON
    parser; the answer then has status 400, and neither the usage monitor
    nor anything else was consulted. GET never gives that answer. *)
Theorem POST_invalid_json (w : World) (h : Http) (R : gset string) (id : string) :
  (code_of (outcome_of (POST w h R id)) = Some "INVALID_JSON" ↔
   ∃ wf bodyText msg,
     validateWorkflowAccess h id = Returns (AccessGranted wf) ∧
     request_text h = Returns bodyText ∧ blank bodyText = false ∧
     JSON_parse w bodyText = Rejects msg) ∧
  (code_of (outcome_of (POST w h R id)) = Some "INVALID_JSON" →
   outcome_of (POST w h R id)
     = createErrorResponse "Invalid JSON in request body" 400 (Some "INVALID_JSON") ∧
   forallb is_log (trace_of (POST w h R id)) = true) ∧
  code_of (outcome_of (GET w h R id)) ≠ Some "INVALID_JSON".
Proof.
  assert (HG : code_of (outcome_of (GET w h R id)) ≠ Some "INVALID_JSON").
  { unfold GET. destruct (validateWorkflowAccess h id) as [[m s|wf]|msg]; try done.
    apply executeAndRespond_code. }
  unfold POST. destruct (validateWorkflowAccess h id) as [[m s|wf]|msg].
  1,3: split; [split; [done|by intros (? & ? & ? & [=] & _)]|by split].
  destruct (request_text h) as [bodyText|msg].
  2:{ split; [split; [done|by intros (? & ? & ? & _ & [=] & _)]|by split]. }
  destruct (blank bodyText) eqn:Hblank.
  { simpl. split; [split|split; [|done]].
    - intros H. by apply executeAndRespond_code in H.
    - intros (? & ? & ? & _ & [= <-] & Hb & _). congruence.
    - intros H. by apply executeAndRespond_code in H. }
  destruct (JSON_parse w bodyText) as [body|msg] eqn:Hparse.
  - destruct (keys_length body) as [t [n|e]] eqn:Hkeys.
    + split; [split|split; [|done]].
      * intros H. by apply executeAndRespond_code in H.
      * intros (? & ? & ? & _ & [= <-] & _ & Hp). congruence.
      * intros H. by apply executeAndRespond_code in H.
    + assert (He : e = typeError "Cannot convert undefined or null to object").
      { destruct body; simpl in Hkeys; unfold ret, throw in Hkeys; congruence. }
      subst e. split; [split|split; [|done]]; try done.
      intros (? & ? & ? & _ & [= <-] & _ & Hp). congruence.
  - split; [split|split; [|done]]; try done.
    intros _. by exists wf, bodyText, msg.
Qed.

Lemma POST_invalid_json_witness :
  outcome_of (POST (demo_world false [] None (Returns demo_success) (Returns tt))
                (demo_http (demo_workflow JUndefined) "{oops") ∅ "wf")
  = createErrorResponse "Invalid JSON in request body" 400 (Some "INVALID_JSON").
Proof.
  apply (proj1 (proj2 (POST_invalid_json _ _ _ _))). vm_compute. reflexivity.
Defined.

(** A body that holds nothing but a no-break space (U+00A0) is blank for
    [trim], so it is not parsed: the workflow runs with the empty object
    although the parser would reject the text. *)
Example POST_no_break_space_body_is_blank :
  let nbsp := String (ascii_of_nat 194) (String (ascii_of_nat 160) EmptyString) in
  let w := demo_world false [] None (Returns demo_success) (Returns tt) in
  blank nbsp = true ∧
  JSON_parse w nbsp = Rejects "Unexpected token" ∧
  In (EngineInvoke (JObj []) [] [] (JObj []) (JObj []) "wf")
     (trace_of (POST w (demo_http (demo_workflow JUndefined) nbsp) ∅ "wf")) ∧
  outcome_of (POST w (demo_http (demo_workflow JUndefined) nbsp) ∅ "wf")
    = createSuccessResponse (JObj demo_success).
Proof.
  vm_compute. split; [reflexivity|]. split; [reflexivity|]. split; [find_event|reflexivity].
Qed.

(** X6. A POST body that is valid JSON but [null] is not a client error
    for the route: it is answered 500 [EXECUTION_ERROR], before the
    usage monitor is consulted and without starting the workflow. *)
Theorem POST_null_body_is_execution_error (w : World) (h : Http) (R : gset string)
    (id : string) (wf : Workflow) (bodyText : string) :
  validateWorkflowAccess h id = Returns (AccessGranted wf) →
  request_text h = Returns bodyText →
  blank bodyText = false →
  JSON_parse w bodyText = Returns JNull →
  status_of (outcome_of (POST w h R id)) = Some 500 ∧
  code_of (outcome_of (POST w h R id)) = Some "EXECUTION_ERROR" ∧
  forallb is_log (trace_of (POST w h R id)) = true ∧
  registry_after (POST w h R id) = R.
Proof.
  intros Hv Ht Hb Hp. unfold POST. rewrite Hv, Ht, Hb, Hp. done.
Qed.

Lemma POST_null_body_is_execution_error_witness :
  status_of
    (outcome_of
       (POST (with_JSON_parse (demo_world false [] None (Returns demo_success) (Returns tt))
                (fun _ => Returns JNull))
          (demo_http (demo_workflow JUndefined) "null") ∅ "wf")) = Some 500.
Proof.
  exact (proj1 (POST_null_body_is_execution_error
           (with_JSON_parse (demo_world false [] None (Returns demo_success) (Returns tt))
              (fun _ => Returns JNull))
           (demo_http (demo_workflow JUndefined) "null") ∅ "wf"
           (demo_workflow JUndefined) "null" eq_refl eq_refl eq_refl eq_refl)).
Defined.

(** X7. Without granted access no collaborator is called: the trace of
    the handler holds log lines only, the registry is untouched, and the
    answer is the validator's own message and status (with no code), or
    500 [EXECUTION_ERROR] when the validator itself failed. *)
Theorem no_execution_without_access (w : World) (h : Http) (R : gset string) (id : string) :
  (∀ wf, validateWorkflowAccess h id ≠ Returns (AccessGranted wf)) →
  forallb is_log (trace_of (GET w h R id)) = true ∧
  forallb is_log (trace_of (POST w h R id)) = true ∧
  outcome_of (GET w h R id) = outcome_of (POST w h R id) ∧
  match validateWorkflowAccess h id with
  | Returns (AccessDenied m status) =>
      outcome_of (GET w h R id) = createErrorResponse m status None
  | _ =>
      status_of (outcome_of (GET w h R id)) = Some 500 ∧
      code_of (outcome_of (GET w h R id)) = Some "EXECUTION_ERROR"
  end.
Proof.
  intros Hno. unfold GET, POST.
  destruct (validateWorkflowAccess h id) as [[m s|wf]|msg]; [done| |done].
  by destruct (Hno wf).
Qed.

Lemma no_execution_without_access_witness :
  forallb is_log
    (trace_of (POST (demo_world false [] None (Returns demo_success) (Returns tt))
                 {| randomUUID := "0a1b2c3d-0000-4000-8000-000000000000";
                    validateWorkflowAccess := fun _ => Returns (AccessDenied "Unauthorized" 401);
                    request_text := Returns "{}";
                    workflowHasResponseBlock := fun _ => false |} ∅ "wf")) = true.
Proof.
  refine (proj1 (proj2 (no_execution_without_access _ _ _ _ _))).
  intros wf. simpl. discriminate.
Defined.

(** ** Registry keys *)

Section Keys.

#[local] Arguments String.append !s1 s2 : simpl nomatch.

Lemma append_inj_no_colon (a a' r r' : string) :
  no_colon a = true → no_colon a' = true →
  a +:+ ":" +:+ r = a' +:+ ":" +:+ r' → a = a' ∧ r = r'.
Proof.
  revert a'. induction a as [|c a IH]; intros [|c' a']; simpl.
  - intros _ _ [= ->]. done.
  - intros _ [Hc _]%andb_prop [= <- _]. done.
  - intros [Hc _]%andb_prop _ [= -> _]. done.
  - intros [_ Ha]%andb_prop [_ Ha']%andb_prop [= -> H].
    destruct (IH a' Ha Ha' H) as [-> ->]. done.
Qed.

Lemma append_inj_length (a a' s s' : string) :
  String.length a = String.length a' → a +:+ s = a' +:+ s' → a = a' ∧ s = s'.
Proof.
  revert a'. induction a as [|c a IH]; intros [|c' a']; simpl; try done.
  intros [= Hl] [= -> H]. destruct (IH a' Hl H) as [-> ->]. done.
Qed.

(** X8. The registry key determines the request: two calls with the same
    key have the same workflow id and the same request id, provided the
    workflow ids contain no colon, or the request ids have the same
    length (the handlers always pass the first eight characters of a
    UUID). *)
Theorem executionKeyOf_injective (wid wid' rid rid' : string) :
  no_colon wid = true ∧ no_colon wid' = true ∨ String.length rid = String.length rid' →
  executionKeyOf wid rid = executionKeyOf wid' rid' →
  wid = wid' ∧ rid = rid'.
Proof.
  unfold executionKeyOf. intros [[H1 H2]|Hl] Heq.
  - by apply append_inj_no_colon.
  - assert (Hlen : String.length (wid +:+ ":" +:+ rid) = String.length (wid' +:+ ":" +:+ rid'))
      by (by rewrite Heq).
    rewrite !length_append in Hlen. simpl in Hlen.
    destruct (append_inj_length wid wid' (":" +:+ rid) (":" +:+ rid')) as [-> [= ->]];
      [lia|done|done].
Qed.

Lemma executionKeyOf_injective_witness :
  "wf" = "wf" ∧ "0a1b2c3d" = "0a1b2c3d".
Proof.
  apply (executionKeyOf_injective "wf" "wf" "0a1b2c3d" "0a1b2c3d").
  - left. split; reflexivity.
  - reflexivity.
Defined.

(** Without either condition two different requests can share a key. *)
Example executionKeyOf_collision :
  executionKeyOf "a:b" "c" = executionKeyOf "a" "b:c".
Proof. reflexivity. Qed.

End Keys.

(** ** What the registry holds while calls interleave *)

Lemma key_at_pc t p : Sched.key (Sched.at_pc t p) = Sched.key t.
Proof. done. Qed.

Lemma advance_spec R t pending out seg R' t' :
  Sched.advance R t pending out = (seg, R', t') →
  Sched.key t' = Sched.key t ∧
  (R' = R ∧ in_try t' = true ∨ R' = R ∖ {[Sched.key t]} ∧ in_try t' = false).
Proof.
  unfold Sched.advance. destruct (Sched.next_segment pending) as [s [rest|]];
    intros [= <- <- <-]; (split; [done|]); [by left|by right].
Qed.

Lemma resume_spec w R t seg R' t' :
  Sched.resume w R t = (seg, R', t') →
  Sched.key t' = Sched.key t ∧
  (R' = R ∧ (in_try t = true → in_try t' = true)
   ∨ R' = {[Sched.key t]} ∪ R ∧ in_try t' = true
   ∨ (∃ R1, R' = R1 ∖ {[Sched.key t]} ∧ R1 ⊆ {[Sched.key t]} ∪ R) ∧ in_try t' = false).
Proof.
  unfold Sched.resume. destruct (Sched.pc t) as [| |pending out|out] eqn:Hpc.
  - case_bool_decide; intros [= <- <- <-]; (split; [done|]); left; split; try done.
    all: unfold in_try; by rewrite Hpc.
  - destruct (checkServerSideUsageLimits w _) as [u|msg].
    + destruct (isExceeded u).
      * intros [= <- <- <-]. split; [done|]. left. split; [done|].
        unfold in_try. by rewrite Hpc.
      * destruct (tryCatchSection w _ _ _) as [body out].
        destruct (Sched.advance _ t body out) as [[s R1] t1] eqn:Hadv.
        intros [= <- <- <-]. apply advance_spec in Hadv as [Hkey [[-> Hin]|[-> Hin]]].
        -- split; [done|]. right. by left.
        -- split; [done|]. right. right. split; [|done]. by eexists.
    + intros [= <- <- <-]. split; [done|]. left. split; [done|].
      unfold in_try. by rewrite Hpc.
  - intros Hadv. apply advance_spec in Hadv as [Hkey [[-> Hin]|[-> Hin]]].
    + split; [done|]. by left.
    + split; [done|]. right. right. split; [|done]. exists R. split; [done|].
      apply union_subseteq_r.
  - intros [= <- <- <-]. split; [done|]. by left.
Qed.

Lemma step_accounted w R0 c i : accounted R0 c → accounted R0 (Sched.step w c i).
Proof.
  intros Hacc. unfold Sched.step. destruct (Sched.tasks c !! i) as [t|] eqn:Hi; [|done].
  destruct (Sched.resume w (Sched.registry c) t) as [[seg R'] t'] eqn:Hres.
  apply resume_spec in Hres as [Hkey Hcases].
  assert (Hlt : (i < List.length (Sched.tasks c))%nat) by (by eapply lookup_lt_Some).
  assert (Hlift : ∀ k, k ∈ Sched.registry c →
            (in_try t = true → Sched.key t = k → in_try t' = true) →
            k ∈ R0 ∨ ∃ j tj, <[i:=t']> (Sched.tasks c) !! j = Some tj
                             ∧ in_try tj = true ∧ Sched.key tj = k).
  { intros k Hk Hpres. destruct (Hacc k Hk) as [?|(j & tj & Hj & Htry & Hkj)]; [by left|].
    right. destruct (decide (j = i)) as [->|Hne].
    - rewrite Hi in Hj. injection Hj as <-. exists i, t'.
      rewrite list_lookup_insert_eq by done. split; [done|]. split; [by apply Hpres|congruence].
    - exists j, tj. by rewrite list_lookup_insert_ne. }
  intros k Hk. simpl in Hk. simpl.
  destruct Hcases as [[-> Hpres]|[[-> Htry]|[(R1 & -> & Hsub) Htry]]].
  - apply Hlift; [done|]. intros Ht _. by apply Hpres.
  - apply elem_of_union in Hk as [Hk|Hk].
    + apply elem_of_singleton in Hk as ->. right. exists i, t'.
      by rewrite list_lookup_insert_eq.
    + by apply Hlift.
  - apply elem_of_difference in Hk as [Hk Hne].
    apply Hsub, elem_of_union in Hk as [Hk|Hk]; [done|].
    apply Hlift; [done|]. intros _ Heq. exfalso. apply Hne. by apply elem_of_singleton.
Qed.

Lemma schedule_accounted w R0 order : ∀ c, accounted R0 c → accounted R0 (Sched.schedule w c order).
Proof.
  induction order as [|i order IH]; intros c Hc; [done|].
  rewrite schedule_cons. by apply IH, step_accounted.
Qed.

Lemma step_keys w c i :
  map Sched.key (Sched.tasks (Sched.step w c i)) = map Sched.key (Sched.tasks c).
Proof.
  unfold Sched.step. destruct (Sched.tasks c !! i) as [t|] eqn:Hi; [|done].
  destruct (Sched.resume w (Sched.registry c) t) as [[seg R'] t'] eqn:Hres.
  apply resume_spec in Hres as [Hkey _]. simpl.
  rewrite list_fmap_insert, Hkey. apply list_insert_id.
  by rewrite list_lookup_fmap, Hi.
Qed.

Lemma schedule_keys w order :
  ∀ c, map Sched.key (Sched.tasks (Sched.schedule w c order)) = map Sched.key (Sched.tasks c).
Proof.
  induction order as [|i order IH]; intros c; [done|].
  by rewrite schedule_cons, IH, step_keys.
Qed.

(** X9. However the calls interleave, a key in the registry that was not
    there at the start belongs to a call that is inside its guarded
    section at that moment. So once no call is inside the section, the
    registry holds nothing beyond what it held at the start: interleaving
    can let a duplicate in, but it never leaves a key behind. *)
Theorem registry_holds_only_running_calls (w : World) (R0 : gset string)
    (ts : list Sched.Task) (order : list nat) :
  let c := Sched.schedule w
             {| Sched.registry := R0; Sched.tasks := ts; Sched.history := [] |} order in
  (∀ k, k ∈ Sched.registry c →
     k ∈ R0 ∨ ∃ i t, Sched.tasks c !! i = Some t ∧ in_try t = true ∧ Sched.key t = k) ∧
  (forallb (λ t, negb (in_try t)) (Sched.tasks c) = true → Sched.registry c ⊆ R0).
Proof.
  intros c.
  assert (Hacc : accounted R0 c).
  { apply schedule_accounted. intros k Hk. by left. }
  split; [exact Hacc|].
  intros Hall k Hk. destruct (Hacc k Hk) as [?|(i & t & Hi & Ht & _)]; [done|].
  rewrite forallb_forall in Hall. 
  assert (Hin : In t (Sched.tasks c)) by (apply list_elem_of_In; by eapply list_elem_of_lookup_2).
  specialize (Hall t Hin). by rewrite Ht in Hall.
Qed.

Lemma registry_holds_only_running_calls_witness :
  Sched.registry
    (Sched.schedule (demo_world false [] None (Returns demo_success) (Returns tt))
       {| Sched.registry := ∅;
          Sched.tasks := [Sched.call (demo_workflow JUndefined) "req" JUndefined;
                          Sched.call (demo_workflow JUndefined) "req" JUndefined];
          Sched.history := [] |}
       [0; 1; 0; 1; 0; 1; 0; 1; 0; 1; 0; 1; 0; 1; 0; 1; 0; 1; 0; 1]%nat) ⊆ ∅.
Proof.
  apply (proj2 (registry_holds_only_running_calls
    (demo_world false [] None (Returns demo_success) (Returns tt)) ∅
    [Sched.call (demo_workflow JUndefined) "req" JUndefined;
     Sched.call (demo_workflow JUndefined) "req" JUndefined]
    [0; 1; 0; 1; 0; 1; 0; 1; 0; 1; 0; 1; 0; 1; 0; 1; 0; 1; 0; 1]%nat)).
  vm_compute. reflexivity.
Defined.

(** X10. A call whose key was not in the registry at the start and is
    shared with no other call is never turned away as a duplicate:
    whenever it is resumed from its entry, whatever the other calls have
    done in between, its key is absent and it goes on to the usage
    check. *)
Theorem unique_key_passes_duplicate_check (w : World) (R0 : gset string)
    (ts : list Sched.Task) (order : list nat) (i : nat) (t : Sched.Task) :
  let c := Sched.schedule w
             {| Sched.registry := R0; Sched.tasks := ts; Sched.history := [] |} order in
  Sched.key t ∉ R0 →
  (∀ j t', ts !! j = Some t' → j ≠ i → Sched.key t' ≠ Sched.key t) →
  Sched.tasks c !! i = Some t →
  Sched.pc t = Sched.Entry →
  (Sched.key t ∉ Sched.registry c) ∧
  Sched.tasks (Sched.step w c i) !! i = Some (Sched.at_pc t Sched.AwaitUsage) ∧
  Sched.history (Sched.step w c i)
    = Sched.history c ++ [(i, UsageLookup (workflow_userId (Sched.workflow t)))].
Proof.
  intros c Hfresh Huniq Hi Hpc.
  assert (Hacc : accounted R0 c).
  { apply schedule_accounted. intros k Hk. by left. }
  assert (Hkeys : map Sched.key (Sched.tasks c) = map Sched.key ts).
  { apply (schedule_keys w order {| Sched.registry := R0; Sched.tasks := ts;
                                    Sched.history := [] |}). }
  assert (Hout : Sched.key t ∉ Sched.registry c).
  { intros Hk. destruct (Hacc _ Hk) as [?|(j & tj & Hj & Htry & Hkj)]; [done|].
    destruct (decide (j = i)) as [->|Hne].
    - rewrite Hi in Hj. injection Hj as <-. unfold in_try in Htry. by rewrite Hpc in Htry.
    - assert (Hkj' : map Sched.key ts !! j = Some (Sched.key tj)).
      { by rewrite <- Hkeys, list_lookup_fmap, Hj. }
      rewrite list_lookup_fmap in Hkj'.
      destruct (ts !! j) as [t0|] eqn:Ht0; [|done]. injection Hkj' as Hkj'.
      apply (Huniq j t0 Ht0 Hne). congruence. }
  split; [done|].
  rewrite (Sched_step_entry w c i t Hi Hpc Hout). simpl.
  split; [|done]. apply list_lookup_insert_eq. by eapply lookup_lt_Some.
Qed.

Lemma unique_key_passes_duplicate_check_witness :
  "wf:r2" ∉ Sched.registry
    (Sched.schedule (demo_world false [] None (Returns demo_success) (Returns tt))
       {| Sched.registry := ∅;
          Sched.tasks := [Sched.call (demo_workflow JUndefined) "r1" JUndefined;
                          Sched.call (demo_workflow JUndefined) "r2" JUndefined];
          Sched.history := [] |}
       [0; 0; 0]%nat).
Proof.
  refine (proj1 (unique_key_passes_duplicate_check
    (demo_world false [] None (Returns demo_success) (Returns tt)) ∅
    [Sched.call (demo_workflow JUndefined) "r1" JUndefined;
     Sched.call (demo_workflow JUndefined) "r2" JUndefined]
    [0; 0; 0]%nat 1 (Sched.call (demo_workflow JUndefined) "r2" JUndefined) _ _ _ eq_refl)).
  - apply not_elem_of_empty.
  - intros [|[|j]] t'; simpl; intros [= <-] Hj; [|done]. vm_compute. discriminate.
  - vm_compute. reflexivity.
Defined.

(** ** Response formats *)

Lemma processBlockStates_fold w rid entries :
  ∀ acc, ∃ t,
    processBlockStates w rid entries acc
    = (t, Ok (fold_left (λ a kv, set_prop kv.1 (parseResponseFormat w kv.2) a) entries acc))
    ∧ forallb is_log t = true.
Proof.
  induction entries as [|[id st] rest IH]; intros acc; simpl.
  - by exists [].
  - unfold parseResponseFormat.
    destruct (lookup_prop "responseFormat" st) as [[| | | |[|c text]| |]|]; try apply IH.
    destruct (JSON_parse w (String c text)) as [parsed|msg].
    + destruct (IH (set_prop id (set_prop "responseFormat" parsed st) acc)) as (t & -> & Ht).
      eexists. split; [reflexivity|]. done.
    + destruct (IH (set_prop id st acc)) as (t & -> & Ht).
      eexists. split; [reflexivity|]. done.
Qed.

Lemma parseResponseFormat_other w st k :
  k ≠ "responseFormat" → lookup_prop k (parseResponseFormat w st) = lookup_prop k st.
Proof.
  intros Hk. unfold parseResponseFormat.
  destruct (lookup_prop "responseFormat" st) as [[| | | |[|c text]| |]|]; try done.
  destruct (JSON_parse w _); [|done]. by apply lookup_set_prop_ne.
Qed.

Lemma parseResponseFormat_keys w st : map fst (parseResponseFormat w st) = map fst st.
Proof.
  unfold parseResponseFormat.
  destruct (lookup_prop "responseFormat" st) as [[| | | |[|c text]| |]|] eqn:Hl; try done.
  destruct (JSON_parse w _); [|done]. by eapply set_prop_keys_present.
Qed.

(** X12. Parsing the response formats never fails an execution and
    touches nothing else: the stage returns, logging only; the blocks
    come out in the order they went in; in each block the keys and their
    order are kept and every property other than [responseFormat] has
    the value it had. A non-empty string [responseFormat] is replaced by
    its parse when it parses and left as it is when it does not. *)
Theorem processBlockStates_only_parses_responseFormat (w : World) (rid : string)
    (entries : MergedStates) :
  NoDup (map fst entries) →
  (∃ t, processBlockStates w rid entries []
        = (t, Ok (map (λ kv, (kv.1, parseResponseFormat w kv.2)) entries))
        ∧ forallb is_log t = true) ∧
  ∀ st,
    map fst (parseResponseFormat w st) = map fst st ∧
    (∀ k, k ≠ "responseFormat" → lookup_prop k (parseResponseFormat w st) = lookup_prop k st) ∧
    (∀ c text, lookup_prop "responseFormat" st = Some (JStr (String c text)) →
       lookup_prop "responseFormat" (parseResponseFormat w st)
       = Some match JSON_parse w (String c text) with
              | Returns parsed => parsed
              | Rejects _ => JStr (String c text)
              end).
Proof.
  intros Hnd. split.
  - destruct (processBlockStates_fold w rid entries []) as (t & Heq & Ht).
    exists t. split; [|done]. rewrite Heq. do 2 f_equal.
    rewrite (fold_set_prop_fresh (parseResponseFormat w) entries []); [done|done|].
    intros k _. apply not_elem_of_nil.
  - intros st. split; [apply parseResponseFormat_keys|].
    split; [intros; by apply parseResponseFormat_other|].
    intros c text Hl. unfold parseResponseFormat. rewrite Hl.
    destruct (JSON_parse w _); [|done]. apply lookup_set_prop_eq.
Qed.

Lemma processBlockStates_only_parses_responseFormat_witness :
  ∃ t, processBlockStates (demo_world false [] None (Returns demo_success) (Returns tt)) "req"
         [("b1", [("model", JStr "m"); ("responseFormat", JStr "{}")]);
          ("b2", [("responseFormat", JStr "{oops")])] []
       = (t, Ok [("b1", [("model", JStr "m"); ("responseFormat", JObj [])]);
                 ("b2", [("responseFormat", JStr "{oops")])])
       ∧ forallb is_log t = true.
Proof.
  refine (proj1 (processBlockStates_only_parses_responseFormat
                   (demo_world false [] None (Returns demo_success) (Returns tt)) "req"
                   [("b1", [("model", JStr "m"); ("responseFormat", JStr "{}")]);
                    ("b2", [("responseFormat", JStr "{oops")])] _)).
  apply (bool_decide_unpack _). vm_compute. exact I.
Defined.

(** ** Substitution, block by block *)

Lemma substituteValue_no_placeholder w rid vars v :
  no_placeholder v = true → substituteValue w rid vars v = ([], Ok v).
Proof.
  destruct v; try done. simpl. intros Hn.
  destruct (_ && _); [|done]. unfold matchPlaceholders.
  by destruct (match_all 0 s).
Qed.

Lemma map_pair_eta {A B} (l : list (A * B)) : map (λ kv, (kv.1, kv.2)) l = l.
Proof. induction l as [|[a b] l IH]; simpl; by rewrite ?IH. Qed.

Lemma Forall2_keys {A B} (P : string * A → string * B → Prop) l l' :
  (∀ x y, P x y → x.1 = y.1) → Forall2 P l l' → map fst l = map fst l'.
Proof.
  intros HP. induction 1 as [|x y l l' Hxy _ IH]; simpl; [done|].
  by rewrite (HP _ _ Hxy), IH.
Qed.

Lemma resolveSubBlocks_fold w rid vars entries :
  ∀ acc t out,
    resolveSubBlocks w rid vars entries acc = (t, Ok out) →
    ∃ resolved,
      Forall2 (substituted w rid vars) entries resolved ∧
      out = fold_left (λ a kv, set_prop kv.1 kv.2 a) resolved acc.
Proof.
  induction entries as [|[k v] rest IH]; intros acc t out; simpl.
  - intros [= <- <-]. exists []. by split.
  - destruct (substituteValue w rid vars v) as [t1 [v'|e]] eqn:Hv; unfold bind; [|done].
    destruct (resolveSubBlocks w rid vars rest (set_prop k v' acc)) as [t2 r] eqn:Hrest.
    intros [= <- ->]. destruct (IH _ _ _ Hrest) as (resolved & HF & ->).
    exists ((k, v') :: resolved). split; [|done].
    constructor; [|done]. split; [done|]. simpl. by rewrite Hv.
Qed.

Lemma resolveSubBlocks_pointwise w rid vars entries t out :
  NoDup (map fst entries) →
  resolveSubBlocks w rid vars entries [] = (t, Ok out) →
  Forall2 (substituted w rid vars) entries out.
Proof.
  intros Hnd Hr. destruct (resolveSubBlocks_fold _ _ _ _ _ _ _ Hr) as (resolved & HF & ->).
  assert (Hkeys : map fst entries = map fst resolved).
  { eapply Forall2_keys, HF. by intros x y [? _]. }
  rewrite (fold_set_prop_fresh (λ v, v) resolved []), map_pair_eta; [done| |].
  - by rewrite <- Hkeys.
  - intros k _. apply not_elem_of_nil.
Qed.

Lemma resolveBlocks_fold w rid vars entries :
  Forall (λ b, NoDup (map fst b.2)) entries →
  ∀ acc t out,
    resolveBlocks w rid vars entries acc = (t, Ok out) →
    ∃ resolved,
      Forall2 (substituted_block w rid vars) entries resolved ∧
      out = fold_left (λ a kv, set_prop kv.1 kv.2 a) resolved acc.
Proof.
  induction entries as [|[id subs] rest IH]; intros Hall acc t out; simpl.
  - intros [= <- <-]. exists []. by split.
  - apply Forall_cons in Hall as [Hsubs Hall].
    destruct (resolveSubBlocks w rid vars subs []) as [t1 [sub|e]] eqn:Hs; unfold bind; [|done].
    destruct (resolveBlocks w rid vars rest (set_prop id sub acc)) as [t2 r] eqn:Hrest.
    intros [= <- ->]. destruct (IH Hall _ _ _ Hrest) as (resolved & HF & ->).
    exists ((id, sub) :: resolved). split; [|done].
    constructor; [|done]. split; [done|]. simpl. by eapply resolveSubBlocks_pointwise.
Qed.

Lemma resolveSubBlocks_untouched w rid vars entries :
  Forall (λ kv, no_placeholder kv.2 = true) entries →
  ∀ acc, resolveSubBlocks w rid vars entries acc
         = ([], Ok (fold_left (λ a kv, set_prop kv.1 kv.2 a) entries acc)).
Proof.
  induction 1 as [|[k v] rest Hv _ IH]; intros acc; simpl; [done|].
  rewrite substituteValue_no_placeholder by done. unfold bind. by rewrite IH.
Qed.

Lemma resolveBlocks_untouched w rid vars entries :
  Forall (λ b, NoDup (map fst b.2) ∧ Forall (λ kv, no_placeholder kv.2 = true) b.2) entries →
  ∀ acc, resolveBlocks w rid vars entries acc
         = ([], Ok (fold_left (λ a kv, set_prop kv.1 kv.2 a) entries acc)).
Proof.
  induction 1 as [|[id subs] rest [Hnd Hv] _ IH]; intros acc; simpl; [done|].
  rewrite resolveSubBlocks_untouched by done.
  rewrite (fold_set_prop_fresh (λ v, v) subs []), map_pair_eta; [|done|].
  - unfold bind. by rewrite IH.
  - intros k _. apply not_elem_of_nil.
Qed.

(** X13. Substitution works value by value and keeps the shape of the
    block states: when it returns, the blocks and, in each block, the
    sub-block keys are those that went in, in the same order, and each
    value is what [substituteValue] makes of the value at that place
    alone. A value that is not a string, or holds no placeholder, comes
    out as it is and costs no decryption; when no value holds a
    placeholder the whole stage returns its argument without a single
    call. Block ids and the keys of a block are distinct, as the keys of
    an object are. *)
Theorem resolveBlocks_value_by_value (w : World) (rid : string)
    (vars : list (string * string)) (merged : MergedStates) :
  NoDup (map fst merged) →
  Forall (λ b, NoDup (map fst b.2)) merged →
  (∀ t current,
     resolveBlocks w rid vars merged [] = (t, Ok current) →
     Forall2 (substituted_block w rid vars) merged current) ∧
  (∀ v, no_placeholder v = true → substituteValue w rid vars v = ([], Ok v)) ∧
  (Forall (λ b, Forall (λ kv, no_placeholder kv.2 = true) b.2) merged →
   resolveBlocks w rid vars merged [] = ([], Ok merged)).
Proof.
  intros Hnd Hsubs. split; [|split].
  - intros t current Hr.
    destruct (resolveBlocks_fold _ _ _ _ Hsubs _ _ _ Hr) as (resolved & HF & ->).
    assert (Hkeys : map fst merged = map fst resolved).
    { eapply Forall2_keys, HF. by intros x y [? _]. }
    rewrite (fold_set_prop_fresh (λ v, v) resolved []), map_pair_eta; [done| |].
    + by rewrite <- Hkeys.
    + intros k _. apply not_elem_of_nil.
  - apply substituteValue_no_placeholder.
  - intros Hplain. rewrite resolveBlocks_untouched.
    + rewrite (fold_set_prop_fresh (λ v, v) merged []), map_pair_eta; [done|done|].
      intros k _. apply not_elem_of_nil.
    + rewrite Forall_forall in *. intros b Hb. split; [by apply Hsubs|by apply Hplain].
Qed.

Lemma resolveBlocks_value_by_value_witness :
  resolveBlocks (demo_world false [] None (Returns demo_success) (Returns tt)) "req"
    [("A", "enc:x")]
    [("b1", [("prompt", JStr "no braces here"); ("n", JNum 3)]); ("b2", [])] []
  = ([], Ok [("b1", [("prompt", JStr "no braces here"); ("n", JNum 3)]); ("b2", [])]).
Proof.
  refine (proj2 (proj2 (resolveBlocks_value_by_value
            (demo_world false [] None (Returns demo_success) (Returns tt)) "req"
            [("A", "enc:x")]
            [("b1", [("prompt", JStr "no braces here"); ("n", JNum 3)]); ("b2", [])] _ _)) _).
  - apply (bool_decide_unpack _). vm_compute. exact I.
  - repeat constructor; apply (bool_decide_unpack _); vm_compute; exact I.
  - repeat constructor.
Defined.

(** ** A placeholder for a variable that is not stored *)

Lemma replaceMatches_unknown w rid vars ms m :
  In m ms → not_stored vars m →
  ∀ value, ∃ e, (replaceMatches w rid vars ms value).2 = Throw e.
Proof.
  intros Hin Hm. induction ms as [|m' rest IH]; [done|]. intros value.
  destruct (lookup_prop (slice_2_m2 m') vars) as [[|c enc]|] eqn:Hl.
  1,3: rewrite replaceMatches_not_found by (unfold not_stored in *; intuition); by eexists.
  destruct Hin as [->|Hin].
  { destruct Hm as [Hm|Hm]; congruence. }
  simpl. rewrite Hl. unfold await, ret, bind, try_catch, emit, throw.
  destruct (decryptSecret w (String c enc)) as [p|msg]; simpl.
  - destruct (IH Hin (replace value m' p)) as [e He].
    destruct (replaceMatches w rid vars rest _). simpl in *. eauto.
  - by eexists.
Qed.

Lemma substituteValue_unknown w rid vars s m :
  In m (match_all 0 s) → not_stored vars m →
  ∃ e, (substituteValue w rid vars (JStr s)).2 = Throw e.
Proof.
  intros Hin Hm. simpl.
  rewrite match_all_guard by (by destruct (match_all 0 s)).
  unfold matchPlaceholders. destruct (match_all 0 s) as [|m0 ms] eqn:Hms; [done|].
  destruct (replaceMatches_unknown w rid vars (m0 :: ms) m Hin Hm s) as [e He].
  unfold bind. destruct (replaceMatches w rid vars (m0 :: ms) s) as [t [v|e']]; [done|].
  by eexists.
Qed.

Lemma resolveSubBlocks_unknown w rid vars entries key s m :
  In (key, JStr s) entries → In m (match_all 0 s) → not_stored vars m →
  ∀ acc, ∃ e, (resolveSubBlocks w rid vars entries acc).2 = Throw e.
Proof.
  intros Hin Hm Hns. induction entries as [|[k v] rest IH]; [done|]. intros acc. simpl.
  destruct (substituteValue w rid vars v) as [t [v'|e]] eqn:Hv; unfold bind; [|by eexists].
  destruct Hin as [[= -> ->]|Hin].
  { destruct (substituteValue_unknown w rid vars s m Hm Hns) as [e He].
    rewrite Hv in He. done. }
  destruct (IH Hin (set_prop k v' acc)) as [e He].
  destruct (resolveSubBlocks w rid vars rest _). simpl in *. eauto.
Qed.

Lemma resolveBlocks_unknown w rid vars merged id subs key s m :
  In (id, subs) merged → In (key, JStr s) subs → In m (match_all 0 s) → not_stored vars m →
  ∀ acc, ∃ e, (resolveBlocks w rid vars merged acc).2 = Throw e.
Proof.
  intros Hin Hk Hm Hns. induction merged as [|[id' subs'] rest IH]; [done|]. intros acc. simpl.
  destruct (resolveSubBlocks w rid vars subs' []) as [t [sub|e]] eqn:Hs; unfold bind;
    [|by eexists].
  destruct Hin as [[= -> ->]|Hin].
  { destruct (resolveSubBlocks_unknown w rid vars subs key s m Hk Hm Hns []) as [e He].
    rewrite Hs in He. done. }
  destruct (IH Hin (set_prop id' sub acc)) as [e He].
  destruct (resolveBlocks w rid vars rest _). simpl in *. eauto.
Qed.

(** X14. A workflow that refers to a variable the user has not stored is
    never executed. If any string value of any block holds a placeholder
    whose name has no stored ciphertext, or an empty one, the guarded
    section throws before the engine is invoked, wherever the
    placeholder stands and whatever else the blocks hold. *)
Theorem undefined_variable_stops_the_run (w : World) (rid eid : string) (wf : Workflow)
    (input : JSValue) (ts tv : list Event) (state : WorkflowState) (merged : MergedStates)
    (vars : list (string * string)) (id key s m : string)
    (subs : list (string * JSValue)) :
  loadState w rid wf = (ts, Ok state) →
  mergeSubblockState w (blocks state) = Returns merged →
  loadVariables w rid wf = (tv, Ok vars) →
  In (id, subs) merged → In (key, JStr s) subs → In m (match_all 0 s) →
  lookup_prop (slice_2_m2 m) vars = None ∨ lookup_prop (slice_2_m2 m) vars = Some EmptyString →
  (∃ e, (guarded w rid eid wf input).2 = Throw e) ∧
  List.filter is_engine (guarded w rid eid wf input).1 = [].
Proof.
  intros Hs Hm Hv Hin Hk Hmatch Hns.
  destruct (resolveBlocks_unknown w rid vars merged id subs key s m Hin Hk Hmatch Hns [])
    as [e He].
  assert (Hcfg : ∃ t0, resolveConfiguration w rid wf = (t0, Throw e)).
  { unfold resolveConfiguration.
    rewrite (bind_ok _ _ _ _ Hs). rewrite Hm. unfold call.
    rewrite (bind_ok _ _ [] merged eq_refl). rewrite (bind_ok _ _ _ _ Hv).
    destruct (resolveBlocks w rid vars merged []) as [tc [c|e']] eqn:Hr; [done|].
    simpl in He. injection He as ->.
    rewrite (bind_throw _ _ _ _ eq_refl). simpl. by eexists. }
  destruct Hcfg as [t0 Hcfg].
  rewrite (guarded_configuration_fails w rid eid wf input t0 e Hcfg). simpl.
  split; [by exists e|].
  pose proof (silent_resolveConfiguration is_engine
                ltac:(done) ltac:(done) ltac:(done) ltac:(done) w rid wf) as Hsil.
  unfold silent in Hsil. by rewrite Hcfg in Hsil.
Qed.

Lemma undefined_variable_stops_the_run_witness :
  List.filter is_engine
    (guarded (demo_world false [("b1", [("prompt", JStr "Hello {{B}}")])]
                (Some (JObj [("A", JStr "enc:x")])) (Returns demo_success) (Returns tt))
       "req" "execution-1" (demo_workflow JUndefined) JUndefined).1 = [].
Proof.
  refine (proj2 (undefined_variable_stops_the_run
    (demo_world false [("b1", [("prompt", JStr "Hello {{B}}")])]
       (Some (JObj [("A", JStr "enc:x")])) (Returns demo_success) (Returns tt))
    "req" "execution-1" (demo_workflow JUndefined) JUndefined
    _ _ _ [("b1", [("prompt", JStr "Hello {{B}}")])] [("A", "enc:x")]
    "b1" "prompt" "Hello {{B}}" "{{B}}" [("prompt", JStr "Hello {{B}}")]
    eq_refl eq_refl eq_refl _ _ _ _)).
  - left. reflexivity.
  - left. reflexivity.
  - left. reflexivity.
  - left. reflexivity.
Defined.

(** ** The environment handed to the engine *)

Lemma record_of_strings_spec props vs :
  record_of_strings props = Some vs ↔ props = map (λ kv, (kv.1, JStr kv.2)) vs.
Proof.
  revert vs. induction props as [|[k v] rest IH]; intros vs; simpl.
  - split; [by intros [= <-]|]. by destruct vs.
  - destruct v; try (split; [done|by destruct vs as [|[? ?] ?]]).
    destruct (record_of_strings rest) as [vs'|] eqn:Hr.
    + split.
      * intros [= <-]. simpl. f_equal. by apply IH.
      * destruct vs as [|[k' s'] vs]; [done|]. simpl. intros [= -> -> Hrest].
        apply IH in Hrest. by injection Hrest as ->.
    + split; [done|]. destruct vs as [|[k' s'] vs]; [done|]. simpl. intros [= -> -> Hrest].
      apply IH in Hrest. done.
Qed.

Lemma EnvVarsSchema_parse_spec w v vars :
  (EnvVarsSchema_parse w v).2 = Ok vars ↔ v = JObj (map (λ kv, (kv.1, JStr kv.2)) vars).
Proof.
  unfold EnvVarsSchema_parse, ret, throw. destruct v as [| |b|n|s|items|props]; try done.
  destruct (record_of_strings props) as [vs|] eqn:Hr; simpl.
  - apply record_of_strings_spec in Hr as ->. split; [by intros [= ->]|].
    intros [= Hm]. f_equal. apply (f_equal record_of_strings) in Hm.
    rewrite !(proj2 (record_of_strings_spec _ _) eq_refl) in Hm. by injection Hm.
  - split; [done|]. intros [= ->].
    by rewrite (proj2 (record_of_strings_spec _ _) eq_refl) in Hr.
Qed.

Lemma EnvVarsSchema_parse_quiet w v : (EnvVarsSchema_parse w v).1 = [].
Proof.
  unfold EnvVarsSchema_parse, ret, throw. destruct v as [| |b|n|s|items|props]; try done.
  by destruct (record_of_strings props).
Qed.

Lemma loadVariables_selected w rid wf userEnv :
  selectEnvironment w (workflow_userId wf) = Returns userEnv →
  (loadVariables w rid wf).2 = (EnvVarsSchema_parse w (variables_or_empty userEnv)).2 ∧
  List.filter Sched.awaited (loadVariables w rid wf).1 = [SelectEnvironment (workflow_userId wf)].
Proof.
  intros Hs. unfold loadVariables. rewrite Hs. unfold await, bind, emit, ret.
  pose proof (EnvVarsSchema_parse_quiet w (variables_or_empty userEnv)) as Hq.
  destruct (EnvVarsSchema_parse w (variables_or_empty userEnv)) as [t r]. simpl in Hq. subst t.
  by destruct userEnv.
Qed.

(** X15. The stored variables are read as they are or not at all.
    [loadVariables] returns a list of names and ciphertexts exactly when
    the environment row could be selected and its [variables] column
    (the empty object when the row or the column is missing) is an object
    whose values are all strings; the list is that object, entry by entry
    and in its order. Anything else, such as one value that is not a
    string, throws. The stage awaits the selection and nothing else: no
    ciphertext is decrypted before the whole record has been accepted. *)
Theorem loadVariables_reads_the_stored_record (w : World) (rid : string) (wf : Workflow)
    (vars : list (string * string)) :
  ((loadVariables w rid wf).2 = Ok vars ↔
   ∃ userEnv,
     selectEnvironment w (workflow_userId wf) = Returns userEnv ∧
     variables_or_empty userEnv = JObj (map (λ kv, (kv.1, JStr kv.2)) vars)) ∧
  List.filter Sched.awaited (loadVariables w rid wf).1
    = [SelectEnvironment (workflow_userId wf)] ∧
  (selectEnvironment w (workflow_userId wf) = Returns None →
   (loadVariables w rid wf).2 = Ok []).
Proof.
  destruct (selectEnvironment w (workflow_userId wf)) as [userEnv|msg] eqn:Hs.
  - destruct (loadVariables_selected w rid wf userEnv Hs) as [-> ->].
    split; [|split; [done|]].
    + rewrite EnvVarsSchema_parse_spec. split; [by exists userEnv|].
      by intros (? & [= <-] & ?).
    + by intros [= ->].
  - unfold loadVariables. rewrite Hs. unfold await, bind. simpl.
    split; [|done]. split; [done|]. by intros (? & [=] & _).
Qed.

Lemma decryptAll_ok_inv w rid vars :
  ∀ acc out, (decryptAll w rid vars acc).2 = Ok out →
  ∃ plain, resolve_all w vars = Some plain ∧
           out = fold_left (λ a kv, set_prop kv.1 kv.2 a) plain acc.
Proof.
  induction vars as [|[k enc] rest IH]; intros acc out; simpl.
  - intros [= <-]. by exists [].
  - unfold await, try_catch, bind, emit, throw.
    destruct (decryptSecret w enc) as [p|msg]; [|done]. simpl.
    destruct (decryptAll w rid rest (set_prop k p acc)) as [t r] eqn:Hd. simpl. intros ->.
    destruct (IH (set_prop k p acc) out) as (plain & Hp & ->); [by rewrite Hd|].
    exists ((k, p) :: plain). by rewrite Hp.
Qed.

Lemma resolve_all_keys w vars plain :
  resolve_all w vars = Some plain → map fst plain = map fst vars.
Proof.
  revert plain. induction vars as [|[k enc] rest IH]; intros plain; simpl.
  - by intros [= <-].
  - destruct (decryptSecret w enc); [|done].
    destruct (resolve_all w rest) as [ps|]; [|done].
    intros [= <-]. simpl. f_equal. by apply IH.
Qed.

(** X16. The engine is never started on a partly decrypted environment.
    Whenever the engine is invoked, every stored variable has been
    decrypted, and the environment the engine is given is the list of
    the stored names, in their stored order, each with its plaintext
    (the stored names being distinct, as the keys of an object are). *)
Theorem engine_environment_is_fully_decrypted (w : World) (rid eid : string) (wf : Workflow)
    (input : JSValue) (tv : list Event) (vars : list (string * string))
    (ser : JSValue) (bs : MergedStates) (env : list (string * string))
    (inp wv : JSValue) (wid : string) :
  loadVariables w rid wf = (tv, Ok vars) →
  NoDup (map fst vars) →
  In (EngineInvoke ser bs env inp wv wid) (guarded w rid eid wf input).1 →
  resolve_all w vars = Some env.
Proof.
  intros Hv Hnd Hin. unfold guarded in Hin.
  apply In_bind_inv in Hin as [Hin|(t1 & [] & _ & Hin)].
  { by destruct Hin as [[=]|[]]. }
  apply In_bind_inv in Hin as [Hin|(t2 & cfg & Hcfg & Hin)].
  { exfalso. by eapply (silent_not_In is_engine), Hin; [apply silent_resolveConfiguration|]. }
  apply In_bind_inv in Hin as [Hin|(t3 & wv' & _ & Hin)].
  { exfalso. by eapply (silent_not_In is_engine), Hin; [apply silent_loadWorkflowVariables|]. }
  apply In_bind_inv in Hin as [Hin|(t4 & [] & _ & Hin)].
  { by destruct Hin as [[=]|[]]. }
  apply In_bind_inv in Hin as [Hin|(t5 & ser' & _ & Hin)].
  { exfalso. by eapply (silent_not_In is_engine), Hin; [apply silent_call|]. }
  apply runEngine_engine_event in Hin; [|done]. injection Hin as _ _ -> _ _ _.
  assert (Hc : (resolveConfiguration w rid wf).2 = Ok cfg) by (by rewrite Hcfg).
  unfold resolveConfiguration in Hc.
  apply bind_ok_inv in Hc as (s1 & state & _ & Hc).
  apply bind_ok_inv in Hc as (s2 & merged & _ & Hc).
  apply bind_ok_inv in Hc as (s3 & vars' & Hv' & Hc).
  rewrite Hv in Hv'. injection Hv' as <- <-.
  apply bind_ok_inv in Hc as (s4 & current & _ & Hc).
  apply bind_ok_inv in Hc as (s5 & envVars & Hd & Hc).
  apply bind_ok_inv in Hc as (s6 & processed & _ & Hc).
  injection Hc as <-. simpl.
  destruct (decryptAll_ok_inv w rid vars [] envVars) as (plain & Hp & ->); [by rewrite Hd|].
  rewrite Hp. f_equal.
  rewrite (fold_set_prop_fresh (λ v, v) plain []), map_pair_eta; [done| |].
  - by rewrite (resolve_all_keys _ _ _ Hp).
  - intros k _. apply not_elem_of_nil.
Qed.

Lemma engine_environment_is_fully_decrypted_witness :
  resolve_all (demo_world false [("b1", [("prompt", JStr "Hello {{A}}")])]
                 (Some (JObj [("A", JStr "enc:x"); ("B", JStr "enc:y")]))
                 (Returns demo_success) (Returns tt))
    [("A", "enc:x"); ("B", "enc:y")]
  = Some [("A", "x"); ("B", "y")].
Proof.
  refine (engine_environment_is_fully_decrypted
    (demo_world false [("b1", [("prompt", JStr "Hello {{A}}")])]
       (Some (JObj [("A", JStr "enc:x"); ("B", JStr "enc:y")]))
       (Returns demo_success) (Returns tt))
    "req" "execution-1" (demo_workflow JUndefined) JUndefined
    _ [("A", "enc:x"); ("B", "enc:y")]
    (JObj []) [("b1", [("prompt", JStr "Hello x")])] [("A", "x"); ("B", "y")]
    JUndefined (JObj []) "wf" eq_refl _ _).
  - apply (bool_decide_unpack _). vm_compute. exact I.
  - vm_compute. find_event.
Defined.

(** ** The result that is returned *)

Lemma silent_filter {A} p (m : W A) t r : silent p m → m = (t, r) → List.filter p t = [].
Proof. intros Hs ->. exact Hs. Qed.

(** X17. What [executeWorkflow] returns is what the engine returned. A
    call that returns a value has invoked the engine exactly once, for
    the workflow and with the input it was called with, and the value is
    the execution part of the result the engine gave to that call. *)
Theorem returned_result_is_the_engines (w : World) (R : gset string) (wf : Workflow)
    (rid : string) (input v : JSValue) :
  outcome_of (executeWorkflow w R wf rid input) = Ok v →
  ∃ ser bs env wv result,
    List.filter is_engine (trace_of (executeWorkflow w R wf rid input))
      = [EngineInvoke ser bs env input wv (workflow_id wf)] ∧
    execute w ser bs env input wv (workflow_id wf) = Returns result ∧
    v = selectExecutionResult result.
Proof.
  intros Hout.
  assert (Hadm : (executionKeyOf (workflow_id wf) rid ∉ R) ∧
            ∃ u, checkServerSideUsageLimits w (workflow_userId wf) = Returns u ∧
                 isExceeded u = false).
  { revert Hout. unfold executeWorkflow, outcome_of. case_bool_decide; [done|].
    destruct (checkServerSideUsageLimits w _) as [u|msg]; [|done].
    destruct (isExceeded u) eqn:Hex; [done|]. intros _. split; [done|]. by exists u. }
  destruct Hadm as (Hk & u & Hu & Hex).
  rewrite (executeWorkflow_admitted w R wf rid input Hk u Hu Hex) in *.
  unfold trace_of, outcome_of in *. simpl in Hout. simpl.
  unfold tryCatchSection in *.
  destruct (guarded w rid (uuidv4 w) wf input) as [t [v0|e0]] eqn:Hg.
  2:{ exfalso. revert Hout. unfold try_catch, onFailure, bind, emit, await, throw. simpl.
      by destruct (persistExecutionError w _ _ e0). }
  unfold try_catch in *. simpl in Hout. injection Hout as ->. simpl.
  assert (Hg2 : (guarded w rid (uuidv4 w) wf input).2 = Ok v) by (by rewrite Hg).
  assert (Hg1 : (guarded w rid (uuidv4 w) wf input).1 = t) by (by rewrite Hg).
  clear Hg. unfold guarded in Hg1, Hg2.
  apply bind_ok_inv in Hg2 as (t1 & [] & E1 & Hg2). rewrite (bind_ok _ _ _ _ E1) in Hg1.
  apply bind_ok_inv in Hg2 as (t2 & cfg & E2 & Hg2). rewrite (bind_ok _ _ _ _ E2) in Hg1.
  apply bind_ok_inv in Hg2 as (t3 & wv & E3 & Hg2). rewrite (bind_ok _ _ _ _ E3) in Hg1.
  apply bind_ok_inv in Hg2 as (t4 & [] & E4 & Hg2). rewrite (bind_ok _ _ _ _ E4) in Hg1.
  apply bind_ok_inv in Hg2 as (t5 & ser & E5 & Hg2). rewrite (bind_ok _ _ _ _ E5) in Hg1.
  simpl in Hg1.
  exists ser, (cfg_processedBlockStates cfg), (cfg_decryptedEnvVars cfg), wv.
  assert (He : ∃ result, execute w ser (cfg_processedBlockStates cfg) (cfg_decryptedEnvVars cfg)
                           input wv (workflow_id wf) = Returns result).
  { revert Hg2. unfold runEngine, await, bind. by destruct (execute w _ _ _ _ _ _); eauto. }
  destruct He as [result He]. exists result.
  pose proof (runEngine_returns w rid (uuidv4 w) wf ser _ _ input wv result He) as Hr.
  pose proof (runEngine_bookkeeping w rid (uuidv4 w) wf ser (cfg_processedBlockStates cfg)
                (cfg_decryptedEnvVars cfg) input wv) as Hb.
  split; [|split; [done|]].
  - assert (Hf : List.filter is_engine
                   (runEngine w rid (uuidv4 w) wf ser (cfg_processedBlockStates cfg)
                      (cfg_decryptedEnvVars cfg) input wv).1
                 = [EngineInvoke ser (cfg_processedBlockStates cfg) (cfg_decryptedEnvVars cfg)
                      input wv (workflow_id wf)]).
    { rewrite <- (filter_filter_implies is_bookkeeping is_engine)
        by (intros x Hx; unfold is_bookkeeping; by rewrite Hx).
      rewrite Hb. unfold bookkeeping_of.
      match goal with |- context [engine_succeeded ?w0 ?e0] =>
        destruct (engine_succeeded w0 e0) end; [|done].
      by destruct (updateWorkflowRunCounts w _). }
    subst t. rewrite !List.filter_app, Hf.
    assert (F1 : List.filter is_engine t1 = [])
      by (eapply (silent_filter is_engine), E1; by apply silent_emit).
    assert (F2 : List.filter is_engine t2 = [])
      by (eapply (silent_filter is_engine), E2; by apply silent_resolveConfiguration).
    assert (F3 : List.filter is_engine t3 = [])
      by (eapply (silent_filter is_engine), E3; by apply silent_loadWorkflowVariables).
    assert (F4 : List.filter is_engine t4 = [])
      by (eapply (silent_filter is_engine), E4; by apply silent_emit).
    assert (F5 : List.filter is_engine t5 = [])
      by (eapply (silent_filter is_engine), E5; by apply silent_call).
    rewrite F1, F2, F3, F4, F5.
    reflexivity.
  - rewrite Hr in Hg2. cbv zeta in Hg2.
    destruct (get_prop (selectExecutionResult result) "success") as [tg [s|e]]; [|done].
    destruct (updateCounters w wf s) as [tc [[]|e]]; [|done].
    destruct (buildTraceSpans w _) as [[spans duration]|msg]; [|done].
    destruct (persistExecutionLogs w _ _ _); [|done].
    by injection Hg2.
Qed.

Lemma returned_result_is_the_engines_witness :
  ∃ ser bs env wv result,
    List.filter is_engine
      (trace_of (executeWorkflow (demo_world false [] None (Returns demo_success) (Returns tt))
                   ∅ (demo_workflow JUndefined) "req" (JNum 7)))
      = [EngineInvoke ser bs env (JNum 7) wv "wf"] ∧
    execute (demo_world false [] None (Returns demo_success) (Returns tt))
      ser bs env (JNum 7) wv "wf" = Returns result ∧
    JObj demo_success = selectExecutionResult result.
Proof.
  exact (returned_result_is_the_engines
           (demo_world false [] None (Returns demo_success) (Returns tt))
           ∅ (demo_workflow JUndefined) "req" (JNum 7) (JObj demo_success) eq_refl).
Defined.

(** ** Where the workflow definition comes from *)

(** X18. The deployed state of a workflow row is a fallback and nothing
    more: unless the normalized tables answer that they hold nothing for
    the workflow, the run does not depend on the deployed state at
    all. *)
Theorem deployed_state_is_only_a_fallback (w : World) (R : gset string) (wf : Workflow)
    (rid : string) (input : JSValue) (state : option WorkflowState) :
  loadWorkflowFromNormalizedTables w (workflow_id wf) ≠ Returns None →
  executeWorkflow w R (with_deployedState wf state) rid input
  = executeWorkflow w R wf rid input.
Proof.
  intros Hn.
  assert (Hload : loadState w rid (with_deployedState wf state) = loadState w rid wf).
  { unfold loadState. simpl.
    destruct (loadWorkflowFromNormalizedTables w (workflow_id wf)) as [[data|]|msg]; done. }
  unfold executeWorkflow, tryCatchSection, guarded, resolveConfiguration.
  rewrite Hload. reflexivity.
Qed.

Lemma deployed_state_is_only_a_fallback_witness :
  executeWorkflow (demo_world false [] None (Returns demo_success) (Returns tt)) ∅
    (with_deployedState (demo_workflow JUndefined) (Some demo_state)) "req" JUndefined
  = executeWorkflow (demo_world false [] None (Returns demo_success) (Returns tt)) ∅
      (demo_workflow JUndefined) "req" JUndefined.
Proof.
  apply (deployed_state_is_only_a_fallback
           (demo_world false [] None (Returns demo_success) (Returns tt))).
  simpl. discriminate.
Defined.

(** X19. A workflow with no definition anywhere is reported and given up
    at once. When the normalized tables hold nothing and the row has no
    deployed state, an admitted call reports the error [Workflow <id> has
    no deployed state and no normalized data available] to the execution
    log, reads no environment, decrypts nothing, does not invoke the
    engine, releases its key, and throws that error (or the rejection of
    the report). *)
Theorem missing_definition_is_reported (w : World) (R : gset string) (wf : Workflow)
    (rid : string) (input : JSValue) (u : UsageStatus) :
  executionKeyOf (workflow_id wf) rid ∉ R →
  checkServerSideUsageLimits w (workflow_userId wf) = Returns u →
  isExceeded u = false →
  loadWorkflowFromNormalizedTables w (workflow_id wf) = Returns None →
  deployedState wf = None →
  let error := PlainError ("Workflow " +:+ workflow_id wf
                           +:+ " has no deployed state and no normalized data available") in
  In (PersistError (workflow_id wf) (uuidv4 w) error)
     (trace_of (executeWorkflow w R wf rid input)) ∧
  List.filter needs_definition (trace_of (executeWorkflow w R wf rid input)) = [] ∧
  outcome_of (executeWorkflow w R wf rid input)
    = match persistExecutionError w (workflow_id wf) (uuidv4 w) error with
      | Returns _ => Throw error
      | Rejects msg => Throw (PlainError msg)
      end ∧
  registry_after (executeWorkflow w R wf rid input) = R.
Proof.
  intros Hk Hu Hex Hn Hd error.
  rewrite (executeWorkflow_admitted w R wf rid input Hk u Hu Hex).
  assert (Hg : ∃ t, guarded w rid (uuidv4 w) wf input = (t, Throw error)
                    ∧ List.filter needs_definition t = []).
  { unfold guarded, resolveConfiguration, loadState.
    rewrite Hn, Hd. unfold bind, emit, await, throw. simpl. by eexists. }
  destruct Hg as (t & Hg & Ht).
  unfold tryCatchSection. rewrite Hg.
  unfold try_catch, onFailure, bind, emit, await, throw, trace_of, outcome_of, registry_after.
  simpl. split; [|split; [|split]].
  - do 4 right. apply in_or_app. left.
    destruct (persistExecutionError w _ _ error); simpl;
      apply in_or_app; right; right; by left.
  - destruct (persistExecutionError w _ _ error); simpl;
      rewrite !List.filter_app, Ht; reflexivity.
  - by destruct (persistExecutionError w _ _ error) as [[]|msg].
  - by apply difference_union_fresh.
Qed.

Lemma missing_definition_is_reported_witness :
  outcome_of
    (executeWorkflow
       (with_normalized_tables (demo_world false [] None (Returns demo_success) (Returns tt))
          (fun _ => Returns None))
       ∅ (demo_workflow JUndefined) "req" JUndefined)
  = Throw (PlainError "Workflow wf has no deployed state and no normalized data available").
Proof.
  refine (proj1 (proj2 (proj2 (missing_definition_is_reported
    (with_normalized_tables (demo_world false [] None (Returns demo_success) (Returns tt))
       (fun _ => Returns None))
    ∅ (demo_workflow JUndefined) "req" JUndefined (demo_usage false) _ eq_refl eq_refl
    eq_refl eq_refl)))).
  apply not_elem_of_empty.
Defined.

(** ** Placeholders and their decryption *)

Section Placeholders.

#[local] Arguments String.append !s1 s2 : simpl nomatch.

Lemma includes_cons x c t : includes x t = true → includes x (String c t) = true.
Proof. intros H. cbn [includes]. rewrite H. apply orb_true_r. Qed.

Lemma match_all_shape s :
  ∀ k m, In m (match_all k s) →
    includes m s = true ∧
    ∃ name, m = "{{" +:+ name +:+ "}}" ∧ name ≠ EmptyString ∧ no_close name = true.
Proof.
  induction s as [|c rest IH]; intros k m; [done|].
  cbn [match_all]. destruct k as [|k].
  - destruct (match_here (String c rest)) as [name|] eqn:Hm.
    + intros [<-|Hin].
      * apply match_here_elim in Hm as (Hne & Hnc & r & Hs). split; [|by exists name].
        rewrite Hs. apply includes_prefix.
        replace ("{{" +:+ name +:+ "}}" +:+ r) with (("{{" +:+ name +:+ "}}") +:+ r)
          by (by rewrite !append_assoc).
        apply prefix_append.
      * destruct (IH _ _ Hin) as [Hi Hn]. split; [by apply includes_cons|done].
    + intros Hin. destruct (IH _ _ Hin) as [Hi Hn]. split; [by apply includes_cons|done].
  - intros Hin. destruct (IH _ _ Hin) as [Hi Hn]. split; [by apply includes_cons|done].
Qed.

End Placeholders.

(** X20. What counts as a placeholder, and which name is looked up. Every
    match the route works on occurs in the value, has the form
    [{{name}}], and the name looked up is the text between the braces
    exactly as written: it is never empty and holds no closing brace,
    and nothing is trimmed from it. *)
Theorem placeholder_names_are_taken_verbatim (s m : string) :
  In m (match_all 0 s) →
  includes m s = true ∧
  m = "{{" +:+ slice_2_m2 m +:+ "}}" ∧
  slice_2_m2 m ≠ EmptyString ∧
  no_close (slice_2_m2 m) = true.
Proof.
  intros Hin. destruct (match_all_shape s 0 m Hin) as (Hi & name & -> & Hne & Hnc).
  rewrite slice_of_match. done.
Qed.

Lemma placeholder_names_are_taken_verbatim_witness :
  slice_2_m2 "{{ API_KEY }}" ≠ EmptyString ∧ no_close (slice_2_m2 "{{ API_KEY }}") = true.
Proof.
  refine (proj2 (proj2 (placeholder_names_are_taken_verbatim
                          "Bearer {{ API_KEY }}" "{{ API_KEY }}" _))).
  left. reflexivity.
Defined.

Lemma replaceMatches_ok_trace w rid vars ms :
  ∀ value t out,
    replaceMatches w rid vars ms value = (t, Ok out) →
    t = map (decryption_of vars) ms.
Proof.
  induction ms as [|m rest IH]; intros value t out; simpl.
  - by intros [= <- _].
  - unfold decryption_of at 1.
    destruct (lookup_prop (slice_2_m2 m) vars) as [[|c enc]|]; try done.
    unfold await, ret, bind, try_catch, emit, throw.
    destruct (decryptSecret w (String c enc)) as [p|msg]; simpl; [|done].
    destruct (replaceMatches w rid vars rest (replace value m p)) as [t' r] eqn:Hr.
    intros [= <- ->]. simpl. f_equal. by eapply IH.
Qed.

(** X21. Nothing is cached between placeholders. A string value that is
    substituted successfully has cost exactly one decryption call per
    placeholder occurrence, in the order of the occurrences, each for the
    ciphertext stored under the name of that occurrence; a name that
    occurs twice is decrypted twice. *)
Theorem substituteValue_decrypts_each_occurrence (w : World) (rid : string)
    (vars : list (string * string)) (s : string) (t : list Event) (v : JSValue) :
  substituteValue w rid vars (JStr s) = (t, Ok v) →
  t = map (decryption_of vars) (match_all 0 s).
Proof.
  simpl. destruct (_ && _) eqn:Hguard.
  - unfold matchPlaceholders. destruct (match_all 0 s) as [|m ms] eqn:Hms.
    { by intros [= <- _]. }
    unfold bind, ret.
    destruct (replaceMatches w rid vars (m :: ms) s) as [t' [s'|e]] eqn:Hr; [|done].
    simpl. intros [= <- _]. rewrite app_nil_r.
    exact (replaceMatches_ok_trace w rid vars (m :: ms) s t' s' Hr).
  - intros [= <- _]. destruct (match_all 0 s) as [|m ms] eqn:Hms; [done|].
    rewrite match_all_guard in Hguard; [done|]. by rewrite Hms.
Qed.

Lemma substituteValue_decrypts_each_occurrence_witness :
  [Decrypt "enc:x"; Decrypt "enc:x"]
  = map (decryption_of [("A", "enc:x")]) (match_all 0 "{{A}} and {{A}}").
Proof.
  exact (substituteValue_decrypts_each_occurrence
           (demo_world false [] None (Returns demo_success) (Returns tt)) "req"
           [("A", "enc:x")] "{{A}} and {{A}}" _ (JStr "x and x") eq_refl).
Defined.

(** X22. The check for the two brace pairs on line 149 never decides
    anything: a value passes it whenever the pattern has a match, so
    the substitution is the same with or without it. *)
Theorem includes_check_is_redundant (w : World) (rid : string)
    (vars : list (string * string)) (s : string) :
  substituteValue w rid vars (JStr s)
  = match matchPlaceholders s with
    | Some matches =>
        do s' <- replaceMatches w rid vars matches s;
        ret (JStr s')
    | None => ret (JStr s)
    end.
Proof.
  simpl. destruct (_ && _) eqn:Hguard; [done|].
  unfold matchPlaceholders. destruct (match_all 0 s) as [|m ms] eqn:Hms; [done|].
  rewrite match_all_guard in Hguard; [done|]. by rewrite Hms.
Qed.

(** ** The answers of the handlers *)

Lemma respondToError_own rid id e :
  (∀ m s, e = UsageLimitError m s → s = 402) → own_answer (respondToError rid id e).2 = true.
Proof.
  intros Hs. destruct e as [m|m s]; simpl.
  - by destruct m.
  - by rewrite (Hs m s eq_refl).
Qed.

Lemma executeAndRespond_own w h R id rid wf input before :
  own_answer (outcome_of (executeAndRespond w h R id rid wf input before)) = true.
Proof.
  rewrite executeAndRespond_outcome.
  destruct (outcome_of (executeWorkflow w R wf rid input)) as [v|e] eqn:Hout.
  - unfold respondToResult. by destruct (workflowHasResponseBlock h v).
  - apply respondToError_own. intros m s ->.
    by apply executeWorkflow_plain_or_exceeded in Hout as (_ & u & _ & _ & _ & ->).
Qed.

(** X23. The answers of the route are of five kinds. Whatever GET or POST
    answer is either the validator's own refusal, passed on with its
    message and status and no code, or one of: a success (the result, or
    the response built from a response block); 402 with code
    [USAGE_LIMIT_EXCEEDED]; 500 with code [EXECUTION_ERROR] and a message
    that is not empty; 400 with code [INVALID_JSON] (POST only). In
    particular the route itself never answers a duplicate request or any
    failure with another status. *)
Theorem answers_are_of_five_kinds (w : World) (h : Http) (R : gset string) (id : string) :
  (own_answer (outcome_of (GET w h R id)) = true ∨
   ∃ m status, validateWorkflowAccess h id = Returns (AccessDenied m status) ∧
               outcome_of (GET w h R id) = createErrorResponse m status None) ∧
  (own_answer (outcome_of (POST w h R id)) = true ∨
   ∃ m status, validateWorkflowAccess h id = Returns (AccessDenied m status) ∧
               outcome_of (POST w h R id) = createErrorResponse m status None).
Proof.
  split.
  - unfold GET. destruct (validateWorkflowAccess h id) as [[m s|wf]|msg].
    + right. by exists m, s.
    + left. apply executeAndRespond_own.
    + left. unfold outcome_of. simpl. by destruct msg.
  - unfold POST. destruct (validateWorkflowAccess h id) as [[m s|wf]|msg].
    + right. by exists m, s.
    + left. destruct (request_text h) as [bodyText|msg].
      2:{ unfold outcome_of. simpl. by destruct msg. }
      destruct (blank bodyText).
      { simpl. apply executeAndRespond_own. }
      destruct (JSON_parse w bodyText) as [body|msg]; [|done].
      destruct (keys_length body) as [t [n|e]] eqn:Hkeys.
      * apply executeAndRespond_own.
      * assert (He : e = typeError "Cannot convert undefined or null to object").
        { destruct body; simpl in Hkeys; unfold ret, throw in Hkeys; congruence. }
        by subst e.
    + left. unfold outcome_of. simpl. by destruct msg.
Qed.

Lemma answers_are_of_five_kinds_witness :
  own_answer
    (outcome_of (GET (demo_world false [] None (Returns demo_success) (Returns tt))
                   (demo_http (demo_workflow JUndefined) EmptyString)
                   {["wf:0a1b2c3d"]} "wf")) = true.
Proof.
  destruct (proj1 (answers_are_of_five_kinds
              (demo_world false [] None (Returns demo_success) (Returns tt))
              (demo_http (demo_workflow JUndefined) EmptyString) {["wf:0a1b2c3d"]} "wf"))
    as [Hown|(m & status & Hv & _)].
  - exact Hown.
  - discriminate Hv.
Defined.

(** ** A placeholder whose ciphertext does not decrypt *)

Lemma replaceMatches_first_failure w rid vars pre m post c enc msg :
  all_decrypt w vars pre →
  lookup_prop (slice_2_m2 m) vars = Some (String c enc) →
  decryptSecret w (String c enc) = Rejects msg →
  ∀ value,
    replaceMatches w rid vars (pre ++ m :: post) value
    = (map (decryption_of vars) pre
       ++ [Decrypt (String c enc);
           Log LError (tag rid +:+ "Error decrypting environment variable "
                       +:+ quoted (slice_2_m2 m))],
       Throw (PlainError ("Failed to decrypt environment variable "
                          +:+ quoted (slice_2_m2 m) +:+ ": " +:+ msg))).
Proof.
  intros Hpre Hl Hd. induction Hpre as [|m0 pre (c0 & enc0 & p0 & Hl0 & Hd0) _ IH];
    intros value; simpl.
  - rewrite Hl. unfold await, bind, try_catch, emit, throw, ret. by rewrite Hd.
  - unfold decryption_of at 1. rewrite Hl0.
    unfold await, bind, try_catch, emit, throw, ret. rewrite Hd0. simpl.
    by rewrite IH.
Qed.

(** X24. Substitution gives up at the first ciphertext that does not
    decrypt. When, going through the placeholders of a value from left
    to right, the first failure is a stored ciphertext that the
    decryption rejects, one error line is logged and the substitution
    throws [Failed to decrypt environment variable "<name>": <reason>],
    naming the variable and repeating the reason the decryption gave; the
    placeholders after it are not decrypted. *)
Theorem substitution_stops_at_first_failed_decryption (w : World) (rid : string)
    (vars : list (string * string)) (s m : string) (pre post : list string)
    (c : ascii) (enc msg : string) :
  match_all 0 s = pre ++ m :: post →
  all_decrypt w vars pre →
  lookup_prop (slice_2_m2 m) vars = Some (String c enc) →
  decryptSecret w (String c enc) = Rejects msg →
  substituteValue w rid vars (JStr s)
  = (map (decryption_of vars) pre
     ++ [Decrypt (String c enc);
         Log LError (tag rid +:+ "Error decrypting environment variable "
                     +:+ quoted (slice_2_m2 m))],
     Throw (PlainError ("Failed to decrypt environment variable "
                        +:+ quoted (slice_2_m2 m) +:+ ": " +:+ msg))).
Proof.
  intros Hms Hpre Hl Hd. simpl.
  rewrite match_all_guard by (rewrite Hms; by destruct pre).
  unfold matchPlaceholders. rewrite Hms.
  destruct (pre ++ m :: post) as [|m0 ms] eqn:Hl0.
  { by destruct pre. }
  rewrite <- Hl0.
  rewrite (replaceMatches_first_failure w rid vars pre m post c enc msg Hpre Hl Hd).
  reflexivity.
Qed.

Lemma substitution_stops_at_first_failed_decryption_witness :
  substituteValue (demo_world false [] None (Returns demo_success) (Returns tt)) "req"
    [("A", "enc:x"); ("B", "garbled"); ("C", "enc:z")] (JStr "{{A}} {{B}} {{C}}")
  = ([Decrypt "enc:x"; Decrypt "garbled";
      Log LError ("[req] Error decrypting environment variable " +:+ quoted "B")],
     Throw (PlainError ("Failed to decrypt environment variable " +:+ quoted "B"
                        +:+ ": Invalid encrypted value format"))).
Proof.
  refine (substitution_stops_at_first_failed_decryption
    (demo_world false [] None (Returns demo_success) (Returns tt)) "req"
    [("A", "enc:x"); ("B", "garbled"); ("C", "enc:z")] "{{A}} {{B}} {{C}}"
    "{{B}}" ["{{A}}"] ["{{C}}"] "g" "arbled" "Invalid encrypted value format"
    eq_refl _ eq_refl eq_refl).
  constructor; [|constructor]. by exists "e"%char, "nc:x", "x".
Defined.
